(** * The player connection gateway of the matchmaker extension

    A shallow embedding of [src/matchmaker/extension/gateway.js]: the
    [PlayerConnectionGateway] (waiting queue, availability scan over the
    streamer pool, assignment) and the [VirtualPlayer] (client socket,
    streamer socket, heartbeat, notices).

    Node runs every handler to completion, so a handler is a function from
    gateway state to gateway state and the program is the transition system
    [step] over the events the runtime can deliver. Objects that the source
    shares by reference (pool records, players, streamer sockets) live in
    stores indexed by their reference.

    A handler may also throw. Nothing in the gateway catches, so what is
    thrown leaves the listener. For each function [f] that can throw,
    [f_throws] tells whether the call throws and [f] gives the state the
    call leaves behind, at its return or at the throw. *)

From Stdlib Require Import ZArith QArith String List Bool Lia.
From stdpp Require Import base list.
Close Scope Q_scope.

(** ** Data *)

(** A record of the streamer pool. The matchmaker owns the pool and fills
    every field but [allocated], which only the gateway writes; a record
    that never was written reads [undefined] there, which [!server.allocated]
    treats as [false]. *)
Record WorkerRecord := {
  address : string;
  port : Z;
  ready : bool;
  allocated : bool;
  numConnectedClients : Z;
  lastPingReceived : Z
}.

Definition set_allocated (b : bool) (s : WorkerRecord) : WorkerRecord :=
  {| address := address s; port := port s; ready := ready s; allocated := b;
     numConnectedClients := numConnectedClients s;
     lastPingReceived := lastPingReceived s |}.

Definition set_status (r : bool) (n ping : Z) (s : WorkerRecord) : WorkerRecord :=
  {| address := address s; port := port s; ready := r; allocated := allocated s;
     numConnectedClients := n; lastPingReceived := ping |}.

(** [WebSocket.readyState]. *)
Inductive ReadyState := CONNECTING | OPEN | CLOSING | CLOSED.

Definition isOpen (rs : ReadyState) : bool :=
  match rs with OPEN => true | _ => false end.

Definition isClosed (rs : ReadyState) : bool :=
  match rs with CLOSED => true | _ => false end.

(** [ws.close()] and [ws.terminate()] leave a closed socket alone and put
    any other in the closing state; the ['close'] event comes later. *)
Definition closing (rs : ReadyState) : ReadyState :=
  match rs with CLOSED => CLOSED | _ => CLOSING end.

(** The object that [sendNotice] serialises. [detail] is a string or the
    pool record handed to [connectStreamer]. *)
Inductive Detail :=
| DetailText (s : string)
| DetailBackend (backend : WorkerRecord).

Record Notice := {
  type : string;
  queued : bool;
  matched : bool;
  detail : Detail
}.

(** What is handed to [ws.send] on the client socket. *)
Inductive Payload :=
| PNotice (n : Notice)
| PRelay (msg : string).

(** The client socket [player.ws]: its state, the [alive] flag of the
    heartbeat, the payloads passed to [send] (oldest first) and the number
    of [ping] calls. *)
Record ClientSocket := {
  readyState : ReadyState;
  alive : bool;
  sent : list Payload;
  pings : nat
}.

Definition set_readyState (rs : ReadyState) (c : ClientSocket) : ClientSocket :=
  {| readyState := rs; alive := alive c; sent := sent c; pings := pings c |}.

Definition set_alive (b : bool) (c : ClientSocket) : ClientSocket :=
  {| readyState := readyState c; alive := b; sent := sent c; pings := pings c |}.

Definition send (x : Payload) (c : ClientSocket) : ClientSocket :=
  {| readyState := readyState c; alive := alive c; sent := sent c ++ [x];
     pings := pings c |}.

Definition ping (c : ClientSocket) : ClientSocket :=
  {| readyState := readyState c; alive := alive c; sent := sent c;
     pings := S (pings c) |}.

Definition terminate (c : ClientSocket) : ClientSocket :=
  set_readyState (closing (readyState c)) c.

(** The streamer socket made by [connectStreamer]. Its listeners are
    closures over the player that made it ([owner]) and over the pool record
    it connects to ([backend], the [server] of [freeServer]). [forwarded]
    are the client messages relayed to it. The ping deadline that
    [connectStreamer] arms on the socket does nothing but terminate it,
    which the gateway sees as the socket's ['close']. *)
Record StreamSocket := {
  owner : nat;
  backend : nat;
  streamState : ReadyState;
  forwarded : list string
}.

Definition set_streamState (rs : ReadyState) (s : StreamSocket) : StreamSocket :=
  {| owner := owner s; backend := backend s; streamState := rs;
     forwarded := forwarded s |}.

Definition forward (msg : string) (s : StreamSocket) : StreamSocket :=
  {| owner := owner s; backend := backend s; streamState := streamState s;
     forwarded := forwarded s ++ [msg] |}.

(** The listeners that the gateway registers on a player's ['disconnect']:
    [() => this.queue.delete(player)] in [onClientConnection] and
    [freeServer] in [assignPlayer]. *)
Inductive Listener :=
| QueueDelete
| FreeServer (server : nat).

(** A [VirtualPlayer]. [stream] is [None] for [undefined] and [null].
    Every ['drop'] listener is the closure
    [() => isOpen(player.ws) && this.queue.add(player)], so their number
    [onDrop] describes them; [onDisconnect] lists the ['disconnect']
    listeners in the order of their registration. *)
Record VirtualPlayer := {
  ws : ClientSocket;
  stream : option nat;
  onDrop : nat;
  onDisconnect : list Listener
}.

Definition set_ws (c : ClientSocket) (p : VirtualPlayer) : VirtualPlayer :=
  {| ws := c; stream := stream p; onDrop := onDrop p;
     onDisconnect := onDisconnect p |}.

Definition set_stream (s : option nat) (p : VirtualPlayer) : VirtualPlayer :=
  {| ws := ws p; stream := s; onDrop := onDrop p;
     onDisconnect := onDisconnect p |}.

Definition on_drop (p : VirtualPlayer) : VirtualPlayer :=
  {| ws := ws p; stream := stream p; onDrop := S (onDrop p);
     onDisconnect := onDisconnect p |}.

Definition on_disconnect (l : Listener) (p : VirtualPlayer) : VirtualPlayer :=
  {| ws := ws p; stream := stream p; onDrop := onDrop p;
     onDisconnect := onDisconnect p ++ [l] |}.

(** The gateway and the objects it reaches.
    - [workers]: the pool records by reference;
    - [pool]: [this.pool.values()], references in the iteration order of
      the [Map];
    - [queue]: [this.queue], a [Set] of players in insertion order;
    - [players]: every [VirtualPlayer] made so far, by reference;
    - [streams]: every streamer socket made so far, by reference. *)
Record Gateway := {
  debug : bool;
  workers : list WorkerRecord;
  pool : list nat;
  queue : list nat;
  players : list VirtualPlayer;
  streams : list StreamSocket
}.

Definition set_workers (w : list WorkerRecord) (g : Gateway) : Gateway :=
  {| debug := debug g; workers := w; pool := pool g; queue := queue g;
     players := players g; streams := streams g |}.

Definition set_pool (p : list nat) (g : Gateway) : Gateway :=
  {| debug := debug g; workers := workers g; pool := p; queue := queue g;
     players := players g; streams := streams g |}.

Definition set_queue (q : list nat) (g : Gateway) : Gateway :=
  {| debug := debug g; workers := workers g; pool := pool g; queue := q;
     players := players g; streams := streams g |}.

Definition set_players (ps : list VirtualPlayer) (g : Gateway) : Gateway :=
  {| debug := debug g; workers := workers g; pool := pool g; queue := queue g;
     players := ps; streams := streams g |}.

Definition set_streams (ss : list StreamSocket) (g : Gateway) : Gateway :=
  {| debug := debug g; workers := workers g; pool := pool g; queue := queue g;
     players := players g; streams := ss |}.

Definition update_worker (r : nat) (f : WorkerRecord → WorkerRecord)
    (g : Gateway) : Gateway :=
  set_workers (alter f r (workers g)) g.

Definition update_player (p : nat) (f : VirtualPlayer → VirtualPlayer)
    (g : Gateway) : Gateway :=
  set_players (alter f p (players g)) g.

Definition update_stream (s : nat) (f : StreamSocket → StreamSocket)
    (g : Gateway) : Gateway :=
  set_streams (alter f s (streams g)) g.

(** [Set.prototype.add] and [delete] on the insertion-ordered queue. *)
Definition queue_add (p : nat) (q : list nat) : list nat :=
  if decide (p ∈ q) then q else q ++ [p].

Definition queue_delete (p : nat) (q : list nat) : list nat :=
  filter (λ x, x ≠ p) q.

(** [isOpen(player.ws)] and [isOpen(this.stream)] through the stores. *)
Definition client_open (g : Gateway) (p : nat) : bool :=
  match players g !! p with
  | Some pl => isOpen (readyState (ws pl))
  | None => false
  end.

Definition stream_open (g : Gateway) (s : option nat) : bool :=
  match s with
  | Some i =>
      match streams g !! i with
      | Some ss => isOpen (streamState ss)
      | None => false
      end
  | None => false
  end.

(** ** The availability scan *)

(** The condition of [nextAvailable], [liveTime] being [Date.now() - 6e4]. *)
Definition available (dbg : bool) (liveTime : Z) (server : WorkerRecord) : bool :=
  (numConnectedClients server =? 0)%Z && negb (allocated server) &&
  (lastPingReceived server >=? liveTime)%Z &&
  (ready server || dbg).

(** The loop over [this.pool.values()]: the first record that passes is
    returned, [None] stands for falling off the end ([undefined]). *)
Fixpoint scan (dbg : bool) (liveTime : Z) (heap : list WorkerRecord)
    (values : list nat) : option nat :=
  match values with
  | [] => None
  | r :: rest =>
      match heap !! r with
      | Some server =>
          if available dbg liveTime server then Some r
          else scan dbg liveTime heap rest
      | None => scan dbg liveTime heap rest
      end
  end.

Definition nextAvailable (now : Z) (g : Gateway) : option nat :=
  scan (debug g) (now - 60000)%Z (workers g) (pool g).

(** ** The player *)

Definition truthy {A} (o : option A) : bool :=
  match o with Some _ => true | None => false end.

(** The object built by [sendNotice]. *)
Definition notice (p : VirtualPlayer) (d : Detail) : Notice :=
  {| type := "matchmaker";
     queued := negb (truthy (stream p));
     matched := negb (negb (truthy (stream p)));
     detail := d |}.

Definition sendNotice (d : Detail) (p : VirtualPlayer) : VirtualPlayer :=
  set_ws (send (PNotice (notice p d)) (ws p)) p.

(** [new VirtualPlayer(ws)] on the socket of a ['connection'] event, which
    is open. The interval timer of the heartbeat runs until the socket's
    ['close'] event; [ClientHeartbeat] below is its firing. *)
Definition newVirtualPlayer : VirtualPlayer :=
  sendNotice (DetailText "Waiting for available streamer")
    {| ws := {| readyState := OPEN; alive := true; sent := []; pings := 0 |};
       stream := None; onDrop := 0; onDisconnect := [] |}.

(** The interval of [setInterval] in the constructor, in milliseconds. *)
Definition heartbeatInterval : Z := 30000.

Definition _clientHeartbeat (p : VirtualPlayer) : VirtualPlayer :=
  if negb (alive (ws p)) then set_ws (terminate (ws p)) p
  else set_ws (ping (set_alive false (ws p))) p.

(** The ['pong'] listener of the client socket. *)
Definition onPong (p : VirtualPlayer) : VirtualPlayer :=
  set_ws (set_alive true (ws p)) p.

Definition onClientMessage (p : nat) (msg : string) (g : Gateway) : Gateway :=
  match players g !! p with
  | Some pl =>
      if stream_open g (stream pl) then
        match stream pl with
        | Some s => update_stream s (forward msg) g
        | None => g
        end
      else g
  | None => g
  end.

Definition onStreamerMessage (p : nat) (msg : string) (g : Gateway) : Gateway :=
  if client_open g p then
    update_player p (λ pl, set_ws (send (PRelay msg) (ws pl)) pl) g
  else g.

(** ** The socket library *)

(** [new WebSocket(url)] parses [url] before it makes a socket and throws
    when [url] is no URL it can connect to: a port that is not a number from
    0 to 65535, an empty host, a host that is no domain or address. The [ws]
    library and the URL parser of the runtime are not among the sources, so
    the verdict is a parameter: [valid_url address port] tells whether
    [`ws://${address}:${port}?player=${id}`] is accepted (the query, made of
    the digits of the player's id, never decides). *)
Class UrlParser := valid_url : string → Z → bool.

(** [connectStreamer(backend)] throws at [new WebSocket(...)], before it
    has assigned [this.stream], when address and port of [backend] form no
    URL. (The backend is a record of the store: [assignPlayer] gets it from
    the scan.) *)
Definition connectStreamer_throws {lib : UrlParser} (server : nat) (g : Gateway) : bool :=
  match workers g !! server with
  | Some backend => negb (valid_url (address backend) (port backend))
  | None => false
  end.

(** [connectStreamer(backend)]: a new socket, connecting, becomes
    [this.stream], then the notice with the backend as detail. *)
Definition connectStreamer {lib : UrlParser} (p : nat) (server : nat) (g : Gateway) : Gateway :=
  if connectStreamer_throws server g then g else
  let ss := length (streams g) in
  let g1 := set_streams (streams g ++
              [{| owner := p; backend := server; streamState := CONNECTING;
                  forwarded := [] |}]) g in
  let g2 := update_player p (set_stream (Some ss)) g1 in
  match workers g2 !! server with
  | Some rec => update_player p (sendNotice (DetailBackend rec)) g2
  | None => g2
  end.

(** [emit('drop')]: each listener re-queues the player if its client
    socket is open. *)
Definition drop_listener (p : nat) (g : Gateway) : Gateway :=
  if client_open g p then set_queue (queue_add p (queue g)) g else g.

Definition emit_drop (p : nat) (g : Gateway) : Gateway :=
  match players g !! p with
  | Some pl => Nat.iter (onDrop pl) (drop_listener p) g
  | None => g
  end.

Definition handleStreamerClose (p : nat) (g : Gateway) : Gateway :=
  let g1 := update_player p (set_stream None) g in
  let g2 := emit_drop p g1 in
  update_player p (sendNotice (DetailText "Streamer dropped")) g2.

Definition freeServer (server : nat) (g : Gateway) : Gateway :=
  update_worker server (set_allocated false) g.

Definition run_listener (p : nat) (g : Gateway) (l : Listener) : Gateway :=
  match l with
  | QueueDelete => set_queue (queue_delete p (queue g)) g
  | FreeServer server => freeServer server g
  end.

Definition emit_disconnect (p : nat) (g : Gateway) : Gateway :=
  match players g !! p with
  | Some pl => fold_left (run_listener p) (onDisconnect pl) g
  | None => g
  end.

(** [disconnect()]: the ['disconnect'] listeners, then [ws.close()], then
    [stream.close()] if there is a stream. *)
Definition disconnect (p : nat) (g : Gateway) : Gateway :=
  let g1 := emit_disconnect p g in
  let g2 := update_player p
              (λ pl, set_ws (set_readyState (closing (readyState (ws pl))) (ws pl)) pl)
              g1 in
  match players g2 !! p with
  | Some pl =>
      match stream pl with
      | Some s => update_stream s (λ ss, set_streamState (closing (streamState ss)) ss) g2
      | None => g2
      end
  | None => g2
  end.

(** ** The gateway *)

(** [assignPlayer(player, server)]. When [connectStreamer] throws, the
    player is off the queue, the server is allocated and the two listeners
    are on the player. *)
Definition assignPlayer {lib : UrlParser} (p : nat) (server : nat) (g : Gateway) : Gateway :=
  let g1 := set_queue (queue_delete p (queue g)) g in
  if client_open g1 p then
    let g2 := update_worker server (set_allocated true) g1 in
    let g3 := update_player p on_drop g2 in
    let g4 := update_player p (on_disconnect (FreeServer server)) g3 in
    connectStreamer p server g4
  else g1.

(** [assignPlayer] throws when its player's client socket is open and
    [connectStreamer] throws. *)
Definition assignPlayer_throws {lib : UrlParser} (p : nat) (server : nat) (g : Gateway) : bool :=
  let g1 := set_queue (queue_delete p (queue g)) g in
  if client_open g1 p then
    let g2 := update_worker server (set_allocated true) g1 in
    let g3 := update_player p on_drop g2 in
    let g4 := update_player p (on_disconnect (FreeServer server)) g3 in
    connectStreamer_throws server g4
  else false.

(** The loop of [connectWaitingPlayers]. The only change the body makes to
    the queue is to delete the player it is at, so the iterator of the
    [Set] visits the players that were queued at the start, in order;
    [waiting] is what it has not visited yet. [clk i] is what [Date.now()]
    reads in the [i]-th call of [nextAvailable]. An [assignPlayer] that
    throws ends the loop. *)
Fixpoint dequeue {lib : UrlParser} (clk : nat → Z) (i : nat) (waiting : list nat)
    (g : Gateway) : Gateway :=
  match waiting with
  | [] => g
  | player :: rest =>
      match nextAvailable (clk i) g with
      | None => g
      | Some server =>
          if assignPlayer_throws player server g
          then assignPlayer player server g
          else dequeue clk (S i) rest (assignPlayer player server g)
      end
  end.

(** The loop throws when it comes to an [assignPlayer] that throws. *)
Fixpoint dequeue_throws {lib : UrlParser} (clk : nat → Z) (i : nat) (waiting : list nat)
    (g : Gateway) : bool :=
  match waiting with
  | [] => false
  | player :: rest =>
      match nextAvailable (clk i) g with
      | None => false
      | Some server =>
          if assignPlayer_throws player server g
          then true
          else dequeue_throws clk (S i) rest (assignPlayer player server g)
      end
  end.

Definition connectWaitingPlayers {lib : UrlParser} (clk : nat → Z) (g : Gateway) : Gateway :=
  match length (queue g) with
  | O => g
  | S _ => dequeue clk 0 (queue g) g
  end.

Definition connectWaitingPlayers_throws {lib : UrlParser} (clk : nat → Z) (g : Gateway) : bool :=
  match length (queue g) with
  | O => false
  | S _ => dequeue_throws clk 0 (queue g) g
  end.

(** [onClientConnection(ws, req)]: the new player gets the listener that
    deletes it from the queue, is added to the queue, and the queue is
    processed. *)
Definition onClientConnection {lib : UrlParser} (clk : nat → Z) (g : Gateway) : Gateway :=
  let p := length (players g) in
  let g1 := set_players (players g ++ [on_disconnect QueueDelete newVirtualPlayer]) g in
  let g2 := set_queue (queue_add p (queue g1)) g1 in
  connectWaitingPlayers clk g2.

Definition onClientConnection_throws {lib : UrlParser} (clk : nat → Z) (g : Gateway) : bool :=
  let p := length (players g) in
  let g1 := set_players (players g ++ [on_disconnect QueueDelete newVirtualPlayer]) g in
  let g2 := set_queue (queue_add p (queue g1)) g1 in
  connectWaitingPlayers_throws clk g2.

(** The gateway right after construction, with an empty pool. *)
Definition initial (dbg : bool) : Gateway :=
  {| debug := dbg; workers := []; pool := []; queue := []; players := [];
     streams := [] |}.

(** ** Events *)

(** Modelled from the spec: the matchmaker that owns the pool is not among
    the sources. The spec has the pool "mutated by code outside this core",
    which creates the records and writes their readiness, client count and
    last-heartbeat time, and never their allocation flag. Between two
    handlers of the gateway it may add a record ([PoolSet], the flag of a
    new record reads [undefined]), rewrite the status of one ([PoolUpdate])
    or take one out of the pool ([PoolDelete]); a record that left the pool
    lives on in the closures that captured it. *)
Inductive PoolChange :=
| PoolSet (addr : string) (prt : Z) (rdy : bool) (n ping : Z)
| PoolUpdate (r : nat) (rdy : bool) (n ping : Z)
| PoolDelete (r : nat).

Definition pool_change (c : PoolChange) (g : Gateway) : Gateway :=
  match c with
  | PoolSet addr prt rdy n ping =>
      set_pool (pool g ++ [length (workers g)])
        (set_workers (workers g ++
           [{| address := addr; port := prt; ready := rdy; allocated := false;
               numConnectedClients := n; lastPingReceived := ping |}]) g)
  | PoolUpdate r rdy n ping => update_worker r (set_status rdy n ping) g
  | PoolDelete r => set_pool (filter (λ x, x ≠ r) (pool g)) g
  end.

(** What the runtime delivers to the gateway and its players.
    - [ClientConnection]: ['connection'] on the socket server;
    - [StreamerData]: ['data'] on a matchmaker connection;
    - [ClientPong], [ClientMessage], [ClientClose]: events of a client
      socket; [ClientHeartbeat]: its interval timer fires;
    - [ClientClosing]: the peer starts the closing handshake, the socket
      leaves the open state and its ['close'] event is still to come;
    - [StreamOpen], [StreamMessage], [StreamError], [StreamClose]: events
      of a streamer socket;
    - [Matchmaker]: the matchmaker changes the pool. *)
Inductive Event :=
| ClientConnection (clk : nat → Z)
| StreamerData (clk : nat → Z)
| ClientPong (p : nat)
| ClientHeartbeat (p : nat)
| ClientMessage (p : nat) (msg : string)
| ClientClosing (p : nat)
| ClientClose (p : nat)
| StreamOpen (s : nat)
| StreamMessage (s : nat) (msg : string)
| StreamError (s : nat)
| StreamClose (s : nat)
| Matchmaker (c : PoolChange).

(** A client socket has events until its ['close'], a streamer socket
    until its own. *)
Definition client_live (g : Gateway) (p : nat) : bool :=
  match players g !! p with
  | Some pl => negb (isClosed (readyState (ws pl)))
  | None => false
  end.

Definition stream_live (g : Gateway) (s : nat) : option StreamSocket :=
  match streams g !! s with
  | Some ss => if isClosed (streamState ss) then None else Some ss
  | None => None
  end.

(** The ['close'] listener of the client socket: the state is closed, the
    interval is cleared, [disconnect()] runs. *)
Definition onClientClose (p : nat) (g : Gateway) : Gateway :=
  disconnect p (update_player p (λ pl, set_ws (set_readyState CLOSED (ws pl)) pl) g).

(** The ['close'] listeners of a streamer socket. *)
Definition onStreamClose (s : nat) (ss : StreamSocket) (g : Gateway) : Gateway :=
  handleStreamerClose (owner ss) (update_stream s (set_streamState CLOSED) g).

Definition step {lib : UrlParser} (g : Gateway) (e : Event) : Gateway :=
  match e with
  | ClientConnection clk => onClientConnection clk g
  | StreamerData clk => connectWaitingPlayers clk g
  | ClientPong p =>
      if client_live g p then update_player p onPong g else g
  | ClientHeartbeat p =>
      if client_live g p then update_player p _clientHeartbeat g else g
  | ClientMessage p msg =>
      if client_live g p then onClientMessage p msg g else g
  | ClientClosing p =>
      if client_open g p
      then update_player p (λ pl, set_ws (set_readyState CLOSING (ws pl)) pl) g
      else g
  | ClientClose p =>
      if client_live g p then onClientClose p g else g
  | StreamOpen s =>
      match stream_live g s with
      | Some ss =>
          match streamState ss with
          | CONNECTING => update_stream s (set_streamState OPEN) g
          | _ => g
          end
      | None => g
      end
  | StreamMessage s msg =>
      match stream_live g s with
      | Some ss => onStreamerMessage (owner ss) msg g
      | None => g
      end
  | StreamError s =>
      match stream_live g s with
      | Some ss => freeServer (backend ss) g
      | None => g
      end
  | StreamClose s =>
      match stream_live g s with
      | Some ss => onStreamClose s ss g
      | None => g
      end
  | Matchmaker c => pool_change c g
  end.

(** Whether the handler of [e] throws: only the two that drain the queue
    can. *)
Definition throws {lib : UrlParser} (g : Gateway) (e : Event) : bool :=
  match e with
  | ClientConnection clk => onClientConnection_throws clk g
  | StreamerData clk => connectWaitingPlayers_throws clk g
  | _ => false
  end.

Definition run {lib : UrlParser} (g : Gateway) (es : list Event) : Gateway :=
  fold_left step es g.

(** Whether some handler of the run throws. *)
Fixpoint run_throws {lib : UrlParser} (g : Gateway) (es : list Event) : bool :=
  match es with
  | [] => false
  | e :: rest => throws g e || run_throws (step g e) rest
  end.

(** The states the gateway can be in between two handlers when no handler
    has thrown: what a handler throws is uncaught and ends the process. *)
Inductive reachable {lib : UrlParser} : Gateway → Prop :=
| reachable_initial dbg : reachable (initial dbg)
| reachable_step g e : reachable g → throws g e = false → reachable (step g e).

(** The worker a player's streamer socket connects to, and the players
    holding a given worker. *)
Definition worker_of (g : Gateway) (pl : VirtualPlayer) : option nat :=
  match stream pl with
  | Some s => backend <$> streams g !! s
  | None => None
  end.

Definition holds (g : Gateway) (server : nat) (pl : VirtualPlayer) : bool :=
  match worker_of g pl with
  | Some r => Nat.eqb r server
  | None => false
  end.

Definition holders (g : Gateway) (server : nat) : list nat :=
  List.filter
    (λ p, match players g !! p with
          | Some pl => holds g server pl
          | None => false
          end)
    (seq 0 (length (players g))).

(** ** Derived notions used by the statements *)

(** The test of the scan on a reference into the store of records. *)
Definition available_ref (dbg : bool) (liveTime : Z) (heap : list WorkerRecord)
    (r : nat) : bool :=
  match heap !! r with
  | Some server => available dbg liveTime server
  | None => false
  end.

(** The references that [nextAvailable] would accept at time [now]. *)
Definition eligible (now : Z) (g : Gateway) : list nat :=
  List.filter (available_ref (debug g) (now - 60000)%Z (workers g)) (pool g).

(** The liveness window of the scan, [6e4] milliseconds. *)
Definition livenessWindow : Z := 60000.

(** ** Example runs *)

(** The parser of the example runs: it takes every non-empty address with a
    port from 0 to 65535. The example runs use the dotted quads 10.0.0.5 and
    10.0.0.6 with port 9000, which the URL parser of the runtime takes, and
    the empty address with port 65536, which it refuses. *)
#[global] Instance examples_url : UrlParser :=
  λ address port,
    negb (String.eqb address "") && (0 <=? port)%Z && (port <=? 65535)%Z.

(** Readings of the clock that never change. *)
Definition at_time (t : Z) : nat → Z := λ _, t.

(** A pool of one ready streamer whose last ping came at time 0. *)
Definition one_streamer : Gateway :=
  run (initial false) [Matchmaker (PoolSet "10.0.0.5" 9000 true 0 0)].

(** ** The handlers in closed form *)

(** The socket that [connectStreamer] makes. *)
Definition new_stream (p server : nat) : StreamSocket :=
  {| owner := p; backend := server; streamState := CONNECTING; forwarded := [] |}.

(** What [assignPlayer] does to the record of a player whose client socket
    is open when [connectStreamer] throws: the two listeners. *)
Definition registered (server : nat) (pl : VirtualPlayer) : VirtualPlayer :=
  on_disconnect (FreeServer server) (on_drop pl).

(** What [assignPlayer] does to the record of a player whose client socket
    is open when [connectStreamer] returns: the two listeners, the stream,
    the notice. *)
Definition assigned (g : Gateway) (server : nat) (pl : VirtualPlayer) : VirtualPlayer :=
  let pl1 := set_stream (Some (length (streams g)))
               (on_disconnect (FreeServer server) (on_drop pl)) in
  match alter (set_allocated true) server (workers g) !! server with
  | Some rec => sendNotice (DetailBackend rec) pl1
  | None => pl1
  end.

(** The queue after the ['drop'] listeners of player [p] have run. *)
Definition requeued (g : Gateway) (p : nat) : list nat :=
  match players g !! p with
  | Some pl =>
      if isOpen (readyState (ws pl)) && (0 <? onDrop pl)%nat
      then queue_add p (queue g) else queue g
  | None => queue g
  end.

(** What [handleStreamerClose] does to the record of its player. *)
Definition dropped (pl : VirtualPlayer) : VirtualPlayer :=
  sendNotice (DetailText "Streamer dropped") (set_stream None pl).

(** The effect of one ['disconnect'] listener on the pool records, and
    whether the listener that deletes from the queue is among them. *)
Definition free_listener (w : list WorkerRecord) (l : Listener) : list WorkerRecord :=
  match l with
  | QueueDelete => w
  | FreeServer server => alter (set_allocated false) server w
  end.

Definition deletes (ls : list Listener) : bool :=
  existsb (λ l, match l with QueueDelete => true | FreeServer _ => false end) ls.

Definition closed_ws (pl : VirtualPlayer) : VirtualPlayer :=
  set_ws (set_readyState CLOSED (ws pl)) pl.

Definition closing_stream (ss : StreamSocket) : StreamSocket :=
  set_streamState (closing (streamState ss)) ss.

(** ** Invariants of the reachable states *)

(** A player against the queue: a queued player has no stream and its
    client socket has not had its ['close'] event; a player with an open
    client socket and no stream is queued; the listener that deletes the
    player from the queue is registered. *)
Record player_ok (g : Gateway) (p : nat) (pl : VirtualPlayer) : Prop := {
  ok_queued : p ∈ queue g → stream pl = None ∧ readyState (ws pl) ≠ CLOSED;
  ok_waiting : readyState (ws pl) = OPEN → stream pl = None → p ∈ queue g;
  ok_listener : deletes (onDisconnect pl) = true
}.

Record Inv (g : Gateway) : Prop := {
  inv_nodup : NoDup (queue g);
  inv_queue : ∀ p, p ∈ queue g → is_Some (players g !! p);
  inv_player : ∀ p pl, players g !! p = Some pl → player_ok g p pl;
  inv_stream : ∀ s ss, streams g !! s = Some ss →
                 ∃ pl, players g !! owner ss = Some pl ∧ 0 < onDrop pl
}.

(** Three players connect while the only streamer is not ready, then the
    streamer reports ready. *)
Definition three_waiting : Gateway :=
  run (initial false)
    [Matchmaker (PoolSet "10.0.0.5" 9000 false 0 0);
     ClientConnection (at_time 0); ClientConnection (at_time 0);
     ClientConnection (at_time 0);
     Matchmaker (PoolUpdate 0 true 0 0)].

(** The same, but the first player misses a heartbeat and its socket is
    terminated before the streamer reports ready; the ['close'] event of
    the socket has not been delivered yet. *)
Definition first_terminated : Gateway :=
  run (initial false)
    [Matchmaker (PoolSet "10.0.0.5" 9000 false 0 0);
     ClientConnection (at_time 0); ClientConnection (at_time 0);
     ClientConnection (at_time 0);
     ClientHeartbeat 0; ClientHeartbeat 0;
     Matchmaker (PoolUpdate 0 true 0 0)].

(** Every streamer socket was opened to a record of the store. *)
Definition Backed (g : Gateway) : Prop :=
  ∀ s ss, streams g !! s = Some ss → backend ss < length (workers g).


(** The first player was terminated while queued, then a drain ran. *)
Definition terminated_drained : Gateway :=
  run first_terminated [StreamerData (at_time 0)].

(** One player connected to the only streamer and both sockets open. *)
Definition one_matched : Gateway :=
  run one_streamer [ClientConnection (at_time 0); StreamOpen 0].

(** Two streamers and two players. Both worker legs fail (error, then
    close), the second before the first, so the players are queued again in
    the other order and the next drain connects each to the streamer the
    other had. *)
Definition swapped : list Event :=
  [Matchmaker (PoolSet "10.0.0.5" 9000 true 0 0);
   Matchmaker (PoolSet "10.0.0.6" 9000 true 0 0);
   ClientConnection (at_time 0); ClientConnection (at_time 0);
   StreamError 1; StreamClose 1; StreamError 0; StreamClose 0;
   StreamerData (at_time 0)].

(** Then player 0 disconnects, a third player connects, and the worker legs
    of players 1 and 2 open. *)
Definition double_allocation : list Event :=
  swapped ++ [ClientClose 0; ClientConnection (at_time 0);
              StreamOpen 2; StreamOpen 4].

(** The notice a new player sends from its constructor. *)
Definition waiting_notice : Notice :=
  {| type := "matchmaker"; queued := true; matched := false;
     detail := DetailText "Waiting for available streamer" |}.

(** A notice says matched exactly when it does not say queued. *)
Definition consistent (x : Payload) : Prop :=
  match x with
  | PNotice n => matched n = negb (queued n)
  | PRelay _ => True
  end.

(** From [g] to [g'] the players keep what their client sockets were sent
    and add consistent payloads only, and the players that are new in [g']
    were sent consistent payloads only. *)
Record grows (g g' : Gateway) : Prop := {
  grows_old : ∀ q pl, players g !! q = Some pl →
    ∃ pl' extra, players g' !! q = Some pl' ∧
                 sent (ws pl') = sent (ws pl) ++ extra ∧ Forall consistent extra;
  grows_new : ∀ q pl', players g' !! q = Some pl' →
    q < length (players g) ∨ Forall consistent (sent (ws pl'))
}.

Definition Consistent (g : Gateway) : Prop :=
  ∀ p pl, players g !! p = Some pl → Forall consistent (sent (ws pl)).

(** ** Gauges *)

(** [wss.clients] of the socket server: the library adds a client socket
    on ['connection'] and deletes it on the socket's ['close'], so it holds
    the players whose client socket has not been closed. *)
Definition wss_clients (g : Gateway) : list nat :=
  List.filter (client_live g) (seq 0 (length (players g))).

(** [[...pool.values()]]. *)
Definition pool_values (g : Gateway) : list WorkerRecord :=
  omap (λ r, workers g !! r) (pool g).

(** The [collect] callbacks; each returns what it passes to [this.set]. *)
Definition player_queue_count (g : Gateway) : Z := Z.of_nat (length (queue g)).

Definition streamer_available_count (g : Gateway) : Z :=
  Z.of_nat (length (List.filter
    (λ s, (numConnectedClients s =? 0)%Z && ready s) (pool_values g))).

Definition streamer_demand_ratio (g : Gateway) : Q :=
  let players := Z.of_nat (length (wss_clients g)) in
  let poolSize := Z.of_nat (length (List.filter ready (pool_values g))) in
  if (poolSize >? 0)%Z then (inject_Z players / inject_Z poolSize)%Q
  else if (players >? 0)%Z then inject_Z (players + 1) else 0%Q.

(** The numbers the statements speak of. *)
Definition connectedClients (g : Gateway) : Z := Z.of_nat (length (wss_clients g)).
Definition waitingClients (g : Gateway) : Z := Z.of_nat (length (queue g)).
Definition readyWorkers (g : Gateway) : Z :=
  Z.of_nat (length (List.filter ready (pool_values g))).

(** ** Construction *)

Module Constructor.

(** The values the constructor can be handed for a collaborator, up to what
    it does with them: [undefined], [null], a boolean (what [!x] evaluates
    to), or an object of some class. *)
Inductive Class := HttpServer | NetServer | MapClass | MetricsAdapter | OtherClass.

Inductive Value :=
| Undefined
| Null
| Boolean (b : bool)
| Object (c : Class).

(** The prototype chains: [Http.Server] extends [Net.Server]. *)
Definition extends (c d : Class) : bool :=
  match c, d with
  | HttpServer, HttpServer | HttpServer, NetServer | NetServer, NetServer
  | MapClass, MapClass | MetricsAdapter, MetricsAdapter
  | OtherClass, OtherClass => true
  | _, _ => false
  end.

(** [v instanceof C]: false for every primitive value. *)
Definition instanceof (v : Value) (c : Class) : bool :=
  match v with
  | Object d => extends d c
  | _ => false
  end.

Definition toBoolean (v : Value) : bool :=
  match v with
  | Undefined | Null => false
  | Boolean b => b
  | Object _ => true
  end.

(** [!v], a boolean. *)
Definition not (v : Value) : Value := Boolean (negb (toBoolean v)).

Record Options := {
  server : Value;
  matchmaker : Value;
  pool : Value;
  metrics : Value
}.

(** [options || {}]: without options every property reads [undefined]. *)
Definition orEmpty (options : option Options) : Options :=
  match options with
  | Some o => o
  | None => {| server := Undefined; matchmaker := Undefined; pool := Undefined;
               metrics := Undefined |}
  end.

Inductive Thrown :=
| Error (message : string)
| TypeError (message : string).

Inductive Completion (A : Type) :=
| Return (a : A)
| Throw (e : Thrown).
Arguments Return {A} a.
Arguments Throw {A} e.

(** Modelled from the spec: the metrics adapter of [./metrics] is not among
    the sources. The spec has it expose named measurement points against
    which collectors are registered, so [instrumentSocketServer] and [gauge]
    register and return the adapter for chaining. The result is the list of
    the gauges registered. On [undefined] and [null] the property access
    throws a [TypeError]; on any other value that is not an adapter the
    method is missing and the call throws a [TypeError]. *)
Definition instrument (metrics : Value) : Completion (list string) :=
  match metrics with
  | Object MetricsAdapter =>
      Return ["player_queue_count"; "streamer_available_count";
              "streamer_demand_ratio"]%string
  | Undefined | Null =>
      Throw (TypeError "Cannot read properties of undefined")
  | _ => Throw (TypeError "metrics.instrumentSocketServer is not a function")
  end.

(** The instance: [this._debug], [this.pool], the size of [this.queue] and
    the gauges registered with the adapter. *)
Record Instance := {
  _debug : bool;
  this_pool : Value;
  queue_size : nat;
  gauges : list string
}.

(** [new PlayerConnectionGateway(options)], [DEBUG] being
    [process.env.DEBUG]. *)
Definition constructor (DEBUG : option string) (options : option Options)
    : Completion Instance :=
  let o := orEmpty options in
  if negb (instanceof (server o) HttpServer) then
    Throw (Error "Http server is required for PlayerConnectionGateway")
  else if negb (instanceof (matchmaker o) NetServer) then
    Throw (Error "Matchmaker server is required for PlayerConnectionGateway")
  else if instanceof (not (pool o)) MapClass then
    Throw (Error "A streamer availability pool is required")
  else if instanceof (not (metrics o)) MetricsAdapter then
    Throw (Error "Metrics adapter instance is required")
  else
    match instrument (metrics o) with
    | Return registered =>
        Return {| _debug := match DEBUG with
                            | Some s => negb (String.eqb s "")
                            | None => false
                            end;
                  this_pool := pool o;
                  queue_size := 0;
                  gauges := registered |}
    | Throw e => Throw e
    end.

(** Options with everything but the pool. *)
Definition without_pool : Options :=
  {| server := Object HttpServer; matchmaker := Object NetServer;
     pool := Undefined; metrics := Object MetricsAdapter |}.

End Constructor.

(** * Further notions *)

(** The notice of [connectStreamer], [rec] being the pool record handed to
    it. *)
Definition matched_notice (rec : WorkerRecord) : Notice :=
  {| type := "matchmaker"; queued := false; matched := true;
     detail := DetailBackend rec |}.

(** Players and their worker legs: the stream of a player is a socket of the
    store that this player made, and the player carries the listener that
    frees the streamer of that socket; a socket that has not been closed is
    the stream of the player that made it. *)
Record Legs (g : Gateway) : Prop := {
  legs_linked : ∀ p pl s, players g !! p = Some pl → stream pl = Some s →
    ∃ ss, streams g !! s = Some ss ∧ owner ss = p ∧
          In (FreeServer (backend ss)) (onDisconnect pl);
  legs_single : ∀ s ss, streams g !! s = Some ss → streamState ss ≠ CLOSED →
    ∃ pl, players g !! owner ss = Some pl ∧ stream pl = Some s
}.

(** A matched player whose client socket then closed. *)
Definition one_disconnected : Gateway := run one_matched [ClientClose 0].

(** The last notice among the payloads handed to a client socket. *)
Fixpoint last_notice (l : list Payload) : option Notice :=
  match l with
  | [] => None
  | x :: rest =>
      match last_notice rest with
      | Some n => Some n
      | None => match x with PNotice n => Some n | PRelay _ => None end
      end
  end.

(** What a client has been told: the first payload was the waiting notice,
    and the last notice says whether the player has a stream now. *)
Definition told (pl : VirtualPlayer) : Prop :=
  (∃ extra, sent (ws pl) = PNotice waiting_notice :: extra) ∧
  ∃ n, last_notice (sent (ws pl)) = Some n ∧
       type n = "matchmaker"%string ∧
       queued n = negb (truthy (stream pl)) ∧
       matched n = truthy (stream pl).

Definition Told (g : Gateway) : Prop :=
  ∀ p pl, players g !! p = Some pl → told pl.

(** ** The ping deadline of the worker leg *)

Module WorkerLeg.

(** The streamer socket as [connectStreamer]'s [pong] and [clear] see it:
    its state and [this.pingTimeout], the time at which the pending timer is
    due, [None] when no timer is pending (none set yet, cleared, or
    fired). *)
Record Leg := {
  state : ReadyState;
  pingTimeout : option Z
}.

(** [30000 + 1000]. *)
Definition grace : Z := 30000 + 1000.

(** [new WebSocket(...)]. *)
Definition connecting : Leg := {| state := CONNECTING; pingTimeout := None |}.

(** [pong]: [clearTimeout(this.pingTimeout)], then a new timer due [grace]
    from now. *)
Definition pong (now : Z) (l : Leg) : Leg :=
  {| state := state l; pingTimeout := Some (now + grace)%Z |}.

(** The ['close'] listener [clear]. *)
Definition clear (l : Leg) : Leg :=
  {| state := state l; pingTimeout := None |}.

(** Time passes to [now]: a pending timer that is due has fired and its
    callback has called [this.terminate()]. *)
Definition elapse (now : Z) (l : Leg) : Leg :=
  match pingTimeout l with
  | Some due =>
      if (due <=? now)%Z
      then {| state := closing (state l); pingTimeout := None |}
      else l
  | None => l
  end.

(** The events of the socket that have listeners here. *)
Inductive Event := Open | Ping | Close.

(** The event [e] at time [now]. ['open'] comes to a connecting socket,
    ['ping'] to one that is not closed, ['close'] closes. *)
Definition handle (l : Leg) (te : Z * Event) : Leg :=
  let l' := elapse (fst te) l in
  match snd te with
  | Open =>
      match state l' with
      | CONNECTING => pong (fst te) {| state := OPEN; pingTimeout := pingTimeout l' |}
      | _ => l'
      end
  | Ping => if isClosed (state l') then l' else pong (fst te) l'
  | Close => clear {| state := CLOSED; pingTimeout := pingTimeout l' |}
  end.

Definition run (l : Leg) (es : list (Z * Event)) : Leg := fold_left handle es l.

(** Pings at the times [pings], each less than [grace] after the renewal
    before it, [last] being the time of that renewal. *)
Fixpoint timely (last : Z) (pings : list Z) : Prop :=
  match pings with
  | [] => True
  | t :: rest => (last <= t < last + grace)%Z ∧ timely t rest
  end.

End WorkerLeg.

(** ** The peer configuration service *)

Module PeerConfig.

(** What the handler reads of the object that [getRTCPeerConfig] returns:
    the ICE servers and, of each, its [urls]. *)
Record IceServer := { urls : list string }.

Record RTCPeerConfig := { iceServers : list IceServer }.

(** What the handler does with the response. *)
Inductive Body :=
| Json (config : RTCPeerConfig)
| Text (s : string)
| Empty.

Record Response := {
  status : Z;
  contentType : option string;
  body : Body
}.

(** A call either returns or throws. *)
Inductive Outcome (A : Type) :=
| Returned (a : A)
| Thrown.
Arguments Returned {A} a.
Arguments Thrown {A}.

(** [rtc.iceServers.some(s => s.urls.length)]. *)
Definition ok (rtc : RTCPeerConfig) : bool :=
  existsb (λ s, negb (Nat.eqb (length (urls s)) 0)) (iceServers rtc).

(** The request listener on [req.url]. [getRTCPeerConfig] of [./lib/rtc] is
    not among the sources; [peerConfig] is the outcome of calling it. The
    main route catches what it throws, the health route does not. *)
Definition handler (peerConfig : Outcome RTCPeerConfig) (url : string)
    : Outcome Response :=
  if String.eqb url "/" then
    match peerConfig with
    | Returned c =>
        Returned {| status := 200; contentType := Some "application/json"%string;
                    body := Json c |}
    | Thrown =>
        Returned {| status := 500; contentType := None; body := Text "Error" |}
    end
  else if String.prefix "/health" url then
    match peerConfig with
    | Returned rtc =>
        Returned {| status := if ok rtc then 200 else 404;
                    contentType := None;
                    body := Text (if ok rtc then "true" else "false") |}
    | Thrown => Thrown
    end
  else Returned {| status := 404; contentType := None; body := Empty |}.

End PeerConfig.

(** [g'] is [g] with some more streamers allocated: the same pool and debug
    flag, and every record either as it is in [g] or allocated since. *)
Definition allocated_since (g g' : Gateway) : Prop :=
  debug g' = debug g ∧ pool g' = pool g ∧
  ∀ r, workers g' !! r = workers g !! r ∨
       ∃ rec, workers g !! r = Some rec ∧
              workers g' !! r = Some (set_allocated true rec).

(** A client answers [n] probes: tick, pong, [n] times over. *)
Fixpoint answered (p : nat) (n : nat) : list Event :=
  match n with
  | O => []
  | S n' => ClientHeartbeat p :: ClientPong p :: answered p n'
  end.

(** ** The heartbeat of the client leg *)

(** [pl'] has the client socket of [pl] but for what was handed to
    [send]. *)
Definition same_socket (pl pl' : VirtualPlayer) : Prop :=
  readyState (ws pl') = readyState (ws pl) ∧
  alive (ws pl') = alive (ws pl) ∧
  pings (ws pl') = pings (ws pl).

(** A probe of player [p] is out once its timer has fired and until its
    pong comes: [b] before the event [e], the result after it. *)
Definition outstanding (p : nat) (b : bool) (e : Event) : bool :=
  match e with
  | ClientHeartbeat q => if Nat.eqb q p then true else b
  | ClientPong q => if Nat.eqb q p then false else b
  | _ => b
  end.

(** Whether, after the events [es] that followed the creation of player
    [p], the last probe sent to it is unanswered: its timer has fired and no
    pong has come since the last firing. *)
Definition unanswered (p : nat) (es : list Event) : bool :=
  fold_left (outstanding p) es false.

Module Heartbeat.

(** A player with the interval timer [hb] of its constructor: the time at
    which the timer fires next, [None] once the ['close'] listener has
    cleared it. *)
Record Timed := {
  player : VirtualPlayer;
  hb : option Z
}.

(** [new VirtualPlayer(ws)] at time [now]: the timer is set to fire every
    [heartbeatInterval], first one interval from now. *)
Definition create (now : Z) : Timed :=
  {| player := newVirtualPlayer; hb := Some (now + heartbeatInterval)%Z |}.

(** The timer fires: [_clientHeartbeat] runs, and the next firing is one
    interval after this one. *)
Definition fire (c : Timed) : Timed :=
  match hb c with
  | Some due =>
      {| player := _clientHeartbeat (player c);
         hb := Some (due + heartbeatInterval)%Z |}
  | None => c
  end.

(** Time passes to [now]: the firings that are due happen, in order. *)
Definition elapse (now : Z) (c : Timed) : Timed :=
  match hb c with
  | Some due =>
      if (due <=? now)%Z
      then Nat.iter (Z.to_nat ((now - due) / heartbeatInterval + 1)) fire c
      else c
  | None => c
  end.

(** The events of the client socket that bear on the heartbeat. *)
Inductive Event := Pong | Close.

(** The event [e] at time [now]: ['pong'] comes to a socket that is not
    closed; ['close'] closes it and clears the timer. *)
Definition handle (c : Timed) (te : Z * Event) : Timed :=
  let c' := elapse (fst te) c in
  match snd te with
  | Pong =>
      if isClosed (readyState (ws (player c'))) then c'
      else {| player := onPong (player c'); hb := hb c' |}
  | Close => {| player := closed_ws (player c'); hb := None |}
  end.

End Heartbeat.

(** A pool of one ready streamer that registered with an empty address and
    the port 65536, which form no URL. *)
Definition unreachable_streamer : Gateway :=
  run (initial false) [Matchmaker (PoolSet "" 65536 true 0 0)].
(** * Properties *)

(** What follows holds whatever the URL parser of the runtime accepts. *)
Section Properties.
Context {lib : UrlParser}.

(** ** The availability scan: what it returns *)

Section Scan.
Variable dbg : bool.
Variable liveTime : Z.
Variable heap : list WorkerRecord.

Lemma available_true server :
  available dbg liveTime server = true ↔
  numConnectedClients server = 0%Z ∧ allocated server = false ∧
  (liveTime <= lastPingReceived server)%Z ∧
  (ready server = true ∨ dbg = true).
Proof.
  unfold available.
  rewrite !andb_true_iff, orb_true_iff, negb_true_iff, Z.eqb_eq, Z.geb_le.
  tauto.
Qed.

(** The scan returns the first reference of the pool that passes. *)
Lemma scan_head values :
  scan dbg liveTime heap values =
  head (List.filter (available_ref dbg liveTime heap) values).
Proof.
  induction values as [|r rest IH]; simpl; [reflexivity|].
  unfold available_ref at 1.
  destruct (heap !! r) as [server|]; [|exact IH].
  destruct (available dbg liveTime server); [reflexivity|exact IH].
Qed.

Lemma scan_Some values r :
  scan dbg liveTime heap values = Some r →
  r ∈ values ∧ ∃ server, heap !! r = Some server ∧
                         available dbg liveTime server = true.
Proof.
  induction values as [|x rest IH]; simpl; [discriminate|].
  destruct (heap !! x) as [server|] eqn:Hx.
  - destruct (available dbg liveTime server) eqn:Ha.
    + intros [= <-]. split; [left|eauto].
    + intros H. destruct (IH H) as [Hin Hs]. split; [by right|exact Hs].
  - intros H. destruct (IH H) as [Hin Hs]. split; [by right|exact Hs].
Qed.

Lemma scan_None values :
  scan dbg liveTime heap values = None ↔
  ∀ r, r ∈ values → available_ref dbg liveTime heap r = false.
Proof.
  rewrite scan_head. induction values as [|x rest IH]; simpl.
  - split; [intros _ r Hr; inversion Hr|reflexivity].
  - destruct (available_ref dbg liveTime heap x) eqn:Hx; simpl.
    + split; [discriminate|]. intros H.
      rewrite (H x) in Hx; [discriminate|left].
    + rewrite IH. split.
      * intros H r Hr. inversion Hr; subst; auto.
      * intros H r Hr. apply H. by right.
Qed.
End Scan.

Lemma nextAvailable_head now g : nextAvailable now g = head (eligible now g).
Proof. apply scan_head. Qed.

(** ** Eligibility *)

(** C2, as the code has it: whatever [nextAvailable] returns is a record of
    the pool with no connected client, not allocated, whose last ping is at
    most 60 seconds old (the bound is inclusive), and which is ready unless
    the debug flag is set. The debug flag only replaces the readiness test;
    the other three tests hold with and without it. *)
Theorem nextAvailable_eligibility now g r :
  nextAvailable now g = Some r →
  r ∈ pool g ∧
  ∃ server, workers g !! r = Some server ∧
    numConnectedClients server = 0%Z ∧
    allocated server = false ∧
    (now - lastPingReceived server <= livenessWindow)%Z ∧
    (ready server = true ∨ debug g = true).
Proof.
  unfold nextAvailable. intros H.
  apply scan_Some in H as [Hin (server & Hs & Ha)].
  split; [exact Hin|]. exists server. split; [exact Hs|].
  apply available_true in Ha as (Hn & Hal & Hping & Hr).
  unfold livenessWindow. repeat split; auto. lia.
Qed.

(** A record is passed over exactly when one of the four tests fails, so
    the scan finds nothing exactly when no record of the pool passes. *)
Lemma nextAvailable_None now g :
  nextAvailable now g = None ↔ eligible now g = [].
Proof.
  rewrite nextAvailable_head. destruct (eligible now g); simpl; split; congruence.
Qed.

(** ** What each handler does to the state *)

Lemma elem_of_queue_delete p q Q : q ∈ queue_delete p Q ↔ q ∈ Q ∧ q ≠ p.
Proof. unfold queue_delete. rewrite list_elem_of_filter. tauto. Qed.

Lemma elem_of_queue_add p q Q : q ∈ queue_add p Q ↔ q = p ∨ q ∈ Q.
Proof.
  unfold queue_add. destruct (decide (p ∈ Q)).
  - split; [auto|]. intros [->|]; auto.
  - rewrite elem_of_app, list_elem_of_singleton. tauto.
Qed.

Lemma queue_add_idemp p Q : queue_add p (queue_add p Q) = queue_add p Q.
Proof.
  unfold queue_add at 1. destruct (decide (p ∈ queue_add p Q)) as [|n]; [reflexivity|].
  exfalso. apply n, elem_of_queue_add. by left.
Qed.

Lemma NoDup_queue_add p Q : NoDup Q → NoDup (queue_add p Q).
Proof.
  intros H. unfold queue_add. destruct (decide (p ∈ Q)); [exact H|].
  apply NoDup_app. split; [exact H|]. split.
  - intros x Hx Hx'. apply list_elem_of_singleton in Hx'. by subst.
  - apply NoDup_singleton.
Qed.

Lemma NoDup_queue_delete p Q : NoDup Q → NoDup (queue_delete p Q).
Proof. apply NoDup_filter. Qed.

(** Deleting the head of a duplicate-free queue leaves its tail. *)
Lemma queue_delete_head p Q : NoDup (p :: Q) → queue_delete p (p :: Q) = Q.
Proof.
  intros H. apply NoDup_cons in H as [Hp _]. unfold queue_delete.
  rewrite filter_cons. destruct (decide (p ≠ p)) as [|_]; [done|].
  induction Q as [|x Q IH]; [reflexivity|].
  rewrite filter_cons. destruct (decide (x ≠ p)) as [_|Hx].
  - f_equal. apply IH. intros H. apply Hp. by right.
  - exfalso. apply Hp. destruct (decide (x = p)) as [->|]; [left|done].
Qed.

Lemma assignPlayer_closed p server g :
  client_open g p = false →
  assignPlayer p server g = set_queue (queue_delete p (queue g)) g.
Proof.
  intros H. unfold assignPlayer.
  change (client_open (set_queue _ g) p) with (client_open g p). by rewrite H.
Qed.

(** Whether [connectStreamer] throws is read off address and port of the
    record, which no handler writes. *)
Lemma connectStreamer_throws_frame server g g' :
  workers g' = alter (set_allocated true) server (workers g) →
  connectStreamer_throws server g' = connectStreamer_throws server g.
Proof.
  intros Hw. unfold connectStreamer_throws. rewrite Hw, list_lookup_alter_eq.
  by destruct (workers g !! server).
Qed.

Lemma assignPlayer_open p server g :
  client_open g p = true → connectStreamer_throws server g = false →
  assignPlayer p server g =
  {| debug := debug g;
     workers := alter (set_allocated true) server (workers g);
     pool := pool g;
     queue := queue_delete p (queue g);
     players := alter (assigned g server) p (players g);
     streams := streams g ++ [new_stream p server] |}.
Proof.
  intros H Ht. unfold assignPlayer.
  change (client_open (set_queue _ g) p) with (client_open g p). rewrite H.
  unfold connectStreamer.
  rewrite (connectStreamer_throws_frame server g) by reflexivity. rewrite Ht.
  unfold assigned. simpl.
  destruct (alter (set_allocated true) server (workers g) !! server) as [rec|];
    unfold update_player, set_players; simpl; f_equal;
    rewrite !list_alter_alter_eq; reflexivity.
Qed.

Lemma assignPlayer_thrown p server g :
  client_open g p = true → connectStreamer_throws server g = true →
  assignPlayer p server g =
  {| debug := debug g;
     workers := alter (set_allocated true) server (workers g);
     pool := pool g;
     queue := queue_delete p (queue g);
     players := alter (registered server) p (players g);
     streams := streams g |}.
Proof.
  intros H Ht. unfold assignPlayer.
  change (client_open (set_queue _ g) p) with (client_open g p). rewrite H.
  unfold connectStreamer.
  rewrite (connectStreamer_throws_frame server g) by reflexivity. rewrite Ht.
  unfold update_player, set_players; simpl. f_equal.
  by rewrite list_alter_alter_eq.
Qed.

Lemma assignPlayer_throws_eq p server g :
  assignPlayer_throws p server g =
  client_open g p && connectStreamer_throws server g.
Proof.
  unfold assignPlayer_throws.
  change (client_open (set_queue _ g) p) with (client_open g p).
  destruct (client_open g p); [|reflexivity].
  by apply (connectStreamer_throws_frame server g).
Qed.

Lemma assignPlayer_returns p server g :
  assignPlayer_throws p server g = false →
  client_open g p = false ∨
  client_open g p = true ∧ connectStreamer_throws server g = false.
Proof.
  rewrite assignPlayer_throws_eq.
  destruct (client_open g p), (connectStreamer_throws server g); simpl; auto.
Qed.

(** One [assignPlayer], by what it comes to: the client socket is not
    open, [connectStreamer] returns, or it throws. *)
Ltac assign_cases p server g Ho Ht :=
  destruct (client_open g p) eqn:Ho;
  [destruct (connectStreamer_throws server g) eqn:Ht;
   [rewrite ?(assignPlayer_thrown p server g Ho Ht) in *
   |rewrite ?(assignPlayer_open p server g Ho Ht) in *]
  |rewrite ?(assignPlayer_closed p server g Ho) in *].

Lemma drop_listeners n p g :
  Nat.iter n (drop_listener p) g =
  if client_open g p && (0 <? n)%nat
  then set_queue (queue_add p (queue g)) g else g.
Proof.
  induction n as [|n IH]; simpl.
  - by rewrite andb_false_r.
  - rewrite IH. unfold drop_listener at 1.
    destruct (client_open g p) eqn:Ho; simpl.
    + destruct n; simpl.
      * by rewrite Ho.
      * change (client_open (set_queue _ g) p) with (client_open g p).
        rewrite Ho. unfold set_queue; simpl. by rewrite queue_add_idemp.
    + by rewrite Ho.
Qed.

Lemma lookup_update_player p f g q :
  players (update_player p f g) !! q =
  if decide (p = q) then f <$> players g !! p else players g !! q.
Proof. apply list_lookup_alter. Qed.

Lemma client_open_update p f g q :
  (∀ pl, readyState (ws (f pl)) = readyState (ws pl)) →
  client_open (update_player p f g) q = client_open g q.
Proof.
  intros Hf. unfold client_open. rewrite lookup_update_player.
  destruct (decide (p = q)) as [->|]; [|reflexivity].
  destruct (players g !! q); simpl; [by rewrite Hf|reflexivity].
Qed.

Lemma handleStreamerClose_eq p g :
  handleStreamerClose p g =
  {| debug := debug g; workers := workers g; pool := pool g;
     queue := requeued g p;
     players := alter dropped p (players g);
     streams := streams g |}.
Proof.
  unfold handleStreamerClose, emit_drop, requeued.
  rewrite lookup_update_player. destruct (decide (p = p)); [|done].
  destruct (players g !! p) as [pl|] eqn:Hp; simpl.
  - rewrite drop_listeners, client_open_update by reflexivity.
    unfold client_open. rewrite Hp.
    destruct (isOpen (readyState (ws pl)) && (0 <? onDrop pl)%nat);
      unfold update_player, set_players, set_queue; simpl;
      by rewrite list_alter_alter_eq.
  - unfold update_player, set_players; simpl. by rewrite list_alter_alter_eq.
Qed.

Lemma queue_delete_idemp p Q : queue_delete p (queue_delete p Q) = queue_delete p Q.
Proof.
  unfold queue_delete. induction Q as [|x Q IH]; [reflexivity|].
  rewrite !filter_cons. destruct (decide (x ≠ p)) as [Hx|Hx]; [|exact IH].
  rewrite filter_cons. destruct (decide (x ≠ p)); [|done]. by rewrite IH.
Qed.

Lemma emit_listeners p ls g :
  fold_left (run_listener p) ls g =
  {| debug := debug g;
     workers := fold_left free_listener ls (workers g);
     pool := pool g;
     queue := if deletes ls then queue_delete p (queue g) else queue g;
     players := players g;
     streams := streams g |}.
Proof.
  revert g. induction ls as [|l ls IH]; intros g; simpl.
  - by destruct g.
  - rewrite IH. destruct l; simpl; [|reflexivity].
    destruct (deletes ls); [|reflexivity]. by rewrite queue_delete_idemp.
Qed.

Lemma disconnect_eq p pl g :
  players g !! p = Some pl →
  disconnect p g =
  {| debug := debug g;
     workers := fold_left free_listener (onDisconnect pl) (workers g);
     pool := pool g;
     queue := if deletes (onDisconnect pl) then queue_delete p (queue g) else queue g;
     players := alter (λ pl, set_ws (set_readyState (closing (readyState (ws pl))) (ws pl)) pl)
                  p (players g);
     streams := match stream pl with
                | Some s => alter closing_stream s (streams g)
                | None => streams g
                end |}.
Proof.
  intros Hp. unfold disconnect, emit_disconnect. rewrite Hp, emit_listeners.
  unfold update_player at 1. simpl players.
  rewrite list_lookup_alter_eq, Hp. simpl.
  destruct (stream pl); reflexivity.
Qed.

Lemma onClientClose_eq p pl g :
  players g !! p = Some pl →
  onClientClose p g =
  {| debug := debug g;
     workers := fold_left free_listener (onDisconnect pl) (workers g);
     pool := pool g;
     queue := if deletes (onDisconnect pl) then queue_delete p (queue g) else queue g;
     players := alter closed_ws p (players g);
     streams := match stream pl with
                | Some s => alter closing_stream s (streams g)
                | None => streams g
                end |}.
Proof.
  intros Hp. unfold onClientClose.
  rewrite (disconnect_eq p (closed_ws pl)).
  - simpl. f_equal. by rewrite list_alter_alter_eq.
  - by rewrite lookup_update_player, decide_True, Hp.
Qed.

(** Case analysis on an event, one goal per handler. *)
Ltac by_event e :=
  destruct e as [clk|clk|p|p|p msg|p|p|s|s msg|s|s
                |[addr prt rdy n ping|r rdy n ping|r]];
  simpl.

(** ** The invariant *)

(** One player [p] changes, the others keep their record and their place in
    or out of the queue. *)
Lemma Inv_update g g' p :
  Inv g →
  NoDup (queue g') →
  (∀ q, q ≠ p → (q ∈ queue g' ↔ q ∈ queue g)) →
  (∀ q, q ≠ p → players g' !! q = players g !! q) →
  (p ∈ queue g' → is_Some (players g' !! p)) →
  (∀ pl', players g' !! p = Some pl' →
     player_ok g' p pl' ∧ ∀ pl, players g !! p = Some pl → onDrop pl ≤ onDrop pl') →
  (is_Some (players g !! p) → is_Some (players g' !! p)) →
  (∀ s ss', streams g' !! s = Some ss' →
     (∃ ss, streams g !! s = Some ss ∧ owner ss = owner ss') ∨
     (∃ pl', players g' !! owner ss' = Some pl' ∧ 0 < onDrop pl')) →
  Inv g'.
Proof.
  intros [Hnd Hq Hp Hs] Hnd' Hmem Hlook Hpq Hpl Hsome Hstr.
  split; [exact Hnd'| | |].
  - intros q Hin. destruct (decide (q = p)) as [->|Hne]; [auto|].
    rewrite Hlook by done. apply Hq. by apply Hmem.
  - intros q pl Hl. destruct (decide (q = p)) as [->|Hne].
    + by apply Hpl.
    + rewrite Hlook in Hl by done. destruct (Hp q pl Hl) as [H1 H2 H3].
      split; [|intros; apply Hmem; auto|exact H3].
      intros Hin. apply H1. by apply Hmem.
  - intros s ss' Hl. destruct (Hstr s ss' Hl) as [(ss & Hss & Ho)|H]; [|exact H].
    destruct (Hs s ss Hss) as (pl & Hpl' & Hd). rewrite Ho in Hpl'.
    destruct (decide (owner ss' = p)) as [Heq|Hne].
    + rewrite Heq in *. destruct Hsome as [pl' Hpl'']; [eauto|].
      exists pl'. split; [exact Hpl''|].
      destruct (Hpl pl' Hpl'') as [_ Hle]. specialize (Hle pl Hpl'). lia.
    + exists pl. by rewrite Hlook.
Qed.

Lemma Inv_initial dbg : Inv (initial dbg).
Proof.
  split; simpl.
  - apply NoDup_nil_2.
  - intros p Hp. inversion Hp.
  - intros p pl H. discriminate.
  - intros s ss H. discriminate.
Qed.

(** Handlers that write only the stores of pool records or the pool. *)
Lemma Inv_frame g g' :
  queue g' = queue g → players g' = players g →
  (∀ s ss', streams g' !! s = Some ss' →
     ∃ ss, streams g !! s = Some ss ∧ owner ss = owner ss') →
  Inv g → Inv g'.
Proof.
  intros Hq Hp Hs HI. apply (Inv_update g g' 0 HI).
  - rewrite Hq. apply HI.
  - intros q _. by rewrite Hq.
  - intros q _. by rewrite Hp.
  - rewrite Hq, Hp. apply HI.
  - rewrite Hp. intros pl' Hl. split.
    + destruct (inv_player g HI 0 pl' Hl) as [H1 H2 H3].
      split; rewrite ?Hq; assumption.
    + intros pl Hl'. rewrite Hl in Hl'. injection Hl' as ->. lia.
  - by rewrite Hp.
  - intros s ss' Hl. left. by apply Hs.
Qed.

Lemma update_stream_Inv s f g :
  (∀ ss, owner (f ss) = owner ss) → Inv g → Inv (update_stream s f g).
Proof.
  intros Hf. apply Inv_frame; [reflexivity..|].
  intros s' ss' Hl. simpl in Hl. rewrite list_lookup_alter in Hl.
  destruct (decide (s = s')) as [->|]; [|eauto].
  destruct (streams g !! s') as [ss|]; [|discriminate].
  injection Hl as <-. eauto.
Qed.

Lemma update_worker_Inv r f g : Inv g → Inv (update_worker r f g).
Proof. apply Inv_frame; [reflexivity..|]. intros s ss' Hl. eauto. Qed.

(** A change of one player's record that keeps its stream and listeners,
    opens no socket and closes none. *)
Lemma update_player_Inv p f g :
  (∀ pl, stream (f pl) = stream pl ∧ onDrop (f pl) = onDrop pl ∧
         onDisconnect (f pl) = onDisconnect pl ∧
         (readyState (ws (f pl)) = OPEN → readyState (ws pl) = OPEN) ∧
         (readyState (ws pl) ≠ CLOSED → readyState (ws (f pl)) ≠ CLOSED)) →
  Inv g → Inv (update_player p f g).
Proof.
  intros Hf HI. apply (Inv_update g _ p HI); simpl.
  - apply HI.
  - tauto.
  - intros q Hq. by apply list_lookup_alter_ne.
  - intros Hin. rewrite list_lookup_alter_eq.
    destruct (inv_queue g HI p Hin) as [pl ->]. by eexists.
  - intros pl' Hl. rewrite list_lookup_alter_eq in Hl.
    destruct (players g !! p) as [pl|] eqn:Hp; [|discriminate].
    injection Hl as <-. destruct (Hf pl) as (H1 & H2 & H3 & H4 & H5).
    destruct (inv_player g HI p pl Hp) as [K1 K2 K3]. split.
    + split.
      * intros Hin. destruct (K1 Hin). rewrite H1. auto.
      * rewrite H1. auto.
      * by rewrite H3.
    + intros pl0 [= <-]. lia.
  - rewrite list_lookup_alter_eq. intros [pl ->]. by eexists.
  - intros s ss' Hl. left. eauto.
Qed.

Lemma assigned_fields g server pl :
  stream (assigned g server pl) = Some (length (streams g)) ∧
  onDrop (assigned g server pl) = S (onDrop pl) ∧
  onDisconnect (assigned g server pl) = onDisconnect pl ++ [FreeServer server] ∧
  readyState (ws (assigned g server pl)) = readyState (ws pl) ∧
  alive (ws (assigned g server pl)) = alive (ws pl).
Proof.
  unfold assigned.
  destruct (alter (set_allocated true) server (workers g) !! server); simpl; auto.
Qed.

Lemma deletes_app ls ls' : deletes (ls ++ ls') = deletes ls || deletes ls'.
Proof. apply existsb_app. Qed.

Lemma client_open_Some g p :
  client_open g p = true ↔
  ∃ pl, players g !! p = Some pl ∧ readyState (ws pl) = OPEN.
Proof.
  unfold client_open. destruct (players g !! p) as [pl|].
  - split.
    + intros H. exists pl. split; [reflexivity|]. by destruct (readyState (ws pl)).
    + intros (pl' & [= <-] & ->). reflexivity.
  - split; [discriminate|]. intros (pl' & H & _). discriminate.
Qed.

Lemma assignPlayer_Inv p server g :
  assignPlayer_throws p server g = false → Inv g → Inv (assignPlayer p server g).
Proof.
  intros Hret HI.
  destruct (assignPlayer_returns p server g Hret) as [Hopen|[Hopen Ht]]; cycle 1.
  - rewrite assignPlayer_open by done.
    apply client_open_Some in Hopen as (pl & Hp & Hrs).
    destruct (assigned_fields g server pl) as (F1 & F2 & F3 & F4 & _).
    apply (Inv_update g _ p HI); simpl.
    + apply NoDup_queue_delete, HI.
    + intros q Hq. rewrite elem_of_queue_delete. tauto.
    + intros q Hq. by apply list_lookup_alter_ne.
    + rewrite elem_of_queue_delete. tauto.
    + intros pl' Hl. rewrite list_lookup_alter_eq, Hp in Hl. injection Hl as <-.
      split.
      * split; simpl.
        -- rewrite elem_of_queue_delete. tauto.
        -- rewrite F1. discriminate.
        -- rewrite F3, deletes_app. by rewrite (ok_listener _ _ _ (inv_player g HI p pl Hp)).
      * intros pl0 Hl0. rewrite Hp in Hl0. injection Hl0 as <-. lia.
    + rewrite list_lookup_alter_eq, Hp. by eexists.
    + intros s ss' Hl. apply lookup_app_Some in Hl as [Hl|[_ Hl]]; [left; eauto|].
      right. apply list_lookup_singleton_Some in Hl as [_ <-]. simpl.
      exists (assigned g server pl). rewrite list_lookup_alter_eq, Hp.
      split; [reflexivity|lia].
  - rewrite assignPlayer_closed by done.
    apply (Inv_update g _ p HI); simpl.
    + apply NoDup_queue_delete, HI.
    + intros q Hq. rewrite elem_of_queue_delete. tauto.
    + reflexivity.
    + rewrite elem_of_queue_delete. tauto.
    + intros pl' Hl. split; [|intros pl0 Hl0; rewrite Hl in Hl0; injection Hl0 as ->; lia].
      split; simpl.
      * rewrite elem_of_queue_delete. tauto.
      * intros Hrs. assert (client_open g p = true) as Ho; [|congruence].
        apply client_open_Some. eauto.
      * apply (inv_player g HI p pl' Hl).
    + tauto.
    + intros s ss' Hl. left. eauto.
Qed.

Lemma dequeue_Inv clk i waiting g :
  dequeue_throws clk i waiting g = false → Inv g → Inv (dequeue clk i waiting g).
Proof.
  revert i g. induction waiting as [|p rest IH]; intros i g Hret HI; simpl in *;
    [exact HI|].
  destruct (nextAvailable (clk i) g) as [server|]; [|exact HI].
  destruct (assignPlayer_throws p server g) eqn:Ht; [discriminate|].
  apply IH; [exact Hret|]. by apply assignPlayer_Inv.
Qed.

Lemma connectWaitingPlayers_Inv clk g :
  connectWaitingPlayers_throws clk g = false →
  Inv g → Inv (connectWaitingPlayers clk g).
Proof.
  unfold connectWaitingPlayers, connectWaitingPlayers_throws. intros Hret HI.
  destruct (length (queue g)); [exact HI|]. by apply dequeue_Inv.
Qed.

Lemma onClientConnection_Inv clk g :
  onClientConnection_throws clk g = false →
  Inv g → Inv (onClientConnection clk g).
Proof.
  intros Hret HI. unfold onClientConnection.
  apply connectWaitingPlayers_Inv; [exact Hret|].
  assert (length (players g) ∉ queue g) as Hfresh.
  { intros Hin. destruct (inv_queue g HI _ Hin) as [pl Hpl].
    apply lookup_lt_Some in Hpl. lia. }
  apply (Inv_update g _ (length (players g)) HI); simpl.
  - apply NoDup_queue_add, HI.
  - intros q Hq. rewrite elem_of_queue_add. tauto.
  - intros q Hq. destruct (decide (q < length (players g))).
    + by apply lookup_app_l.
    + rewrite !lookup_ge_None_2; [reflexivity|lia|rewrite length_app; simpl; lia].
  - intros _. rewrite lookup_app_r, Nat.sub_diag by lia. by eexists.
  - intros pl' Hl. rewrite lookup_app_r, Nat.sub_diag in Hl by lia.
    injection Hl as <-. split.
    + split; simpl; [split; [reflexivity|discriminate]| |reflexivity].
      intros _ _. apply elem_of_queue_add. by left.
    + intros pl Hl. apply lookup_lt_Some in Hl. lia.
  - intros [pl Hl]. apply lookup_lt_Some in Hl. lia.
  - intros s ss' Hl. left. eauto.
Qed.

Lemma client_live_Some g p :
  client_live g p = true ↔
  ∃ pl, players g !! p = Some pl ∧ readyState (ws pl) ≠ CLOSED.
Proof.
  unfold client_live. destruct (players g !! p) as [pl|].
  - split.
    + intros H. exists pl. split; [reflexivity|]. by destruct (readyState (ws pl)).
    + intros (pl' & [= <-] & H). by destruct (readyState (ws pl)).
  - split; [discriminate|]. intros (pl' & H & _). discriminate.
Qed.

Lemma stream_live_Some g s ss :
  stream_live g s = Some ss ↔
  streams g !! s = Some ss ∧ streamState ss ≠ CLOSED.
Proof.
  unfold stream_live. destruct (streams g !! s) as [ss'|].
  - destruct (streamState ss') eqn:Hs; simpl; split;
      try (intros [= <-]; split; [reflexivity|congruence]);
      try (intros [[= <-] H]; congruence); discriminate.
  - split; [discriminate|]. intros [H _]. discriminate.
Qed.

Lemma onClientClose_Inv p g :
  client_live g p = true → Inv g → Inv (onClientClose p g).
Proof.
  intros Hlive HI. apply client_live_Some in Hlive as (pl & Hp & _).
  rewrite (onClientClose_eq p pl) by done.
  destruct (inv_player g HI p pl Hp) as [K1 K2 K3]. rewrite K3.
  apply (Inv_update g _ p HI); simpl.
  - apply NoDup_queue_delete, HI.
  - intros q Hq. rewrite elem_of_queue_delete. tauto.
  - intros q Hq. by apply list_lookup_alter_ne.
  - rewrite elem_of_queue_delete. tauto.
  - intros pl' Hl. rewrite list_lookup_alter_eq, Hp in Hl. injection Hl as <-.
    split; [|intros pl0 Hl0; rewrite Hp in Hl0; injection Hl0 as <-; simpl; lia].
    split; simpl; [rewrite elem_of_queue_delete; tauto|discriminate|exact K3].
  - rewrite list_lookup_alter_eq, Hp. by eexists.
  - intros s ss' Hl. left. destruct (stream pl) as [s0|]; [|eauto].
    rewrite list_lookup_alter in Hl. destruct (decide (s0 = s)) as [->|]; [|eauto].
    destruct (streams g !! s) as [ss|]; [|discriminate].
    injection Hl as <-. eauto.
Qed.

Lemma elem_of_requeued g p q :
  q ∈ requeued g p ↔
  q ∈ queue g ∨ (q = p ∧ ∃ pl, players g !! p = Some pl ∧
                               readyState (ws pl) = OPEN ∧ 0 < onDrop pl).
Proof.
  unfold requeued. destruct (players g !! p) as [pl|] eqn:Hp.
  - destruct (isOpen (readyState (ws pl)) && (0 <? onDrop pl)%nat) eqn:Hc.
    + apply andb_true_iff in Hc as [Ho Hd]. apply Nat.ltb_lt in Hd.
      rewrite elem_of_queue_add. split; [|tauto].
      intros [->|]; [right|by left]. split; [reflexivity|].
      exists pl. split; [reflexivity|]. split; [|exact Hd]. by destruct (readyState (ws pl)).
    + split; [tauto|]. intros [|(_ & pl' & [= <-] & Ho & Hd)]; [done|].
      rewrite Ho in Hc. simpl in Hc. apply Nat.ltb_ge in Hc. lia.
  - split; [tauto|]. intros [|(_ & pl' & H & _)]; [done|discriminate].
Qed.

Lemma NoDup_requeued g p : NoDup (queue g) → NoDup (requeued g p).
Proof.
  intros H. unfold requeued. destruct (players g !! p) as [pl|]; [|exact H].
  destruct (_ && _); [by apply NoDup_queue_add|exact H].
Qed.

Lemma handleStreamerClose_Inv p g :
  (∀ pl, players g !! p = Some pl → 0 < onDrop pl) →
  Inv g → Inv (handleStreamerClose p g).
Proof.
  intros Hdrop HI. rewrite handleStreamerClose_eq.
  apply (Inv_update g _ p HI); simpl.
  - apply NoDup_requeued, HI.
  - intros q Hq. rewrite elem_of_requeued. tauto.
  - intros q Hq. by apply list_lookup_alter_ne.
  - rewrite elem_of_requeued, list_lookup_alter_eq.
    intros [Hin|(_ & pl & -> & _)]; [|by eexists].
    destruct (inv_queue g HI p Hin) as [pl ->]. by eexists.
  - intros pl' Hl. rewrite list_lookup_alter_eq in Hl.
    destruct (players g !! p) as [pl|] eqn:Hp; [|discriminate].
    injection Hl as <-.
    split; [|intros pl0 [= <-]; simpl; lia].
    destruct (inv_player g HI p pl Hp) as [K1 K2 K3].
    split; simpl; [| |exact K3].
    + rewrite elem_of_requeued. intros [Hin|(_ & pl0 & Hl0 & Ho & _)].
      * split; [reflexivity|]. by apply K1.
      * rewrite Hp in Hl0. injection Hl0 as <-. split; [reflexivity|congruence].
    + intros Ho _. apply elem_of_requeued. right. split; [reflexivity|].
      exists pl. rewrite Hp. auto.
  - rewrite list_lookup_alter_eq. intros [pl ->]. by eexists.
  - intros s ss' Hl. left. eauto.
Qed.

Lemma onStreamClose_Inv s ss g :
  streams g !! s = Some ss → Inv g → Inv (onStreamClose s ss g).
Proof.
  intros Hs HI. unfold onStreamClose. apply handleStreamerClose_Inv.
  - intros pl Hp. simpl in Hp.
    destruct (inv_stream g HI s ss Hs) as (pl' & Hp' & Hd). congruence.
  - by apply update_stream_Inv.
Qed.

Theorem step_Inv g e : throws g e = false → Inv g → Inv (step g e).
Proof.
  intros Hret HI. by_event e.
  - by apply onClientConnection_Inv.
  - by apply connectWaitingPlayers_Inv.
  - destruct (client_live g p); [|exact HI].
    apply update_player_Inv; [|exact HI]. intros pl; simpl; tauto.
  - destruct (client_live g p); [|exact HI].
    apply update_player_Inv; [|exact HI]. intros pl. unfold _clientHeartbeat.
    destruct (alive (ws pl)); simpl; repeat split; auto.
    + by destruct (readyState (ws pl)).
    + by destruct (readyState (ws pl)).
  - destruct (client_live g p); [|exact HI]. unfold onClientMessage.
    destruct (players g !! p) as [pl|]; [|exact HI].
    destruct (stream_open g (stream pl)); [|exact HI].
    destruct (stream pl); [|exact HI]. by apply update_stream_Inv.
  - destruct (client_open g p); [|exact HI].
    apply update_player_Inv; [|exact HI]. intros pl; simpl.
    repeat split; auto; discriminate.
  - destruct (client_live g p) eqn:Hl; [|exact HI]. by apply onClientClose_Inv.
  - destruct (stream_live g s) as [ss|]; [|exact HI].
    destruct (streamState ss); try exact HI. by apply update_stream_Inv.
  - destruct (stream_live g s) as [ss|]; [|exact HI]. unfold onStreamerMessage.
    destruct (client_open g (owner ss)); [|exact HI].
    apply update_player_Inv; [|exact HI]. intros pl; simpl; tauto.
  - destruct (stream_live g s) as [ss|]; [|exact HI]. by apply update_worker_Inv.
  - destruct (stream_live g s) as [ss|] eqn:Hs; [|exact HI].
    apply stream_live_Some in Hs as [Hs _]. by apply onStreamClose_Inv.
  - revert HI. apply Inv_frame; [reflexivity..|]. eauto.
  - by apply update_worker_Inv.
  - revert HI. apply Inv_frame; [reflexivity..|]. eauto.
Qed.

Lemma reachable_Inv g : reachable g → Inv g.
Proof.
  induction 1 as [dbg|g e _ IH Hret]; [apply Inv_initial|by apply step_Inv].
Qed.

Lemma reachable_run g es :
  reachable g → run_throws g es = false → reachable (run g es).
Proof.
  revert g. induction es as [|e es IH]; intros g Hg Hret; [exact Hg|].
  simpl in Hret. apply orb_false_iff in Hret as [He Hes].
  apply IH; [by constructor|exact Hes].
Qed.

(** ** Draining the queue *)

Lemma queue_assignPlayer p server g :
  queue (assignPlayer p server g) = queue_delete p (queue g).
Proof. by assign_cases p server g Ho Ht. Qed.

(** [assignPlayer] opens a socket when the client socket is open and
    [connectStreamer] returns. *)
Lemma streams_assignPlayer p server g :
  streams (assignPlayer p server g) =
  streams g ++ (if client_open g p && negb (connectStreamer_throws server g)
                then [new_stream p server] else []).
Proof. assign_cases p server g Ho Ht; simpl; by rewrite ?app_nil_r. Qed.

Lemma streams_assignPlayer_returns p server g :
  assignPlayer_throws p server g = false →
  streams (assignPlayer p server g) =
  streams g ++ (if client_open g p then [new_stream p server] else []).
Proof.
  intros Hret. rewrite streams_assignPlayer.
  by destruct (assignPlayer_returns p server g Hret) as [->|[-> ->]].
Qed.

Lemma players_assignPlayer_ne p server g q :
  q ≠ p → players (assignPlayer p server g) !! q = players g !! q.
Proof.
  intros Hq. assign_cases p server g Ho Ht; simpl;
    [by apply list_lookup_alter_ne..|reflexivity].
Qed.

Lemma workers_assignPlayer_ne p server g r :
  r ≠ server → workers (assignPlayer p server g) !! r = workers g !! r.
Proof.
  intros Hr. assign_cases p server g Ho Ht; simpl;
    [by apply list_lookup_alter_ne..|reflexivity].
Qed.

Lemma client_open_assignPlayer p server g q :
  client_open (assignPlayer p server g) q = client_open g q.
Proof.
  assign_cases p server g Ho Ht; [| |reflexivity];
    unfold client_open at 1; simpl;
    (rewrite list_lookup_alter; destruct (decide (p = q)) as [->|]; [|reflexivity]);
    unfold client_open; (destruct (players g !! q) as [pl|]; [|reflexivity]); simpl;
    [reflexivity|].
  by destruct (assigned_fields g server pl) as (_ & _ & _ & -> & _).
Qed.

(** The loop serves a prefix of the waiting players, in order; when it
    returns it has stopped at the end of the queue or at the first player
    for whom the scan finds no streamer, and has opened a socket for each
    player served whose client socket is open. *)
Lemma dequeue_fifo clk waiting : ∀ i g,
  queue g = waiting → NoDup waiting →
  ∃ served,
    waiting = served ++ queue (dequeue clk i waiting g) ∧
    (∀ p, p ∉ served → players (dequeue clk i waiting g) !! p = players g !! p) ∧
    (dequeue_throws clk i waiting g = false →
       (queue (dequeue clk i waiting g) = [] ∨
        nextAvailable (clk (i + length served)) (dequeue clk i waiting g) = None) ∧
       (∃ news, streams (dequeue clk i waiting g) = streams g ++ news ∧
                owner <$> news = List.filter (client_open g) served)).
Proof.
  induction waiting as [|p rest IH]; intros i g Hq Hnd; simpl.
  - exists []. rewrite Hq. split; [done|]. split; [done|]. intros _.
    split; [by left|]. exists []. by rewrite app_nil_r.
  - destruct (nextAvailable (clk i) g) as [server|] eqn:Hnext.
    + assert (queue (assignPlayer p server g) = rest) as Hrest
        by (rewrite queue_assignPlayer, Hq; by apply queue_delete_head).
      destruct (assignPlayer_throws p server g) eqn:Ht.
      * exists [p]. rewrite Hrest. split; [done|]. split; [|discriminate].
        intros q Hq'. apply not_elem_of_cons in Hq' as [Hne _].
        by apply players_assignPlayer_ne.
      * destruct (IH (S i) (assignPlayer p server g) Hrest)
          as (served & H1 & H5 & Hret).
        { by apply NoDup_cons in Hnd as [_ ?]. }
        exists (p :: served). split; [simpl; by rewrite <- H1|]. split.
        -- intros q Hq'. apply not_elem_of_cons in Hq' as [Hne Hq'].
           rewrite H5 by done. by apply players_assignPlayer_ne.
        -- intros Hr. destruct (Hret Hr) as (H2 & news & H3 & H4).
           split; [simpl; by rewrite Nat.add_succ_r|].
           rewrite streams_assignPlayer_returns in H3 by done.
           exists ((if client_open g p then [new_stream p server] else []) ++ news).
           split; [by rewrite H3, app_assoc|].
           rewrite fmap_app, H4. simpl.
           rewrite (List.filter_ext _ (client_open g))
             by (intros; apply client_open_assignPlayer).
           by destruct (client_open g p).
    + exists []. simpl. rewrite Hq, Nat.add_0_r. split; [done|]. split; [done|].
      intros _. split; [by right|]. exists []. by rewrite app_nil_r.
Qed.

Lemma available_allocated dbg liveTime server :
  allocated server = true → available dbg liveTime server = false.
Proof.
  intros H. unfold available. rewrite H. simpl.
  by rewrite andb_false_r.
Qed.

Lemma available_ref_after_allocate dbg liveTime heap w r :
  available_ref dbg liveTime (alter (set_allocated true) w heap) r = true →
  available_ref dbg liveTime heap r = true ∧ r ≠ w.
Proof.
  unfold available_ref. rewrite list_lookup_alter.
  destruct (decide (w = r)) as [->|Hne]; [|auto].
  destruct (heap !! r) as [server|]; simpl; [|discriminate].
  by rewrite available_allocated.
Qed.

(** What [assignPlayer] does to the pool for a player whose client socket
    is open, whether [connectStreamer] returns or throws. *)
Lemma assignPlayer_open_pool p server g :
  client_open g p = true →
  debug (assignPlayer p server g) = debug g ∧
  pool (assignPlayer p server g) = pool g ∧
  workers (assignPlayer p server g) = alter (set_allocated true) server (workers g).
Proof. intros Ho. assign_cases p server g Ho' Ht; [done..|discriminate]. Qed.

(** Once the only eligible streamer is allocated the scan finds nothing. *)
Lemma eligible_after_assign now g p w :
  client_open g p = true → eligible now g = [w] →
  eligible now (assignPlayer p w g) = [].
Proof.
  intros Ho He. destruct (assignPlayer_open_pool p w g Ho) as (Hd & Hp & Hws).
  unfold eligible in *. rewrite Hd, Hp, Hws.
  destruct (List.filter _ (pool g)) as [|x xs] eqn:E in |- *; [reflexivity|].
  exfalso.
  assert (In x (List.filter
            (available_ref (debug g) (now - 60000)
               (alter (set_allocated true) w (workers g))) (pool g))) as Hin
    by (rewrite E; left; reflexivity).
  apply filter_In in Hin as [Hin Hx].
  apply available_ref_after_allocate in Hx as [Hx Hne].
  assert (In x [w]) as Hw by (rewrite <- He; apply filter_In; auto).
  destruct Hw as [->|[]]. done.
Qed.

(** C3, as the code has it. A drain serves the waiting players in the order
    of their insertion: it takes a prefix [served] off the queue and leaves
    the rest as it was and in its order, and the players it did not reach
    keep their records. When the drain returns, it has stopped either at the
    end of the queue or at the first player for whom the scan found no
    streamer, and the streamer sockets it opened are those of the served
    players whose client socket is open, in the same order. (It does not
    return when the socket constructor throws on the address and port of a
    streamer.) With S1, S2, S3 queued in that order, the client socket of S1
    open and exactly one eligible streamer, whose address and port form a
    URL, one drain returns, connects S1 to that streamer and leaves S2, S3
    queued in that order and untouched. If address and port of that
    streamer form no URL, the drain throws instead: S1 is off the queue, no
    socket was opened, and S2, S3 are queued in that order and untouched. *)
Theorem drain_fifo clk g :
  NoDup (queue g) →
  (∃ served,
     queue g = served ++ queue (connectWaitingPlayers clk g) ∧
     (∀ p, p ∉ served → players (connectWaitingPlayers clk g) !! p = players g !! p) ∧
     (connectWaitingPlayers_throws clk g = false →
        (queue (connectWaitingPlayers clk g) = [] ∨
         nextAvailable (clk (length served)) (connectWaitingPlayers clk g) = None) ∧
        (∃ news, streams (connectWaitingPlayers clk g) = streams g ++ news ∧
                 owner <$> news = List.filter (client_open g) served))) ∧
  (∀ s1 s2 s3 w rec,
     queue g = [s1; s2; s3] →
     client_open g s1 = true →
     (∀ i, eligible (clk i) g = [w]) →
     workers g !! w = Some rec →
     valid_url (address rec) (port rec) = true →
     connectWaitingPlayers_throws clk g = false ∧
     queue (connectWaitingPlayers clk g) = [s2; s3] ∧
     (∃ pl, players (connectWaitingPlayers clk g) !! s1 = Some pl ∧
            worker_of (connectWaitingPlayers clk g) pl = Some w) ∧
     players (connectWaitingPlayers clk g) !! s2 = players g !! s2 ∧
     players (connectWaitingPlayers clk g) !! s3 = players g !! s3) ∧
  (∀ s1 s2 s3 w rec,
     queue g = [s1; s2; s3] →
     client_open g s1 = true →
     (∀ i, eligible (clk i) g = [w]) →
     workers g !! w = Some rec →
     valid_url (address rec) (port rec) = false →
     connectWaitingPlayers_throws clk g = true ∧
     queue (connectWaitingPlayers clk g) = [s2; s3] ∧
     streams (connectWaitingPlayers clk g) = streams g ∧
     players (connectWaitingPlayers clk g) !! s2 = players g !! s2 ∧
     players (connectWaitingPlayers clk g) !! s3 = players g !! s3).
Proof.
  intros Hnd. split; [|split].
  - unfold connectWaitingPlayers, connectWaitingPlayers_throws.
    destruct (length (queue g)) eqn:Hlen.
    + apply nil_length_inv in Hlen. exists []. rewrite Hlen. simpl.
      split; [done|]. split; [done|]. intros _. split; [by left|].
      exists []. by rewrite app_nil_r.
    + apply (dequeue_fifo clk (queue g) 0 g eq_refl Hnd).
  - intros s1 s2 s3 w rec Hq Ho He Hrec Hurl.
    assert (connectStreamer_throws w g = false) as Hcs
      by (unfold connectStreamer_throws; by rewrite Hrec, Hurl).
    assert (assignPlayer_throws s1 w g = false) as Hret
      by (rewrite assignPlayer_throws_eq, Hcs; apply andb_false_r).
    unfold connectWaitingPlayers, connectWaitingPlayers_throws. rewrite Hq. simpl.
    rewrite nextAvailable_head, He. simpl. rewrite Hret.
    rewrite nextAvailable_head, eligible_after_assign by auto. simpl.
    split; [reflexivity|].
    rewrite Hq in Hnd.
    assert (s2 ≠ s1 ∧ s3 ≠ s1) as [H2 H3].
    { apply NoDup_cons in Hnd as [Hn _].
      split; intros ->; apply Hn; [left|right; left]. }
    split; [rewrite queue_assignPlayer, Hq; by apply queue_delete_head|].
    split; [|split; by apply players_assignPlayer_ne].
    apply client_open_Some in Ho as Ho'. destruct Ho' as (pl & Hpl & _).
    exists (assigned g w pl). rewrite assignPlayer_open by done. simpl.
    rewrite list_lookup_alter_eq, Hpl. split; [reflexivity|].
    unfold worker_of. destruct (assigned_fields g w pl) as (-> & _). simpl.
    rewrite lookup_app_r, Nat.sub_diag by lia. reflexivity.
  - intros s1 s2 s3 w rec Hq Ho He Hrec Hurl.
    assert (connectStreamer_throws w g = true) as Hcs
      by (unfold connectStreamer_throws; by rewrite Hrec, Hurl).
    assert (assignPlayer_throws s1 w g = true) as Hthrows
      by (by rewrite assignPlayer_throws_eq, Ho, Hcs).
    unfold connectWaitingPlayers, connectWaitingPlayers_throws. rewrite Hq. simpl.
    rewrite nextAvailable_head, He. simpl. rewrite Hthrows.
    split; [reflexivity|].
    rewrite Hq in Hnd.
    assert (s2 ≠ s1 ∧ s3 ≠ s1) as [H2 H3].
    { apply NoDup_cons in Hnd as [Hn _].
      split; intros ->; apply Hn; [left|right; left]. }
    split; [rewrite queue_assignPlayer, Hq; by apply queue_delete_head|].
    split; [by rewrite assignPlayer_thrown|].
    split; by apply players_assignPlayer_ne.
Qed.

(** ** Streamer sockets and the store of records *)

Lemma Backed_step g g' :
  Backed g →
  length (workers g) ≤ length (workers g') →
  (∀ s ss', streams g' !! s = Some ss' →
     (∃ ss, streams g !! s = Some ss ∧ backend ss = backend ss') ∨
     backend ss' < length (workers g')) →
  Backed g'.
Proof.
  intros HB Hlen Hs s ss' Hl. destruct (Hs s ss' Hl) as [(ss & Hss & Hb)|H]; [|exact H].
  rewrite <- Hb. specialize (HB s ss Hss). lia.
Qed.

Lemma lookup_alter_backend (f : StreamSocket → StreamSocket)
    (l : list StreamSocket) (s s' : nat) ss' :
  (∀ ss, backend (f ss) = backend ss) →
  alter f s l !! s' = Some ss' →
  ∃ ss, l !! s' = Some ss ∧ backend ss = backend ss'.
Proof.
  intros Hf Hl. rewrite list_lookup_alter in Hl.
  destruct (decide (s = s')) as [->|]; [|eauto].
  destruct (l !! s') as [ss|]; [|discriminate]. injection Hl as <-. eauto.
Qed.

Lemma update_stream_Backed s f g :
  (∀ ss, backend (f ss) = backend ss) → Backed g → Backed (update_stream s f g).
Proof.
  intros Hf HB. apply (Backed_step g _ HB); [reflexivity|].
  intros s' ss' Hl. left. by apply (lookup_alter_backend f _ s).
Qed.

Lemma update_player_Backed p f g : Backed g → Backed (update_player p f g).
Proof. intros HB. apply (Backed_step g _ HB); [reflexivity|]. eauto. Qed.

Lemma update_worker_Backed r f g : Backed g → Backed (update_worker r f g).
Proof.
  intros HB. apply (Backed_step g _ HB); simpl; [by rewrite length_alter|]. eauto.
Qed.

Lemma length_free_listeners ls w : length (fold_left free_listener ls w) = length w.
Proof.
  revert w. induction ls as [|l ls IH]; intros w; simpl; [reflexivity|].
  rewrite IH. destruct l; simpl; [reflexivity|apply length_alter].
Qed.

Lemma assignPlayer_Backed p server g :
  server < length (workers g) → Backed g → Backed (assignPlayer p server g).
Proof.
  intros Hserver HB. assign_cases p server g Ho Ht.
  - apply (Backed_step g _ HB); simpl; [by rewrite length_alter|]. eauto.
  - apply (Backed_step g _ HB); simpl; [by rewrite length_alter|].
    intros s ss' Hl. apply lookup_app_Some in Hl as [Hl|[_ Hl]]; [left; eauto|].
    right. apply list_lookup_singleton_Some in Hl as [_ <-]. simpl.
    by rewrite length_alter.
  - apply (Backed_step g _ HB); [reflexivity|]. eauto.
Qed.

Lemma dequeue_Backed clk i waiting g : Backed g → Backed (dequeue clk i waiting g).
Proof.
  revert i g. induction waiting as [|p rest IH]; intros i g HB; simpl; [exact HB|].
  destruct (nextAvailable (clk i) g) as [server|] eqn:Hn; [|exact HB].
  assert (Backed (assignPlayer p server g)) as HB'.
  { apply assignPlayer_Backed; [|exact HB].
    apply scan_Some in Hn as (_ & rec & Hrec & _). by apply lookup_lt_Some in Hrec. }
  destruct (assignPlayer_throws p server g); [exact HB'|by apply IH].
Qed.

Lemma connectWaitingPlayers_Backed clk g :
  Backed g → Backed (connectWaitingPlayers clk g).
Proof.
  intros HB. unfold connectWaitingPlayers.
  destruct (length (queue g)); [exact HB|]. by apply dequeue_Backed.
Qed.

Lemma step_Backed g e : Backed g → Backed (step g e).
Proof.
  intros HB. by_event e.
  - apply connectWaitingPlayers_Backed.
    apply (Backed_step g _ HB); [reflexivity|]. eauto.
  - by apply connectWaitingPlayers_Backed.
  - destruct (client_live g p); [by apply update_player_Backed|exact HB].
  - destruct (client_live g p); [by apply update_player_Backed|exact HB].
  - destruct (client_live g p); [|exact HB]. unfold onClientMessage.
    destruct (players g !! p) as [pl|]; [|exact HB].
    destruct (stream_open g (stream pl)); [|exact HB].
    destruct (stream pl); [|exact HB]. by apply update_stream_Backed.
  - destruct (client_open g p); [by apply update_player_Backed|exact HB].
  - destruct (client_live g p) eqn:Hl; [|exact HB].
    apply client_live_Some in Hl as (pl & Hp & _).
    rewrite (onClientClose_eq p pl) by done.
    apply (Backed_step g _ HB); simpl; [by rewrite length_free_listeners|].
    intros s ss' Hl. left. destruct (stream pl) as [s0|]; [|eauto].
    by apply (lookup_alter_backend closing_stream _ s0).
  - destruct (stream_live g s) as [ss|]; [|exact HB].
    destruct (streamState ss); try exact HB. by apply update_stream_Backed.
  - destruct (stream_live g s) as [ss|]; [|exact HB]. unfold onStreamerMessage.
    destruct (client_open g (owner ss)); [by apply update_player_Backed|exact HB].
  - destruct (stream_live g s) as [ss|]; [by apply update_worker_Backed|exact HB].
  - destruct (stream_live g s) as [ss|]; [|exact HB].
    unfold onStreamClose. rewrite handleStreamerClose_eq.
    apply (Backed_step g _ HB); simpl; [reflexivity|].
    intros s' ss' Hl. left. by apply (lookup_alter_backend (set_streamState CLOSED) _ s).
  - apply (Backed_step g _ HB); simpl; [rewrite length_app; lia|]. eauto.
  - by apply update_worker_Backed.
  - apply (Backed_step g _ HB); [reflexivity|]. eauto.
Qed.

Lemma reachable_Backed g : reachable g → Backed g.
Proof.
  induction 1 as [dbg|g e _ IH _]; [|by apply step_Backed].
  intros s ss H. discriminate.
Qed.

(** ** The queue and the players *)

(** C5, as the code has it. In every reachable state a queued session is a
    player without worker leg whose client socket has not been closed, and a
    session whose client socket is open is queued exactly when it has no
    worker leg. (A session whose client socket is closing may be neither
    queued nor connected: [assignPlayer] takes it out of the queue and
    connects nothing.) *)
Theorem queue_membership g :
  reachable g →
  (∀ p, p ∈ queue g →
     ∃ pl, players g !! p = Some pl ∧ stream pl = None ∧
           readyState (ws pl) ≠ CLOSED) ∧
  (∀ p pl, players g !! p = Some pl → readyState (ws pl) = OPEN →
     (p ∈ queue g ↔ stream pl = None)).
Proof.
  intros Hr. apply reachable_Inv in Hr as HI. split.
  - intros p Hin. destruct (inv_queue g HI p Hin) as [pl Hp].
    exists pl. split; [exact Hp|]. by apply (inv_player g HI p pl Hp).
  - intros p pl Hp Ho. destruct (inv_player g HI p pl Hp) as [K1 K2 _].
    split; [intros Hin; by apply K1|auto].
Qed.

(** ** The streamer drops *)



(** ** Allocation *)

Lemma nextAvailable_unallocated now g r :
  nextAvailable now g = Some r →
  (allocated <$> workers g !! r) = Some false.
Proof.
  intros H. apply scan_Some in H as (_ & server & -> & Ha).
  apply available_true in Ha as (_ & Hal & _). simpl. by rewrite Hal.
Qed.

Lemma dequeue_fifo_streams clk waiting : ∀ i g,
  ∃ news, streams (dequeue clk i waiting g) = streams g ++ news.
Proof.
  induction waiting as [|p rest IH]; intros i g; simpl.
  - exists []. by rewrite app_nil_r.
  - destruct (nextAvailable (clk i) g) as [server|].
    + destruct (assignPlayer_throws p server g).
      * rewrite streams_assignPlayer. by eexists.
      * destruct (IH (S i) (assignPlayer p server g)) as [news ->].
        rewrite streams_assignPlayer, <- app_assoc. by eexists.
    + exists []. by rewrite app_nil_r.
Qed.

(** A drain leaves an allocated streamer allocated and opens no socket to
    it. *)
Lemma assignPlayer_skips_allocated p server g r rec :
  server ≠ r → workers g !! r = Some rec →
  workers (assignPlayer p server g) !! r = Some rec ∧
  ∀ s ss, streams (assignPlayer p server g) !! s = Some ss →
          length (streams g) ≤ s → backend ss ≠ r.
Proof.
  intros Hne Hr. split; [by rewrite workers_assignPlayer_ne|].
  intros s ss Hs Hlen. rewrite streams_assignPlayer in Hs.
  destruct (client_open g p && negb (connectStreamer_throws server g)).
  - rewrite lookup_app_r in Hs by done.
    apply list_lookup_singleton_Some in Hs as [_ <-]. exact Hne.
  - rewrite app_nil_r in Hs. apply lookup_lt_Some in Hs. lia.
Qed.

Lemma dequeue_skips_allocated clk waiting r rec : ∀ i g,
  workers g !! r = Some rec → allocated rec = true →
  workers (dequeue clk i waiting g) !! r = Some rec ∧
  ∀ s ss, streams (dequeue clk i waiting g) !! s = Some ss →
          length (streams g) ≤ s → backend ss ≠ r.
Proof.
  induction waiting as [|p rest IH]; intros i g Hr Ha; simpl.
  - split; [exact Hr|]. intros s ss Hs Hlen.
    apply lookup_lt_Some in Hs. lia.
  - destruct (nextAvailable (clk i) g) as [server|] eqn:Hn.
    + assert (server ≠ r) as Hne.
      { intros ->. apply nextAvailable_unallocated in Hn.
        rewrite Hr in Hn. simpl in Hn. congruence. }
      destruct (assignPlayer_skips_allocated p server g r rec Hne Hr) as [A1 A2].
      destruct (assignPlayer_throws p server g); [by split|].
      destruct (IH (S i) (assignPlayer p server g) A1 Ha) as [H1 H2].
      split; [exact H1|]. intros s ss Hs Hlen.
      destruct (decide (length (streams (assignPlayer p server g)) ≤ s))
        as [Hle|Hgt]; [by apply (H2 s ss)|].
      apply (A2 s ss); [|exact Hlen].
      destruct (dequeue_fifo_streams clk rest (S i) (assignPlayer p server g))
        as [news Hnews].
      rewrite Hnews in Hs. by rewrite lookup_app_l in Hs by lia.
    + split; [exact Hr|]. intros s ss Hs Hlen.
      apply lookup_lt_Some in Hs. lia.
Qed.

Lemma connectWaitingPlayers_skips_allocated clk g r rec :
  workers g !! r = Some rec → allocated rec = true →
  workers (connectWaitingPlayers clk g) !! r = Some rec ∧
  ∀ s ss, streams (connectWaitingPlayers clk g) !! s = Some ss →
          length (streams g) ≤ s → backend ss ≠ r.
Proof.
  intros Hr Ha. unfold connectWaitingPlayers. destruct (length (queue g)).
  - split; [exact Hr|]. intros s ss Hs Hlen. apply lookup_lt_Some in Hs. lia.
  - by apply dequeue_skips_allocated.
Qed.

(** Only the two [freeServer] paths clear the flag: any event other than
    an ['error'] of a streamer socket or the ['close'] of a client socket
    leaves an allocated streamer allocated. *)
Lemma allocation_kept g e r rec :
  workers g !! r = Some rec → allocated rec = true →
  (∀ s, e ≠ StreamError s) → (∀ p, e ≠ ClientClose p) →
  ∃ rec', workers (step g e) !! r = Some rec' ∧ allocated rec' = true.
Proof.
  intros Hr Ha Herr Hclose.
  destruct e as [clk|clk|p|p|p msg|p|p|s|s msg|s|s|[addr prt rdy n ping|r' rdy n ping|r']];
    simpl.
  - exists rec. split; [|exact Ha]. unfold onClientConnection.
    by apply connectWaitingPlayers_skips_allocated.
  - exists rec. split; [|exact Ha]. by apply connectWaitingPlayers_skips_allocated.
  - exists rec. by destruct (client_live g p).
  - exists rec. by destruct (client_live g p).
  - exists rec. split; [|exact Ha]. destruct (client_live g p); [|exact Hr].
    unfold onClientMessage. destruct (players g !! p) as [pl|]; [|exact Hr].
    destruct (stream_open g (stream pl)); [|exact Hr]. by destruct (stream pl).
  - exists rec. by destruct (client_open g p).
  - by destruct (Hclose p).
  - exists rec. split; [|exact Ha]. destruct (stream_live g s) as [ss|]; [|exact Hr].
    by destruct (streamState ss).
  - exists rec. split; [|exact Ha]. destruct (stream_live g s) as [ss|]; [|exact Hr].
    unfold onStreamerMessage. by destruct (client_open g (owner ss)).
  - by destruct (Herr s).
  - exists rec. split; [|exact Ha]. destruct (stream_live g s) as [ss|]; [|exact Hr].
    unfold onStreamClose. by rewrite handleStreamerClose_eq.
  - exists rec. split; [by apply lookup_app_l_Some|exact Ha].
  - rewrite list_lookup_alter. destruct (decide (r' = r)) as [->|]; [|eauto].
    rewrite Hr. simpl. eauto.
  - eauto.
Qed.

(** ** Notices *)

Lemma notice_consistent pl d : consistent (PNotice (notice pl d)).
Proof. simpl. by destruct (stream pl). Qed.

Lemma sendNotice_sent d pl :
  sent (ws (sendNotice d pl)) = sent (ws pl) ++ [PNotice (notice pl d)].
Proof. reflexivity. Qed.

Lemma assigned_sent g server pl :
  ∃ extra, sent (ws (assigned g server pl)) = sent (ws pl) ++ extra ∧
           Forall consistent extra.
Proof.
  unfold assigned.
  destruct (alter (set_allocated true) server (workers g) !! server).
  - eexists. split; [reflexivity|].
    apply Forall_singleton, notice_consistent.
  - exists []. split; [by rewrite app_nil_r|constructor].
Qed.

(** Players only ever add to what their client socket was sent. *)
Lemma assignPlayer_sent p server g q pl :
  players g !! q = Some pl →
  ∃ pl' extra, players (assignPlayer p server g) !! q = Some pl' ∧
               sent (ws pl') = sent (ws pl) ++ extra ∧ Forall consistent extra.
Proof.
  intros Hq. assign_cases p server g Ho Ht.
  - simpl. rewrite list_lookup_alter. destruct (decide (p = q)) as [->|].
    + rewrite Hq. simpl. eexists _, []. rewrite app_nil_r. auto.
    + exists pl, []. rewrite app_nil_r. auto.
  - simpl. rewrite list_lookup_alter. destruct (decide (p = q)) as [->|].
    + rewrite Hq. simpl. destruct (assigned_sent g server pl) as (extra & H1 & H2).
      eauto.
    + exists pl, []. rewrite app_nil_r. auto.
  - exists pl, []. rewrite app_nil_r. auto.
Qed.

Lemma dequeue_sent clk waiting q : ∀ i g pl,
  players g !! q = Some pl →
  ∃ pl' extra, players (dequeue clk i waiting g) !! q = Some pl' ∧
               sent (ws pl') = sent (ws pl) ++ extra ∧ Forall consistent extra.
Proof.
  induction waiting as [|p rest IH]; intros i g pl Hq; simpl.
  - exists pl, []. rewrite app_nil_r. auto.
  - destruct (nextAvailable (clk i) g) as [server|].
    + destruct (assignPlayer_sent p server g q pl Hq) as (pl1 & e1 & H1 & H2 & H3).
      destruct (assignPlayer_throws p server g); [eauto|].
      destruct (IH (S i) _ _ H1) as (pl2 & e2 & K1 & K2 & K3).
      exists pl2, (e1 ++ e2). split; [exact K1|].
      split; [by rewrite K2, H2, app_assoc|by apply Forall_app].
    + exists pl, []. rewrite app_nil_r. auto.
Qed.

Lemma connectWaitingPlayers_sent clk g q pl :
  players g !! q = Some pl →
  ∃ pl' extra, players (connectWaitingPlayers clk g) !! q = Some pl' ∧
               sent (ws pl') = sent (ws pl) ++ extra ∧ Forall consistent extra.
Proof.
  intros Hq. unfold connectWaitingPlayers. destruct (length (queue g)).
  - exists pl, []. rewrite app_nil_r. auto.
  - by apply dequeue_sent.
Qed.

(** C9, as the code has it: the first thing a new session sends on its
    client socket, before the drain that follows its creation does anything
    for it, is the notice with the type tag "matchmaker", queued true,
    matched false and the detail "Waiting for available streamer". *)
Theorem creation_notice clk g :
  players g !! length (players g) = None ∧
  ∃ pl extra,
    players (step g (ClientConnection clk)) !! length (players g) = Some pl ∧
    sent (ws pl) = PNotice waiting_notice :: extra.
Proof.
  split; [apply lookup_ge_None_2; lia|]. simpl. unfold onClientConnection.
  set (new := on_disconnect QueueDelete newVirtualPlayer).
  set (g1 := set_players (players g ++ [new]) g).
  destruct (connectWaitingPlayers_sent clk
              (set_queue (queue_add (length (players g)) (queue g1)) g1)
              (length (players g)) new)
    as (pl' & extra & H1 & H2 & _).
  - simpl. by rewrite lookup_app_r, Nat.sub_diag by lia.
  - exists pl', extra. split; [exact H1|]. rewrite H2. reflexivity.
Qed.

Lemma grows_refl g g' : players g' = players g → grows g g'.
Proof.
  intros Hp. split; rewrite Hp.
  - intros q pl Hq. exists pl, []. rewrite app_nil_r. auto.
  - intros q pl' Hq. left. by apply lookup_lt_Some in Hq.
Qed.

Lemma grows_trans g1 g2 g3 : grows g1 g2 → grows g2 g3 → grows g1 g3.
Proof.
  intros [O1 N1] [O2 N2]. split.
  - intros q pl Hq. destruct (O1 q pl Hq) as (pl2 & e2 & H1 & H2 & H3).
    destruct (O2 q pl2 H1) as (pl3 & e3 & K1 & K2 & K3).
    exists pl3, (e2 ++ e3). split; [exact K1|].
    split; [by rewrite K2, H2, app_assoc|by apply Forall_app].
  - intros q pl3 Hq. destruct (N2 q pl3 Hq) as [Hlt|Hc]; [|by right].
    apply lookup_lt_is_Some in Hlt as [pl2 Hq2].
    destruct (N1 q pl2 Hq2) as [Hlt|Hc]; [by left|right].
    destruct (O2 q pl2 Hq2) as (pl3' & e3 & K1 & K2 & K3).
    rewrite Hq in K1. injection K1 as <-. rewrite K2. by apply Forall_app.
Qed.

Lemma grows_alter g g' p f :
  players g' = alter f p (players g) →
  (∀ pl, ∃ extra, sent (ws (f pl)) = sent (ws pl) ++ extra ∧ Forall consistent extra) →
  grows g g'.
Proof.
  intros Hp Hf. split; rewrite Hp.
  - intros q pl Hq. rewrite list_lookup_alter.
    destruct (decide (p = q)) as [->|].
    + rewrite Hq. simpl. destruct (Hf pl) as (extra & H1 & H2). eauto.
    + exists pl, []. rewrite app_nil_r. auto.
  - intros q pl' Hq. left. apply lookup_lt_Some in Hq. by rewrite length_alter in Hq.
Qed.

Lemma grows_update_player g p f :
  (∀ pl, ∃ extra, sent (ws (f pl)) = sent (ws pl) ++ extra ∧ Forall consistent extra) →
  grows g (update_player p f g).
Proof. by apply (grows_alter g _ p f). Qed.

Lemma same_sent (f : VirtualPlayer → VirtualPlayer) :
  (∀ pl, sent (ws (f pl)) = sent (ws pl)) →
  ∀ pl, ∃ extra, sent (ws (f pl)) = sent (ws pl) ++ extra ∧ Forall consistent extra.
Proof. intros Hf pl. exists []. rewrite app_nil_r. auto. Qed.

Lemma assignPlayer_grows p server g : grows g (assignPlayer p server g).
Proof.
  assign_cases p server g Ho Ht.
  - apply (grows_alter _ _ p (registered server)); [reflexivity|].
    by apply same_sent.
  - apply (grows_alter _ _ p (assigned g server)); [reflexivity|].
    intros pl. apply assigned_sent.
  - by apply grows_refl.
Qed.

Lemma dequeue_grows clk waiting : ∀ i g, grows g (dequeue clk i waiting g).
Proof.
  induction waiting as [|p rest IH]; intros i g; simpl; [by apply grows_refl|].
  destruct (nextAvailable (clk i) g) as [server|]; [|by apply grows_refl].
  destruct (assignPlayer_throws p server g); [apply assignPlayer_grows|].
  eapply grows_trans; [apply assignPlayer_grows|apply IH].
Qed.

Lemma connectWaitingPlayers_grows clk g : grows g (connectWaitingPlayers clk g).
Proof.
  unfold connectWaitingPlayers.
  destruct (length (queue g)); [by apply grows_refl|apply dequeue_grows].
Qed.

Lemma step_grows g e : grows g (step g e).
Proof.
  by_event e.
  - unfold onClientConnection.
    eapply grows_trans; [|apply connectWaitingPlayers_grows]. split; simpl.
    + intros q pl Hq. exists pl, []. rewrite app_nil_r.
      split; [by apply lookup_app_l_Some|auto].
    + intros q pl' Hq. apply lookup_app_Some in Hq as [Hq|[_ Hq]].
      * left. by apply lookup_lt_Some in Hq.
      * right. apply list_lookup_singleton_Some in Hq as [_ <-]. simpl.
        apply Forall_singleton. reflexivity.
  - apply connectWaitingPlayers_grows.
  - destruct (client_live g p); [|by apply grows_refl].
    by apply grows_update_player, same_sent.
  - destruct (client_live g p); [|by apply grows_refl].
    apply grows_update_player, same_sent. intros pl. unfold _clientHeartbeat.
    by destruct (negb (alive (ws pl))).
  - apply grows_refl. destruct (client_live g p); [|reflexivity].
    unfold onClientMessage. destruct (players g !! p) as [pl|]; [|reflexivity].
    destruct (stream_open g (stream pl)); [|reflexivity].
    by destruct (stream pl).
  - destruct (client_open g p); [|by apply grows_refl].
    by apply grows_update_player, same_sent.
  - destruct (client_live g p) eqn:Hl; [|by apply grows_refl].
    apply client_live_Some in Hl as (pl & Hp & _).
    apply (grows_alter _ _ p closed_ws); [by rewrite (onClientClose_eq p pl)|].
    by apply same_sent.
  - apply grows_refl. destruct (stream_live g s) as [ss|]; [|reflexivity].
    by destruct (streamState ss).
  - destruct (stream_live g s) as [ss|]; [|by apply grows_refl].
    unfold onStreamerMessage.
    destruct (client_open g (owner ss)); [|by apply grows_refl].
    apply grows_update_player. intros pl. exists [PRelay msg].
    split; [reflexivity|]. by apply Forall_singleton.
  - apply grows_refl. by destruct (stream_live g s).
  - destruct (stream_live g s) as [ss|]; [|by apply grows_refl].
    unfold onStreamClose.
    apply (grows_alter _ _ (owner ss) dropped); [by rewrite handleStreamerClose_eq|].
    intros pl. eexists. split; [reflexivity|].
    apply Forall_singleton, notice_consistent.
  - by apply grows_refl.
  - by apply grows_refl.
  - by apply grows_refl.
Qed.

Lemma grows_Consistent g g' : grows g g' → Consistent g → Consistent g'.
Proof.
  intros [HO HN] HC p pl' Hp. destruct (HN p pl' Hp) as [Hlt|Hc]; [|exact Hc].
  apply lookup_lt_is_Some in Hlt as [pl Hpl].
  destruct (HO p pl Hpl) as (pl'' & extra & H1 & H2 & H3).
  rewrite Hp in H1. injection H1 as <-. rewrite H2.
  apply Forall_app. split; [by apply (HC p)|exact H3].
Qed.

Lemma reachable_Consistent g : reachable g → Consistent g.
Proof.
  induction 1 as [dbg|g e _ IH _].
  - intros p pl Hp. discriminate.
  - apply (grows_Consistent g); [apply step_grows|exact IH].
Qed.

(** C10: in every notice that a session builds the matched field is the
    negation of the queued field, both being read off [this.stream] when the
    notice is built; hence in every reachable state every notice that any
    client socket was sent says matched exactly when it does not say
    queued. *)
Theorem notices_consistent :
  (∀ pl d, queued (notice pl d) = negb (truthy (stream pl)) ∧
           matched (notice pl d) = negb (queued (notice pl d))) ∧
  (∀ g p pl n, reachable g → players g !! p = Some pl →
     PNotice n ∈ sent (ws pl) → matched n = negb (queued n)).
Proof.
  split.
  - intros pl d. split; [reflexivity|]. apply (notice_consistent pl d).
  - intros g p pl n Hr Hp Hin.
    pose proof (reachable_Consistent g Hr p pl Hp) as Hc.
    rewrite Forall_forall in Hc. apply (Hc _ Hin).
Qed.

(** ** The client heartbeat *)

Lemma heartbeat_twice pl :
  isOpen (readyState (ws (_clientHeartbeat (_clientHeartbeat pl)))) = false.
Proof.
  unfold _clientHeartbeat. destruct (alive (ws pl)) eqn:Ha; simpl.
  - by destruct (readyState (ws pl)).
  - rewrite Ha. simpl. by destruct (readyState (ws pl)).
Qed.

Lemma client_live_heartbeat g p :
  client_live g p = true →
  client_live (update_player p _clientHeartbeat g) p = true.
Proof.
  unfold client_live. rewrite lookup_update_player, decide_True by done.
  destruct (players g !! p) as [pl|]; simpl; [|done].
  unfold _clientHeartbeat. destruct (alive (ws pl)); simpl; [done|].
  by destruct (readyState (ws pl)).
Qed.

Lemma same_socket_refl pl : same_socket pl pl.
Proof. by repeat split. Qed.

Lemma assigned_socket g server pl : same_socket pl (assigned g server pl).
Proof.
  unfold assigned, same_socket.
  by destruct (alter (set_allocated true) server (workers g) !! server).
Qed.

Lemma assignPlayer_socket p server g q pl :
  players g !! q = Some pl →
  ∃ pl', players (assignPlayer p server g) !! q = Some pl' ∧ same_socket pl pl'.
Proof.
  intros Hq. assign_cases p server g Ho Ht; simpl;
    [| |exists pl; split; [exact Hq|apply same_socket_refl]];
    (rewrite list_lookup_alter; destruct (decide (p = q)) as [->|];
     [rewrite Hq; simpl; eexists; split; [reflexivity|]
     |exists pl; split; [exact Hq|apply same_socket_refl]]).
  - by repeat split.
  - apply assigned_socket.
Qed.

Lemma dequeue_socket clk waiting q : ∀ i g pl,
  players g !! q = Some pl →
  ∃ pl', players (dequeue clk i waiting g) !! q = Some pl' ∧ same_socket pl pl'.
Proof.
  induction waiting as [|p rest IH]; intros i g pl Hq; simpl.
  - exists pl. split; [exact Hq|apply same_socket_refl].
  - destruct (nextAvailable (clk i) g) as [server|];
      [|exists pl; split; [exact Hq|apply same_socket_refl]].
    destruct (assignPlayer_socket p server g q pl Hq) as (pl1 & H1 & E1 & E2 & E3).
    destruct (assignPlayer_throws p server g); [by exists pl1|].
    destruct (IH (S i) _ _ H1) as (pl2 & H2 & F1 & F2 & F3).
    exists pl2. split; [exact H2|]. unfold same_socket. by rewrite F1, F2, F3.
Qed.

Lemma connectWaitingPlayers_socket clk g q pl :
  players g !! q = Some pl →
  ∃ pl', players (connectWaitingPlayers clk g) !! q = Some pl' ∧ same_socket pl pl'.
Proof.
  intros Hq. unfold connectWaitingPlayers. destruct (length (queue g)).
  - exists pl. split; [exact Hq|apply same_socket_refl].
  - by apply dequeue_socket.
Qed.

(** The player that [onClientConnection] makes starts with the socket of
    the constructor, whatever the drain does for it. *)
Lemma onClientConnection_socket clk g :
  ∃ pl, players (step g (ClientConnection clk)) !! length (players g) = Some pl ∧
        same_socket newVirtualPlayer pl.
Proof.
  simpl. unfold onClientConnection.
  apply (connectWaitingPlayers_socket clk _ _ (on_disconnect QueueDelete newVirtualPlayer)).
  simpl. by rewrite lookup_app_r, Nat.sub_diag by lia.
Qed.

(** What an event does to the flag of a player whose client socket has not
    been closed after it. *)
Lemma step_alive g e p pl :
  players g !! p = Some pl →
  ∃ pl', players (step g e) !! p = Some pl' ∧
    (readyState (ws pl') ≠ CLOSED →
       readyState (ws pl) ≠ CLOSED ∧
       alive (ws pl') = negb (outstanding p (negb (alive (ws pl))) e)).
Proof.
  intros Hp.
  assert (∀ g' pl', players g' !! p = Some pl' → same_socket pl pl' →
            outstanding p (negb (alive (ws pl))) e = negb (alive (ws pl)) →
            ∃ pl', players g' !! p = Some pl' ∧
              (readyState (ws pl') ≠ CLOSED →
                 readyState (ws pl) ≠ CLOSED ∧
                 alive (ws pl') = negb (outstanding p (negb (alive (ws pl))) e)))
    as Hsame.
  { intros g' pl' Hg' (E1 & E2 & _) ->. exists pl'. split; [exact Hg'|].
    rewrite E1, E2, negb_involutive. auto. }
  assert (∀ g', players g' !! p = Some pl →
            outstanding p (negb (alive (ws pl))) e = negb (alive (ws pl)) →
            ∃ pl', players g' !! p = Some pl' ∧
              (readyState (ws pl') ≠ CLOSED →
                 readyState (ws pl) ≠ CLOSED ∧
                 alive (ws pl') = negb (outstanding p (negb (alive (ws pl))) e)))
    as Hkept.
  { intros g' Hg'. apply (Hsame g' pl Hg'), same_socket_refl. }
  destruct e as [clk|clk|q|q|q msg|q|q|s|s msg|s|s|c]; simpl step.
  - destruct (connectWaitingPlayers_socket clk
                (set_queue (queue_add (length (players g)) (queue g))
                   (set_players (players g ++ [on_disconnect QueueDelete newVirtualPlayer]) g))
                p pl) as (pl' & H1 & H2).
    { simpl. by apply lookup_app_l_Some. }
    by apply (Hsame _ pl').
  - destruct (connectWaitingPlayers_socket clk g p pl Hp) as (pl' & H1 & H2).
    by apply (Hsame _ pl').
  - destruct (decide (q = p)) as [->|Hne].
    + simpl outstanding. rewrite Nat.eqb_refl. unfold client_live. rewrite Hp.
      destruct (isClosed (readyState (ws pl))) eqn:Hc; simpl.
      * exists pl. split; [exact Hp|]. intros H. by destruct (readyState (ws pl)).
      * exists (onPong pl). simpl. rewrite list_lookup_alter_eq, Hp.
        split; [reflexivity|]. auto.
    + apply Hkept; [|simpl; by rewrite (proj2 (Nat.eqb_neq q p))].
      destruct (client_live g q); [|exact Hp].
      simpl. by rewrite list_lookup_alter_ne.
  - destruct (decide (q = p)) as [->|Hne].
    + simpl outstanding. rewrite Nat.eqb_refl. unfold client_live. rewrite Hp.
      destruct (isClosed (readyState (ws pl))) eqn:Hc; simpl.
      * exists pl. split; [exact Hp|]. intros H. by destruct (readyState (ws pl)).
      * exists (_clientHeartbeat pl). simpl. rewrite list_lookup_alter_eq, Hp.
        split; [reflexivity|]. intros _. split; [by destruct (readyState (ws pl))|].
        unfold _clientHeartbeat. by destruct (alive (ws pl)) eqn:Ha; simpl.
    + apply Hkept; [|simpl; by rewrite (proj2 (Nat.eqb_neq q p))].
      destruct (client_live g q); [|exact Hp].
      simpl. by rewrite list_lookup_alter_ne.
  - apply Hkept; [|reflexivity]. destruct (client_live g q); [|exact Hp].
    unfold onClientMessage. destruct (players g !! q) as [pl0|]; [|exact Hp].
    destruct (stream_open g (stream pl0)); [|exact Hp]. by destruct (stream pl0).
  - destruct (client_open g q) eqn:Ho; [|by apply Hkept].
    simpl. rewrite list_lookup_alter. destruct (decide (q = p)) as [->|]; [|by apply Hkept].
    rewrite Hp. simpl. eexists. split; [reflexivity|]. simpl. intros _.
    rewrite negb_involutive. split; [|reflexivity].
    apply client_open_Some in Ho as (pl0 & Hp0 & Hrs). congruence.
  - destruct (client_live g q) eqn:Hl; [|by apply Hkept].
    apply client_live_Some in Hl as (pl0 & Hq & _).
    rewrite (onClientClose_eq q pl0) by done. simpl.
    rewrite list_lookup_alter. destruct (decide (q = p)) as [->|]; [|by apply Hkept].
    rewrite Hp. simpl. eexists. split; [reflexivity|]. simpl. by intros H.
  - apply Hkept; [|reflexivity]. destruct (stream_live g s) as [ss|]; [|exact Hp].
    by destruct (streamState ss).
  - destruct (stream_live g s) as [ss|]; [|by apply Hkept].
    unfold onStreamerMessage. destruct (client_open g (owner ss)); [|by apply Hkept].
    simpl. rewrite list_lookup_alter.
    destruct (decide (owner ss = p)) as [->|]; [|by apply Hkept].
    rewrite Hp. simpl. eexists. split; [reflexivity|]. simpl.
    rewrite negb_involutive. auto.
  - apply Hkept; [|reflexivity]. by destruct (stream_live g s).
  - destruct (stream_live g s) as [ss|]; [|by apply Hkept].
    unfold onStreamClose. rewrite handleStreamerClose_eq. simpl.
    rewrite list_lookup_alter.
    destruct (decide (owner ss = p)) as [->|]; [|by apply Hkept].
    rewrite Hp. simpl. eexists. split; [reflexivity|]. simpl.
    rewrite negb_involutive. auto.
  - apply Hkept; [|reflexivity]. by destruct c.
Qed.

Lemma run_snoc g es e : run g (es ++ [e]) = step (run g es) e.
Proof. unfold run. by rewrite fold_left_app. Qed.

Lemma unanswered_snoc p es e :
  unanswered p (es ++ [e]) = outstanding p (unanswered p es) e.
Proof. unfold unanswered. by rewrite fold_left_app. Qed.

(** The flag of a player tells whether its last probe is unanswered, from
    its creation on and for as long as its client socket is not closed. *)
Lemma alive_unanswered g clk es :
  ∃ pl, players (run (step g (ClientConnection clk)) es) !! length (players g)
          = Some pl ∧
        (readyState (ws pl) ≠ CLOSED →
           alive (ws pl) = negb (unanswered (length (players g)) es)).
Proof.
  induction es as [|e es IH] using rev_ind.
  - destruct (onClientConnection_socket clk g) as (pl & Hpl & _ & Ha & _).
    exists pl. split; [exact Hpl|]. intros _. by rewrite Ha.
  - destruct IH as (pl & Hpl & Ha). rewrite run_snoc, unanswered_snoc.
    destruct (step_alive _ e _ pl Hpl) as (pl' & Hpl' & Ha').
    exists pl'. split; [exact Hpl'|]. intros Hlive.
    destruct (Ha' Hlive) as [Hlive0 ->]. by rewrite (Ha Hlive0), negb_involutive.
Qed.

Lemma fire_terminated n : ∀ c,
  alive (ws (Heartbeat.player c)) = false →
  isOpen (readyState (ws (Heartbeat.player c))) = false →
  isOpen (readyState (ws (Heartbeat.player (Nat.iter n Heartbeat.fire c)))) = false.
Proof.
  induction n as [|n IH]; intros c Ha Ho; [exact Ho|].
  rewrite Nat.iter_succ_r. apply IH; unfold Heartbeat.fire;
    destruct (Heartbeat.hb c); simpl; auto;
    unfold _clientHeartbeat; rewrite Ha; simpl; auto.
  by destruct (readyState (ws (Heartbeat.player c))).
Qed.

Lemma elapse_due c due now :
  Heartbeat.hb c = Some due → (due <= now)%Z →
  ∃ n, Heartbeat.elapse now c = Nat.iter (S n) Heartbeat.fire c ∧
       Z.of_nat n = ((now - due) / heartbeatInterval)%Z.
Proof.
  intros Hhb Hdue. unfold Heartbeat.elapse. rewrite Hhb.
  destruct (Z.leb_spec due now) as [_|]; [|lia].
  assert (0 <= (now - due) / heartbeatInterval)%Z as Hk
    by (apply Z.div_pos; unfold heartbeatInterval; lia).
  exists (Z.to_nat ((now - due) / heartbeatInterval)).
  split; [|by rewrite Z2Nat.id].
  by rewrite Z2Nat.inj_add, Nat.add_1_r by lia.
Qed.

(** A firing that is due and the one after it not yet: the heartbeat runs
    once. *)
Lemma elapse_once c due now :
  Heartbeat.hb c = Some due → (due <= now < due + 30000)%Z →
  Heartbeat.elapse now c =
  {| Heartbeat.player := _clientHeartbeat (Heartbeat.player c);
     Heartbeat.hb := Some (due + 30000)%Z |}.
Proof.
  intros Hhb Hnow. destruct (elapse_due c due now Hhb) as (n & -> & Hn); [lia|].
  unfold heartbeatInterval in Hn. rewrite Z.div_small in Hn by lia.
  assert (n = 0) as -> by lia. simpl. unfold Heartbeat.fire. by rewrite Hhb.
Qed.

(** C8. At a tick of the heartbeat timer, a client whose last probe is
    unanswered (the flag [alive] is false) is terminated and sent nothing;
    otherwise the flag is cleared and a probe is sent, and the socket stays
    as it is. A pong sets the flag. The flag is set when the player is
    made, and from then on, for as long as the client socket is not closed,
    it is clear exactly when the timer has fired and no pong has come since:
    so the tick that follows an unanswered probe terminates, and the first
    tick and every tick that follows a pong send a probe. Two ticks with no
    pong between them leave the socket terminated, whereas an open socket is
    still open after the tick that follows its pong. The timer is set when
    the player is made and fires every 30000 ms from then: nothing happens
    before the first 30000 ms are over, each firing runs the heartbeat and
    sets the next firing 30000 ms later, a client whose probe is out and
    unanswered when a firing is due is not open any more from that firing
    on, and a new client that never answers has been sent one probe from
    30000 ms on and is terminated from 60000 ms on, whereas an open client
    that answers the probe of one firing is sent a new probe at the next
    and stays open. *)
Theorem client_heartbeat :
  (∀ pl, alive (ws pl) = false →
     readyState (ws (_clientHeartbeat pl)) = closing (readyState (ws pl)) ∧
     isOpen (readyState (ws (_clientHeartbeat pl))) = false ∧
     pings (ws (_clientHeartbeat pl)) = pings (ws pl)) ∧
  (∀ pl, alive (ws pl) = true →
     alive (ws (_clientHeartbeat pl)) = false ∧
     pings (ws (_clientHeartbeat pl)) = S (pings (ws pl)) ∧
     readyState (ws (_clientHeartbeat pl)) = readyState (ws pl)) ∧
  (∀ pl, alive (ws (onPong pl)) = true ∧
         readyState (ws (onPong pl)) = readyState (ws pl)) ∧
  (∀ g p, client_live g p = true →
     client_open (run g [ClientHeartbeat p; ClientHeartbeat p]) p = false) ∧
  (∀ g p, client_open g p = true →
     client_open (run g [ClientPong p; ClientHeartbeat p]) p = true) ∧
  (alive (ws newVirtualPlayer) = true ∧ pings (ws newVirtualPlayer) = 0 ∧
   readyState (ws newVirtualPlayer) = OPEN) ∧
  (∀ g clk es pl,
     players (run (step g (ClientConnection clk)) es) !! length (players g) = Some pl →
     readyState (ws pl) ≠ CLOSED →
     alive (ws pl) = negb (unanswered (length (players g)) es) ∧
     ∃ pl',
       players (run (step g (ClientConnection clk))
                  (es ++ [ClientHeartbeat (length (players g))]))
         !! length (players g) = Some pl' ∧
       alive (ws pl') = false ∧
       if unanswered (length (players g)) es
       then readyState (ws pl') = CLOSING ∧ pings (ws pl') = pings (ws pl)
       else readyState (ws pl') = readyState (ws pl) ∧
            pings (ws pl') = S (pings (ws pl))) ∧
  (∀ t0 now, (t0 <= now < t0 + 30000)%Z →
     Heartbeat.elapse now (Heartbeat.create t0) = Heartbeat.create t0) ∧
  (∀ c due now, Heartbeat.hb c = Some due → (due <= now < due + 30000)%Z →
     Heartbeat.elapse now c =
     {| Heartbeat.player := _clientHeartbeat (Heartbeat.player c);
        Heartbeat.hb := Some (due + 30000)%Z |}) ∧
  (∀ c due now, Heartbeat.hb c = Some due →
     alive (ws (Heartbeat.player c)) = false → (due <= now)%Z →
     isOpen (readyState (ws (Heartbeat.player (Heartbeat.elapse now c)))) = false) ∧
  (∀ t0 now,
     ((t0 + 30000 <= now < t0 + 60000)%Z →
        Heartbeat.player (Heartbeat.elapse now (Heartbeat.create t0)) =
        _clientHeartbeat newVirtualPlayer) ∧
     ((t0 + 60000 <= now)%Z →
        isOpen (readyState (ws (Heartbeat.player
          (Heartbeat.elapse now (Heartbeat.create t0))))) = false)) ∧
  (∀ c due t now, Heartbeat.hb c = Some due →
     readyState (ws (Heartbeat.player c)) = OPEN →
     alive (ws (Heartbeat.player c)) = true →
     (due <= t < due + 30000)%Z → (due + 30000 <= now < due + 60000)%Z →
     Heartbeat.elapse now (Heartbeat.handle c (t, Heartbeat.Pong)) =
     {| Heartbeat.player := _clientHeartbeat (onPong (_clientHeartbeat (Heartbeat.player c)));
        Heartbeat.hb := Some (due + 30000 + 30000)%Z |} ∧
     readyState (ws (_clientHeartbeat (onPong (_clientHeartbeat (Heartbeat.player c)))))
       = OPEN ∧
     pings (ws (_clientHeartbeat (onPong (_clientHeartbeat (Heartbeat.player c)))))
       = S (S (pings (ws (Heartbeat.player c))))).
Proof.
  split; [|split; [|split; [|split; [|split; [|split; [|split; [|split;
    [|split; [|split; [|split]]]]]]]]]].
  - intros pl H. unfold _clientHeartbeat. rewrite H. simpl.
    repeat split. by destruct (readyState (ws pl)).
  - intros pl H. unfold _clientHeartbeat. by rewrite H.
  - by intros pl.
  - intros g p Hlive. simpl. rewrite Hlive, client_live_heartbeat by done.
    unfold client_open. rewrite !lookup_update_player, !decide_True by done.
    destruct (players g !! p) as [pl|]; simpl; [apply heartbeat_twice|done].
  - intros g p Hopen. apply client_open_Some in Hopen as Ho.
    destruct Ho as (pl & Hp & Hrs).
    assert (client_live g p = true) as Hlive.
    { apply client_live_Some. exists pl. split; [done|]. by rewrite Hrs. }
    simpl. rewrite Hlive.
    assert (client_live (update_player p onPong g) p = true) as ->.
    { unfold client_live. rewrite lookup_update_player, decide_True, Hp by done.
      simpl. by rewrite Hrs. }
    unfold client_open.
    rewrite !lookup_update_player, !decide_True, Hp by done. simpl.
    by rewrite Hrs.
  - by repeat split.
  - intros g clk es pl Hpl Hlive.
    destruct (alive_unanswered g clk es) as (pl0 & Hpl0 & Ha).
    rewrite Hpl in Hpl0. injection Hpl0 as <-. specialize (Ha Hlive).
    split; [exact Ha|]. rewrite run_snoc.
    set (g1 := run (step g (ClientConnection clk)) es) in *. simpl.
    assert (client_live g1 (length (players g)) = true) as ->
      by (apply client_live_Some; eauto).
    exists (_clientHeartbeat pl). simpl. rewrite list_lookup_alter_eq, Hpl.
    split; [reflexivity|]. unfold _clientHeartbeat.
    destruct (unanswered (length (players g)) es); simpl in Ha; rewrite Ha;
      simpl; repeat split; auto.
    by destruct (readyState (ws pl)).
  - intros t0 now Hnow. unfold Heartbeat.elapse, Heartbeat.create, heartbeatInterval.
    simpl. by destruct (Z.leb_spec (t0 + 30000) now) as [|_]; [lia|].
  - apply elapse_once.
  - intros c due now Hhb Ha Hnow.
    destruct (elapse_due c due now Hhb Hnow) as (n & -> & _).
    rewrite Nat.iter_succ_r. apply fire_terminated;
      unfold Heartbeat.fire; rewrite Hhb; simpl;
      unfold _clientHeartbeat; rewrite Ha; simpl; [exact Ha|].
    by destruct (readyState (ws (Heartbeat.player c))).
  - intros t0 now. split; intros Hnow.
    + by rewrite (elapse_once _ (t0 + 30000)) by (done || lia).
    + destruct (elapse_due (Heartbeat.create t0) (t0 + 30000) now eq_refl)
        as (n & -> & Hn); [lia|].
      assert (1 <= (now - (t0 + 30000)) / heartbeatInterval)%Z as Hone
        by (apply Z.div_le_lower_bound; unfold heartbeatInterval; lia).
      destruct n as [|n]; [lia|].
      rewrite !Nat.iter_succ_r. by apply fire_terminated.
  - intros c due t now Hhb Ho Ha Ht Hnow.
    unfold Heartbeat.handle. simpl fst. simpl snd.
    rewrite (elapse_once c due t Hhb Ht). simpl.
    assert (readyState (ws (_clientHeartbeat (Heartbeat.player c))) = OPEN) as Ho'
      by (unfold _clientHeartbeat; by rewrite Ha).
    rewrite Ho'. simpl.
    rewrite (elapse_once _ (due + 30000)) by (done || lia). simpl.
    split; [reflexivity|]. unfold _clientHeartbeat. rewrite Ha. simpl.
    by split.
Qed.

(** ** The demand ratio *)

Lemma queue_wss_clients g p : reachable g → p ∈ queue g → In p (wss_clients g).
Proof.
  intros Hr Hin. apply reachable_Inv in Hr as HI.
  destruct (inv_queue g HI p Hin) as [pl Hp].
  destruct (inv_player g HI p pl Hp) as [K1 _ _]. destruct (K1 Hin) as [_ Hrs].
  unfold wss_clients. apply filter_In. split.
  - apply in_seq. apply lookup_lt_Some in Hp. lia.
  - apply client_live_Some. eauto.
Qed.

(** C7, as the code has it. The gauge divides the number of client sockets
    of the socket server, waiting or connected to a streamer alike, by the
    number of ready streamers of the pool; with no ready streamer it is that
    number of clients plus one if there is a client and zero if there is
    none. The waiting clients are among those counted, so the gauge is at
    least what the queue alone would give. *)
Theorem demand_ratio g :
  ((0 < readyWorkers g)%Z →
     streamer_demand_ratio g =
     (inject_Z (connectedClients g) / inject_Z (readyWorkers g))%Q) ∧
  (readyWorkers g = 0%Z → (0 < connectedClients g)%Z →
     streamer_demand_ratio g = inject_Z (connectedClients g + 1)) ∧
  (readyWorkers g = 0%Z → connectedClients g = 0%Z →
     streamer_demand_ratio g = 0%Q) ∧
  (reachable g → (waitingClients g <= connectedClients g)%Z).
Proof.
  unfold streamer_demand_ratio, readyWorkers, connectedClients, waitingClients.
  repeat split.
  - intros H. apply Z.gtb_lt in H. by rewrite H.
  - intros -> H. apply Z.gtb_lt in H. by rewrite H.
  - by intros -> ->.
  - intros Hr. apply inj_le, NoDup_incl_length.
    + apply NoDup_ListNoDup, (reachable_Inv g Hr).
    + intros p Hp. apply queue_wss_clients; [exact Hr|by apply list_elem_of_In].
Qed.

(** ** Construction *)

(** The two tests written [!x instanceof C] never fire: [!x] is a boolean
    and no boolean is an instance of a class. *)
Lemma not_instanceof v c : Constructor.instanceof (Constructor.not v) c = false.
Proof. reflexivity. Qed.

(** A missing or wrong server or matchmaker is rejected with the error of
    its test, and a missing metrics adapter makes the constructor throw as
    well, though only when the gauges are registered and with a
    [TypeError]. *)
Lemma constructor_rejects DEBUG options :
  (Constructor.instanceof (Constructor.server (Constructor.orEmpty options))
     Constructor.HttpServer = false →
   Constructor.constructor DEBUG options =
   Constructor.Throw
     (Constructor.Error "Http server is required for PlayerConnectionGateway")) ∧
  (Constructor.instanceof (Constructor.server (Constructor.orEmpty options))
     Constructor.HttpServer = true →
   Constructor.instanceof (Constructor.matchmaker (Constructor.orEmpty options))
     Constructor.NetServer = false →
   Constructor.constructor DEBUG options =
   Constructor.Throw
     (Constructor.Error "Matchmaker server is required for PlayerConnectionGateway")) ∧
  (Constructor.toBoolean (Constructor.metrics (Constructor.orEmpty options)) = false →
   ∃ e, Constructor.constructor DEBUG options = Constructor.Throw e).
Proof.
  unfold Constructor.constructor. repeat split.
  - intros ->. reflexivity.
  - intros -> ->. reflexivity.
  - intros Hm.
    destruct (Constructor.instanceof (Constructor.server _) _); simpl; [|eauto].
    destruct (Constructor.instanceof (Constructor.matchmaker _) _); simpl; [|eauto].
    destruct (Constructor.metrics (Constructor.orEmpty options)) as [| |[]|];
      simpl in *; try discriminate; eauto.
Qed.

(** C6 fails on the code. With a server, a matchmaker and a metrics adapter
    but no pool the constructor returns an instance, whose pool is
    [undefined]: the test [!pool instanceof Map] does not see the pool. *)
Theorem constructor_accepts_missing_pool :
  Constructor.pool Constructor.without_pool = Constructor.Undefined ∧
  Constructor.constructor None (Some Constructor.without_pool) =
  Constructor.Return
    {| Constructor._debug := false;
       Constructor.this_pool := Constructor.Undefined;
       Constructor.queue_size := 0;
       Constructor.gauges :=
         ["player_queue_count"; "streamer_available_count";
          "streamer_demand_ratio"]%string |}.
Proof. split; reflexivity. Qed.

(** * Further properties of the gateway *)

(** ** Drains *)

(** X1. A drain that has run and returned has nothing left to do: a second
    drain at the same instant changes nothing. *)
Theorem drain_idempotent t g :
  NoDup (queue g) →
  connectWaitingPlayers_throws (at_time t) g = false →
  connectWaitingPlayers (at_time t) (connectWaitingPlayers (at_time t) g) =
  connectWaitingPlayers (at_time t) g.
Proof.
  intros Hnd Hret.
  assert (queue (connectWaitingPlayers (at_time t) g) = [] ∨
          nextAvailable t (connectWaitingPlayers (at_time t) g) = None) as Hstop.
  { unfold connectWaitingPlayers, connectWaitingPlayers_throws in *.
    destruct (length (queue g)) eqn:Hlen.
    - left. by apply nil_length_inv.
    - destruct (dequeue_fifo (at_time t) (queue g) 0 g eq_refl Hnd)
        as (served & _ & _ & H). by destruct (H Hret) as [H' _]. }
  unfold connectWaitingPlayers at 1.
  destruct (queue (connectWaitingPlayers (at_time t) g)) as [|p rest] eqn:Hq;
    [reflexivity|].
  destruct Hstop as [|Hnone]; [discriminate|]. simpl.
  unfold at_time at 1. by rewrite Hnone.
Qed.

Lemma dequeue_distinct clk waiting : ∀ i g,
  ∃ news, streams (dequeue clk i waiting g) = streams g ++ news ∧
    NoDup (backend <$> news) ∧
    Forall (λ ss,
      (allocated <$> workers g !! backend ss) = Some false ∧
      (allocated <$> workers (dequeue clk i waiting g) !! backend ss) = Some true)
      news.
Proof.
  induction waiting as [|p rest IH]; intros i g; simpl.
  - exists []. rewrite app_nil_r. repeat split; constructor.
  - destruct (nextAvailable (clk i) g) as [server|] eqn:Hn.
    2:{ exists []. rewrite app_nil_r. repeat split; constructor. }
    destruct (assignPlayer_throws p server g) eqn:Ht.
    { exists []. rewrite app_nil_r, streams_assignPlayer.
      rewrite assignPlayer_throws_eq in Ht. apply andb_true_iff in Ht as [-> ->].
      simpl. rewrite app_nil_r. repeat split; constructor. }
    destruct (IH (S i) (assignPlayer p server g)) as (news & Hs & Hnd & Hall).
    pose proof (nextAvailable_unallocated _ _ _ Hn) as Hfree.
    pose proof (streams_assignPlayer_returns p server g Ht) as Hst.
    rewrite Hst in Hs.
    destruct (client_open g p) eqn:Ho.
    + destruct (workers g !! server) as [rec|] eqn:Hrec; [|discriminate].
      destruct (assignPlayer_open_pool p server g Ho) as (_ & _ & Hw).
      destruct (dequeue_skips_allocated clk rest server (set_allocated true rec) (S i)
                  (assignPlayer p server g))
        as [Hkept Hother].
      { by rewrite Hw, list_lookup_alter_eq, Hrec. }
      { reflexivity. }
      exists (new_stream p server :: news). split; [by rewrite Hs, <- app_assoc|].
      split.
      * simpl. apply NoDup_cons. split; [|exact Hnd].
        intros Hin. apply list_elem_of_fmap in Hin as (ss & Hb & Hin).
        apply list_elem_of_lookup in Hin as [k Hk].
        apply (Hother (length (streams g ++ [new_stream p server]) + k) ss).
        -- rewrite Hs. by rewrite lookup_app_r, Nat.add_comm, Nat.add_sub by lia.
        -- rewrite Hst. lia.
        -- done.
      * constructor.
        -- simpl. rewrite Hrec. split; [exact Hfree|]. by rewrite Hkept.
        -- eapply Forall_impl; [exact Hall|]. intros ss [H1 H2]. split; [|exact H2].
           rewrite Hw, list_lookup_alter in H1.
           destruct (decide (server = backend ss)) as [<-|]; [|exact H1].
           rewrite Hrec in H1. simpl in H1. discriminate.
    + rewrite app_nil_r in Hs. exists news. split; [exact Hs|]. split; [exact Hnd|].
      eapply Forall_impl; [exact Hall|]. intros ss [H1 H2]. split; [|exact H2].
      by rewrite assignPlayer_closed in H1.
Qed.

(** X2. A drain never gives one streamer to two sessions: the worker legs it
    opens go to pairwise different streamers, each free before the drain
    and allocated after it. *)
Theorem drain_distinct_streamers clk g :
  ∃ news, streams (connectWaitingPlayers clk g) = streams g ++ news ∧
    NoDup (backend <$> news) ∧
    Forall (λ ss,
      (allocated <$> workers g !! backend ss) = Some false ∧
      (allocated <$> workers (connectWaitingPlayers clk g) !! backend ss) = Some true)
      news.
Proof.
  unfold connectWaitingPlayers. destruct (length (queue g)).
  - exists []. rewrite app_nil_r. repeat split; constructor.
  - apply dequeue_distinct.
Qed.

(** ** A client connects *)

(** The state in which [onClientConnection] starts its drain. *)
Lemma onClientConnection_eq clk g :
  step g (ClientConnection clk) =
  connectWaitingPlayers clk
    {| debug := debug g; workers := workers g; pool := pool g;
       queue := queue_add (length (players g)) (queue g);
       players := players g ++ [on_disconnect QueueDelete newVirtualPlayer];
       streams := streams g |} ∧
  throws g (ClientConnection clk) =
  connectWaitingPlayers_throws clk
    {| debug := debug g; workers := workers g; pool := pool g;
       queue := queue_add (length (players g)) (queue g);
       players := players g ++ [on_disconnect QueueDelete newVirtualPlayer];
       streams := streams g |}.
Proof. split; reflexivity. Qed.

(** A client connects to an empty queue while the scan finds [w]: the
    drain is one [assignPlayer] for the new player. *)
Lemma connect_assigns clk g w :
  queue g = [] → nextAvailable (clk 0) g = Some w →
  step g (ClientConnection clk) =
    assignPlayer (length (players g)) w
      {| debug := debug g; workers := workers g; pool := pool g;
         queue := [length (players g)];
         players := players g ++ [on_disconnect QueueDelete newVirtualPlayer];
         streams := streams g |} ∧
  throws g (ClientConnection clk) =
    assignPlayer_throws (length (players g)) w
      {| debug := debug g; workers := workers g; pool := pool g;
         queue := [length (players g)];
         players := players g ++ [on_disconnect QueueDelete newVirtualPlayer];
         streams := streams g |}.
Proof.
  intros Hq Hn. destruct (onClientConnection_eq clk g) as [-> ->].
  rewrite Hq. unfold connectWaitingPlayers, connectWaitingPlayers_throws.
  cbn [queue_add decide]. unfold queue_add.
  rewrite decide_False by apply not_elem_of_nil.
  cbn [queue length app dequeue dequeue_throws].
  change (nextAvailable (clk 0) _) with (nextAvailable (clk 0) g). rewrite Hn.
  by destruct (assignPlayer_throws _ _ _).
Qed.

(** X4. With nobody waiting and a streamer available whose address and port
    form a URL, a connecting client is connected at once: the handler
    returns, the first eligible streamer of the pool is allocated, a worker
    leg to it is opened, the client is sent the waiting notice and then the
    matched notice carrying the streamer's record, and the queue is empty
    again. *)
Theorem connect_with_streamer clk g w record :
  queue g = [] → nextAvailable (clk 0) g = Some w →
  workers g !! w = Some record →
  valid_url (address record) (port record) = true →
  throws g (ClientConnection clk) = false ∧
  queue (step g (ClientConnection clk)) = [] ∧
  streams (step g (ClientConnection clk)) =
    streams g ++ [new_stream (length (players g)) w] ∧
  ∃ rec pl,
    workers (step g (ClientConnection clk)) !! w = Some rec ∧
    allocated rec = true ∧
    players (step g (ClientConnection clk)) !! length (players g) = Some pl ∧
    stream pl = Some (length (streams g)) ∧
    readyState (ws pl) = OPEN ∧
    sent (ws pl) = [PNotice waiting_notice; PNotice (matched_notice rec)].
Proof.
  intros Hq Hn Hrec Hurl. destruct (connect_assigns clk g w Hq Hn) as [-> ->].
  set (g2 := {| debug := debug g; workers := workers g; pool := pool g;
                queue := [length (players g)];
                players := players g ++ [on_disconnect QueueDelete newVirtualPlayer];
                streams := streams g |}).
  assert (client_open g2 (length (players g)) = true) as Ho
    by (unfold client_open; simpl; by rewrite lookup_app_r, Nat.sub_diag by lia).
  assert (connectStreamer_throws w g2 = false) as Ht
    by (unfold connectStreamer_throws; simpl; by rewrite Hrec, Hurl).
  split; [rewrite assignPlayer_throws_eq, Ht; apply andb_false_r|].
  rewrite assignPlayer_open by done. simpl. split.
  { unfold queue_delete. rewrite filter_cons, decide_False; [reflexivity|].
    intros H. by apply H. }
  split; [reflexivity|].
  exists (set_allocated true record).
  eexists. split; [by rewrite list_lookup_alter_eq, Hrec|].
  split; [reflexivity|].
  rewrite list_lookup_alter_eq, lookup_app_r, Nat.sub_diag by lia. simpl.
  split; [reflexivity|].
  unfold assigned. simpl. rewrite list_lookup_alter_eq, Hrec. simpl.
  repeat split.
Qed.

(** X19. With nobody waiting and a streamer available whose address and port
    form no URL, the handler of a connecting client throws, and it does so
    after it has taken the new session off the queue and allocated the
    streamer: the session is left with an open client socket that was sent
    the waiting notice only, without worker leg and out of the queue, and
    the streamer is left allocated with no socket opened to it. *)
Theorem connect_throws clk g w record :
  queue g = [] → nextAvailable (clk 0) g = Some w →
  workers g !! w = Some record →
  valid_url (address record) (port record) = false →
  throws g (ClientConnection clk) = true ∧
  queue (step g (ClientConnection clk)) = [] ∧
  streams (step g (ClientConnection clk)) = streams g ∧
  workers (step g (ClientConnection clk)) !! w = Some (set_allocated true record) ∧
  ∃ pl,
    players (step g (ClientConnection clk)) !! length (players g) = Some pl ∧
    stream pl = None ∧
    readyState (ws pl) = OPEN ∧
    sent (ws pl) = [PNotice waiting_notice] ∧
    onDisconnect pl = [QueueDelete; FreeServer w].
Proof.
  intros Hq Hn Hrec Hurl. destruct (connect_assigns clk g w Hq Hn) as [-> ->].
  set (g2 := {| debug := debug g; workers := workers g; pool := pool g;
                queue := [length (players g)];
                players := players g ++ [on_disconnect QueueDelete newVirtualPlayer];
                streams := streams g |}).
  assert (client_open g2 (length (players g)) = true) as Ho
    by (unfold client_open; simpl; by rewrite lookup_app_r, Nat.sub_diag by lia).
  assert (connectStreamer_throws w g2 = true) as Ht
    by (unfold connectStreamer_throws; simpl; by rewrite Hrec, Hurl).
  split; [by rewrite assignPlayer_throws_eq, Ho, Ht|].
  rewrite assignPlayer_thrown by done. simpl. split.
  { unfold queue_delete. rewrite filter_cons, decide_False; [reflexivity|].
    intros H. by apply H. }
  split; [reflexivity|].
  split; [by rewrite list_lookup_alter_eq, Hrec|].
  eexists. rewrite list_lookup_alter_eq, lookup_app_r, Nat.sub_diag by lia. simpl.
  split; [reflexivity|]. by repeat split.
Qed.

(** X5. With no streamer available, a connecting client is put at the end of
    the queue and nothing else changes: no record of the pool, no worker
    leg, no other player. *)
Theorem connect_without_streamer clk g :
  reachable g → nextAvailable (clk 0) g = None →
  queue (step g (ClientConnection clk)) = queue g ++ [length (players g)] ∧
  players (step g (ClientConnection clk)) =
    players g ++ [on_disconnect QueueDelete newVirtualPlayer] ∧
  workers (step g (ClientConnection clk)) = workers g ∧
  pool (step g (ClientConnection clk)) = pool g ∧
  streams (step g (ClientConnection clk)) = streams g.
Proof.
  intros Hr Hn. apply reachable_Inv in Hr as HI.
  assert (queue_add (length (players g)) (queue g) = queue g ++ [length (players g)])
    as Hadd.
  { unfold queue_add. rewrite decide_False; [reflexivity|].
    intros Hin. destruct (inv_queue g HI _ Hin) as [pl Hpl].
    apply lookup_lt_Some in Hpl. lia. }
  change (step g (ClientConnection clk)) with
    (connectWaitingPlayers clk
       {| debug := debug g; workers := workers g; pool := pool g;
          queue := queue_add (length (players g)) (queue g);
          players := players g ++ [on_disconnect QueueDelete newVirtualPlayer];
          streams := streams g |}).
  rewrite Hadd. unfold connectWaitingPlayers. cbn [queue].
  rewrite length_app, Nat.add_1_r.
  destruct (queue g ++ [length (players g)]) as [|p rest] eqn:Hq.
  { by destruct (queue g). }
  cbn [dequeue].
  change (nextAvailable (clk 0) _) with (nextAvailable (clk 0) g).
  rewrite Hn. repeat split.
Qed.

(** ** Players and their worker legs *)

Lemma Legs_update_player p f g :
  (∀ pl, stream (f pl) = stream pl ∧ onDisconnect (f pl) = onDisconnect pl) →
  Legs g → Legs (update_player p f g).
Proof.
  intros Hf [HL HS]. split; simpl.
  - intros q pl' s Hq Hs. rewrite list_lookup_alter in Hq.
    destruct (decide (p = q)) as [->|]; [|eauto].
    destruct (players g !! q) as [pl|] eqn:Hpl; [|discriminate].
    injection Hq as <-. destruct (Hf pl) as [H1 H2]. rewrite H1 in Hs.
    rewrite H2. eauto.
  - intros s ss Hs Hlive. destruct (HS s ss Hs Hlive) as (pl & Hpl & Hst).
    rewrite list_lookup_alter. destruct (decide (p = owner ss)) as [->|]; [|eauto].
    rewrite Hpl. simpl. eexists. split; [reflexivity|].
    by destruct (Hf pl) as [-> _].
Qed.

Lemma Legs_update_stream s f g :
  (∀ ss, streams g !! s = Some ss →
     owner (f ss) = owner ss ∧ backend (f ss) = backend ss ∧
     (streamState (f ss) ≠ CLOSED → streamState ss ≠ CLOSED)) →
  Legs g → Legs (update_stream s f g).
Proof.
  intros Hf [HL HS]. split; simpl.
  - intros p pl s' Hp Hs'. destruct (HL p pl s' Hp Hs') as (ss & Hss & Ho & Hin).
    rewrite list_lookup_alter. destruct (decide (s = s')) as [->|]; [|eauto].
    rewrite Hss. simpl. destruct (Hf ss Hss) as (H1 & H2 & _).
    eexists. split; [reflexivity|]. rewrite H1, H2. auto.
  - intros s' ss' Hs' Hlive. rewrite list_lookup_alter in Hs'.
    destruct (decide (s = s')) as [->|]; [|eauto].
    destruct (streams g !! s') as [ss|] eqn:Hss; [|discriminate].
    injection Hs' as <-. destruct (Hf ss eq_refl) as (H1 & _ & H3).
    rewrite H1. apply (HS s' ss Hss). auto.
Qed.

Lemma Legs_frame g g' :
  players g' = players g → streams g' = streams g → Legs g → Legs g'.
Proof. intros Hp Hs [HL HS]. split; rewrite Hp, Hs; assumption. Qed.

Lemma assignPlayer_Legs p server g :
  assignPlayer_throws p server g = false →
  Inv g → p ∈ queue g → Legs g → Legs (assignPlayer p server g).
Proof.
  intros Hret HI Hin [HL HS].
  destruct (assignPlayer_returns p server g Hret) as [Ho|[Ho Ht]].
  { rewrite assignPlayer_closed by done. by split. }
  rewrite assignPlayer_open by done.
  destruct (inv_queue g HI p Hin) as [pl Hpl].
  destruct (inv_player g HI p pl Hpl) as [K1 _ _]. destruct (K1 Hin) as [Hnone _].
  destruct (assigned_fields g server pl) as (F1 & _ & F3 & _).
  split; simpl.
  - intros q pl' s Hq Hs. rewrite list_lookup_alter in Hq.
    destruct (decide (p = q)) as [->|].
    + rewrite Hpl in Hq. injection Hq as <-. rewrite F1 in Hs. injection Hs as <-.
      exists (new_stream q server).
      split; [by rewrite lookup_app_r, Nat.sub_diag by lia|].
      split; [reflexivity|]. rewrite F3. apply in_or_app. right. by left.
    + destruct (HL q pl' s Hq Hs) as (ss & Hss & Ho' & Hin').
      exists ss. split; [by apply lookup_app_l_Some|auto].
  - intros s ss Hs Hlive. apply lookup_app_Some in Hs as [Hs|[Hlen Hs]].
    + destruct (HS s ss Hs Hlive) as (pl' & Hpl' & Hst).
      rewrite list_lookup_alter. destruct (decide (p = owner ss)) as [->|]; [|eauto].
      congruence.
    + apply list_lookup_singleton_Some in Hs as [Hk <-]. simpl.
      rewrite list_lookup_alter_eq, Hpl. simpl. eexists. split; [reflexivity|].
      rewrite F1. f_equal. lia.
Qed.

Lemma dequeue_Legs clk waiting : ∀ i g,
  dequeue_throws clk i waiting g = false →
  Inv g → queue g = waiting → Legs g → Legs (dequeue clk i waiting g).
Proof.
  induction waiting as [|p rest IH]; intros i g Hret HI Hq HL; simpl in *;
    [exact HL|].
  destruct (nextAvailable (clk i) g) as [server|]; [|exact HL].
  destruct (assignPlayer_throws p server g) eqn:Ht; [discriminate|].
  apply IH.
  - exact Hret.
  - by apply assignPlayer_Inv.
  - rewrite queue_assignPlayer, Hq. apply queue_delete_head.
    rewrite <- Hq. apply HI.
  - apply assignPlayer_Legs; [exact Ht|exact HI| |exact HL]. rewrite Hq. left.
Qed.

Lemma connectWaitingPlayers_Legs clk g :
  connectWaitingPlayers_throws clk g = false →
  Inv g → Legs g → Legs (connectWaitingPlayers clk g).
Proof.
  unfold connectWaitingPlayers, connectWaitingPlayers_throws. intros Hret HI HL.
  destruct (length (queue g)); [exact HL|]. by apply dequeue_Legs.
Qed.

(** The state in which [onClientConnection] starts its drain. *)
Lemma enqueue_Inv g :
  Inv g →
  Inv {| debug := debug g; workers := workers g; pool := pool g;
         queue := queue_add (length (players g)) (queue g);
         players := players g ++ [on_disconnect QueueDelete newVirtualPlayer];
         streams := streams g |}.
Proof.
  intros HI.
  apply (Inv_update g _ (length (players g)) HI); simpl.
  - apply NoDup_queue_add, HI.
  - intros q Hq. rewrite elem_of_queue_add. tauto.
  - intros q Hq. destruct (decide (q < length (players g))).
    + by apply lookup_app_l.
    + rewrite !lookup_ge_None_2; [reflexivity|lia|rewrite length_app; simpl; lia].
  - intros _. rewrite lookup_app_r, Nat.sub_diag by lia. by eexists.
  - intros pl' Hl. rewrite lookup_app_r, Nat.sub_diag in Hl by lia.
    injection Hl as <-. split.
    + split; simpl; [split; [reflexivity|discriminate]| |reflexivity].
      intros _ _. apply elem_of_queue_add. by left.
    + intros pl Hl. apply lookup_lt_Some in Hl. lia.
  - intros [pl Hl]. apply lookup_lt_Some in Hl. lia.
  - intros s ss' Hl. left. eauto.
Qed.

Lemma step_Legs g e : throws g e = false → Inv g → Legs g → Legs (step g e).
Proof.
  intros Hret HI HL. by_event e.
  - apply connectWaitingPlayers_Legs; [exact Hret|exact (enqueue_Inv g HI)|].
    destruct HL as [HL HS]. split; simpl.
    + intros q pl s Hq Hs. apply lookup_app_Some in Hq as [Hq|[_ Hq]]; [eauto|].
      apply list_lookup_singleton_Some in Hq as [_ <-]. discriminate.
    + intros s ss Hs Hlive. destruct (HS s ss Hs Hlive) as (pl & Hpl & Hst).
      exists pl. split; [by apply lookup_app_l_Some|exact Hst].
  - by apply connectWaitingPlayers_Legs.
  - destruct (client_live g p); [|exact HL]. by apply Legs_update_player.
  - destruct (client_live g p); [|exact HL]. apply Legs_update_player; [|exact HL].
    intros pl. unfold _clientHeartbeat. by destruct (negb (alive (ws pl))).
  - destruct (client_live g p); [|exact HL]. unfold onClientMessage.
    destruct (players g !! p) as [pl|]; [|exact HL].
    destruct (stream_open g (stream pl)); [|exact HL].
    destruct (stream pl); [|exact HL]. by apply Legs_update_stream.
  - destruct (client_open g p); [|exact HL]. by apply Legs_update_player.
  - destruct (client_live g p) eqn:Hl; [|exact HL].
    apply client_live_Some in Hl as (pl & Hp & _).
    rewrite (onClientClose_eq p pl) by done.
    assert (Legs (update_player p closed_ws g)) as HL1
      by (by apply Legs_update_player).
    destruct (stream pl) as [s0|].
    + apply (Legs_frame (update_stream s0 closing_stream (update_player p closed_ws g)));
        [reflexivity..|].
      apply Legs_update_stream; [|exact HL1]. intros ss _. simpl.
      repeat split. by destruct (streamState ss).
    + by apply (Legs_frame (update_player p closed_ws g)).
  - destruct (stream_live g s) as [ss|] eqn:Hs; [|exact HL].
    apply stream_live_Some in Hs as [Hs _].
    destruct (streamState ss) eqn:Hst; try exact HL.
    apply Legs_update_stream; [|exact HL]. intros ss' Hss'. simpl.
    repeat split. intros _. congruence.
  - destruct (stream_live g s) as [ss|]; [|exact HL]. unfold onStreamerMessage.
    destruct (client_open g (owner ss)); [|exact HL]. by apply Legs_update_player.
  - destruct (stream_live g s) as [ss|]; [|exact HL]. by apply (Legs_frame g).
  - destruct (stream_live g s) as [ss|] eqn:Hs; [|exact HL].
    apply stream_live_Some in Hs as [Hs Hlive].
    unfold onStreamClose. rewrite handleStreamerClose_eq. simpl.
    destruct HL as [HL HS]. split; simpl.
    + intros q pl' s' Hq Hs'. rewrite list_lookup_alter in Hq.
      destruct (decide (owner ss = q)) as [<-|].
      * destruct (players g !! owner ss); [|discriminate].
        injection Hq as <-. discriminate.
      * destruct (HL q pl' s' Hq Hs') as (ss' & Hss' & Ho & Hin).
        rewrite list_lookup_alter. destruct (decide (s = s')) as [->|]; [|eauto].
        rewrite Hss'. simpl. eauto.
    + intros s' ss' Hs' Hlive'. rewrite list_lookup_alter in Hs'.
      destruct (decide (s = s')) as [->|Hne].
      * destruct (streams g !! s'); [|discriminate]. injection Hs' as <-.
        by destruct Hlive'.
      * destruct (HS s' ss' Hs' Hlive') as (pl & Hpl & Hst).
        rewrite list_lookup_alter.
        destruct (decide (owner ss = owner ss')) as [Heq|]; [|eauto].
        destruct (HS s ss Hs Hlive) as (pl0 & Hpl0 & Hst0).
        rewrite Heq in Hpl0. congruence.
  - by apply (Legs_frame g).
  - by apply (Legs_frame g).
  - by apply (Legs_frame g).
Qed.

Lemma reachable_Legs g : reachable g → Legs g.
Proof.
  induction 1 as [dbg|g e Hr IH Hret].
  - split; simpl; intros; discriminate.
  - apply step_Legs; [exact Hret|by apply reachable_Inv|exact IH].
Qed.

(** X6. A session never has two worker legs at a time: in every reachable state
    the sockets a player made are all closed but at most one, and that one
    is the player's [stream]. *)
Theorem single_worker_leg g s s' ss ss' :
  reachable g →
  streams g !! s = Some ss → streamState ss ≠ CLOSED →
  streams g !! s' = Some ss' → streamState ss' ≠ CLOSED →
  owner ss = owner ss' →
  s = s' ∧ ∃ pl, players g !! owner ss = Some pl ∧ stream pl = Some s.
Proof.
  intros Hr Hs Hl Hs' Hl' Ho. destruct (reachable_Legs g Hr) as [_ HS].
  destruct (HS s ss Hs Hl) as (pl & Hpl & Hst).
  destruct (HS s' ss' Hs' Hl') as (pl' & Hpl' & Hst').
  rewrite <- Ho in Hpl'. split; [congruence|eauto].
Qed.

(** ** The client leg closes *)

Lemma free_listeners_keep ls : ∀ (w : list WorkerRecord) r rec,
  w !! r = Some rec → allocated rec = false →
  ∃ rec', fold_left free_listener ls w !! r = Some rec' ∧ allocated rec' = false.
Proof.
  induction ls as [|l ls IH]; intros w r rec Hr Ha; simpl; [eauto|].
  destruct l as [|server]; simpl; [eauto|].
  destruct (decide (server = r)) as [->|Hne].
  - apply (IH _ r (set_allocated false rec)); [|reflexivity].
    by rewrite list_lookup_alter_eq, Hr.
  - apply (IH _ r rec); [|exact Ha]. by rewrite list_lookup_alter_ne.
Qed.

Lemma free_listeners_free ls : ∀ (w : list WorkerRecord) r,
  In (FreeServer r) ls → r < length w →
  ∃ rec', fold_left free_listener ls w !! r = Some rec' ∧ allocated rec' = false.
Proof.
  induction ls as [|l ls IH]; intros w r Hin Hr; [destruct Hin|].
  destruct Hin as [->|Hin]; simpl.
  - apply lookup_lt_is_Some in Hr as [rec Hrec].
    apply (free_listeners_keep ls _ r (set_allocated false rec)); [|reflexivity].
    by rewrite list_lookup_alter_eq, Hrec.
  - apply IH; [exact Hin|]. destruct l; simpl; [exact Hr|by rewrite length_alter].
Qed.

(** X7. When the client socket of a session closes, the session leaves the
    queue (the others keep their order), its socket state is closed, and no
    other player changes. If the session has a worker leg, the streamer of
    that leg is free afterwards and the leg is being closed. *)
Theorem client_close g p pl :
  reachable g → players g !! p = Some pl → readyState (ws pl) ≠ CLOSED →
  queue (step g (ClientClose p)) = queue_delete p (queue g) ∧
  ¬ p ∈ queue (step g (ClientClose p)) ∧
  players (step g (ClientClose p)) = alter closed_ws p (players g) ∧
  pool (step g (ClientClose p)) = pool g ∧
  ∀ s, stream pl = Some s →
    ∃ ss ss' rec,
      streams g !! s = Some ss ∧
      streams (step g (ClientClose p)) !! s = Some ss' ∧
      streamState ss' = closing (streamState ss) ∧
      isOpen (streamState ss') = false ∧
      workers (step g (ClientClose p)) !! backend ss = Some rec ∧
      allocated rec = false.
Proof.
  intros Hr Hp Hlive. apply reachable_Inv in Hr as HI.
  assert (client_live g p = true) as Hl by (apply client_live_Some; eauto).
  simpl. rewrite Hl, (onClientClose_eq p pl) by done. simpl.
  rewrite (ok_listener g p pl (inv_player g HI p pl Hp)).
  split; [reflexivity|]. split; [rewrite elem_of_queue_delete; tauto|].
  split; [reflexivity|]. split; [reflexivity|].
  intros s Hs. rewrite Hs.
  destruct (legs_linked g (reachable_Legs g Hr) p pl s Hp Hs) as (ss & Hss & _ & Hin).
  destruct (free_listeners_free (onDisconnect pl) (workers g) (backend ss) Hin)
    as (rec & Hrec & Ha).
  { by apply (reachable_Backed g Hr s ss). }
  exists ss, (closing_stream ss), rec.
  split; [exact Hss|]. split; [by rewrite list_lookup_alter_eq, Hss|].
  split; [reflexivity|]. split; [simpl; by destruct (streamState ss)|].
  auto.
Qed.

Lemma dequeue_closed_untouched clk waiting p : ∀ i g,
  client_open g p = false →
  players (dequeue clk i waiting g) !! p = players g !! p.
Proof.
  induction waiting as [|q rest IH]; intros i g Ho; simpl; [reflexivity|].
  destruct (nextAvailable (clk i) g) as [server|]; [|reflexivity].
  assert (players (assignPlayer q server g) !! p = players g !! p) as Hone.
  { destruct (decide (p = q)) as [->|Hne].
    - by rewrite assignPlayer_closed.
    - by apply players_assignPlayer_ne. }
  destruct (assignPlayer_throws q server g); [exact Hone|].
  by rewrite IH by (by rewrite client_open_assignPlayer).
Qed.

Lemma queue_dequeue clk waiting q : ∀ i g,
  q ∈ queue (dequeue clk i waiting g) → q ∈ queue g.
Proof.
  induction waiting as [|p rest IH]; intros i g; simpl; [done|].
  destruct (nextAvailable (clk i) g) as [server|]; [|done].
  assert (q ∈ queue (assignPlayer p server g) → q ∈ queue g) as Hone.
  { rewrite queue_assignPlayer, elem_of_queue_delete. tauto. }
  destruct (assignPlayer_throws p server g); [exact Hone|].
  intros Hin. by apply Hone, (IH (S i)).
Qed.

Lemma queue_connectWaitingPlayers clk g q :
  q ∈ queue (connectWaitingPlayers clk g) → q ∈ queue g.
Proof.
  unfold connectWaitingPlayers. destruct (length (queue g)); [done|].
  apply queue_dequeue.
Qed.

(** No handler queues a player whose client socket is closed, whether it
    returns or throws. *)
Lemma step_not_queued g e p pl :
  players g !! p = Some pl → readyState (ws pl) = CLOSED →
  ¬ p ∈ queue g → ¬ p ∈ queue (step g e).
Proof.
  intros Hp Hc Hnq Hin. apply Hnq. clear Hnq. revert Hin.
  destruct e as [clk|clk|q|q|q msg|q|q|s|s msg|s|s|c]; simpl.
  - unfold onClientConnection. intros Hin.
    apply queue_connectWaitingPlayers in Hin. simpl in Hin.
    apply elem_of_queue_add in Hin as [->|Hin]; [|exact Hin].
    apply lookup_lt_Some in Hp. lia.
  - apply queue_connectWaitingPlayers.
  - by destruct (client_live g q).
  - by destruct (client_live g q).
  - destruct (client_live g q); [|done]. unfold onClientMessage.
    destruct (players g !! q) as [pl0|]; [|done].
    destruct (stream_open g (stream pl0)); [|done]. by destruct (stream pl0).
  - by destruct (client_open g q).
  - destruct (client_live g q) eqn:Hq; [|done].
    apply client_live_Some in Hq as (pl0 & Hq & _).
    rewrite (onClientClose_eq q pl0) by done. simpl.
    destruct (deletes (onDisconnect pl0)); [|done].
    rewrite elem_of_queue_delete. tauto.
  - destruct (stream_live g s) as [ss|]; [|done]. by destruct (streamState ss).
  - destruct (stream_live g s) as [ss|]; [|done]. unfold onStreamerMessage.
    by destruct (client_open g (owner ss)).
  - by destruct (stream_live g s).
  - destruct (stream_live g s) as [ss|]; [|done].
    unfold onStreamClose. rewrite handleStreamerClose_eq. simpl.
    rewrite elem_of_requeued. simpl. intros [Hin|(-> & pl0 & Hp0 & Ho & _)]; [done|].
    rewrite Hp in Hp0. injection Hp0 as <-. congruence.
  - by destruct c.
Qed.

Lemma step_closed g e p pl :
  players g !! p = Some pl → readyState (ws pl) = CLOSED →
  ∃ pl', players (step g e) !! p = Some pl' ∧
         readyState (ws pl') = CLOSED ∧
         (stream pl' = stream pl ∨ stream pl' = None).
Proof.
  intros Hp Hc.
  assert (client_open g p = false) as Ho by (unfold client_open; by rewrite Hp, Hc).
  assert (client_live g p = false) as Hl by (unfold client_live; by rewrite Hp, Hc).
  assert (∀ g', players g' !! p = Some pl →
            ∃ pl', players g' !! p = Some pl' ∧ readyState (ws pl') = CLOSED ∧
                   (stream pl' = stream pl ∨ stream pl' = None)) as Hsame
    by (intros g' Hg'; exists pl; auto).
  destruct e as [clk|clk|q|q|q msg|q|q|s|s msg|s|s|c]; simpl.
  - apply Hsame. unfold onClientConnection, connectWaitingPlayers. simpl.
    destruct (length (queue_add (length (players g)) (queue g))).
    + simpl. by apply lookup_app_l_Some.
    + rewrite dequeue_closed_untouched.
      * simpl. by apply lookup_app_l_Some.
      * unfold client_open. simpl.
        by rewrite (lookup_app_l_Some _ _ _ _ Hp), Hc.
  - apply Hsame. unfold connectWaitingPlayers. destruct (length (queue g)); [done|].
    by rewrite dequeue_closed_untouched.
  - apply Hsame. destruct (decide (q = p)) as [->|]; [by rewrite Hl|].
    destruct (client_live g q); [|done]. simpl. by rewrite list_lookup_alter_ne.
  - apply Hsame. destruct (decide (q = p)) as [->|]; [by rewrite Hl|].
    destruct (client_live g q); [|done]. simpl. by rewrite list_lookup_alter_ne.
  - apply Hsame. destruct (client_live g q); [|done]. unfold onClientMessage.
    destruct (players g !! q) as [pl0|]; [|done].
    destruct (stream_open g (stream pl0)); [|done]. by destruct (stream pl0).
  - apply Hsame. destruct (decide (q = p)) as [->|]; [by rewrite Ho|].
    destruct (client_open g q); [|done]. simpl. by rewrite list_lookup_alter_ne.
  - apply Hsame. destruct (decide (q = p)) as [->|]; [by rewrite Hl|].
    destruct (client_live g q) eqn:Hq; [|done].
    apply client_live_Some in Hq as (pl0 & Hq & _).
    rewrite (onClientClose_eq q pl0) by done. simpl.
    by rewrite list_lookup_alter_ne.
  - apply Hsame. destruct (stream_live g s) as [ss|]; [|done].
    by destruct (streamState ss).
  - apply Hsame. destruct (stream_live g s) as [ss|]; [|done].
    unfold onStreamerMessage.
    destruct (decide (owner ss = p)) as [->|]; [by rewrite Ho|].
    destruct (client_open g (owner ss)); [|done]. simpl.
    by rewrite list_lookup_alter_ne.
  - apply Hsame. by destruct (stream_live g s).
  - destruct (stream_live g s) as [ss|]; [|by apply Hsame].
    unfold onStreamClose. rewrite handleStreamerClose_eq. simpl.
    rewrite list_lookup_alter.
    destruct (decide (owner ss = p)) as [->|]; [|by apply Hsame].
    rewrite Hp. simpl. eexists. split; [reflexivity|]. auto.
  - apply Hsame. by destruct c.
Qed.

(** X8. Disconnected is final: once the client socket of a session is closed it
    stays closed whatever happens next, the session is never queued again,
    and it gets no new worker leg (its stream stays what it was until the
    close of that leg clears it). *)
Theorem disconnected_is_final g p pl es :
  reachable g → players g !! p = Some pl → readyState (ws pl) = CLOSED →
  ∃ pl', players (run g es) !! p = Some pl' ∧
         readyState (ws pl') = CLOSED ∧
         (stream pl' = stream pl ∨ stream pl' = None) ∧
         ¬ p ∈ queue (run g es).
Proof.
  intros Hr Hp Hc.
  assert (¬ p ∈ queue g) as Hnq.
  { intros Hin. destruct (inv_player g (reachable_Inv g Hr) p pl Hp) as [K _ _].
    by destruct (K Hin). }
  clear Hr. revert g pl Hp Hc Hnq.
  induction es as [|e es IH]; intros g pl Hp Hc Hnq.
  - exists pl. repeat split; auto.
  - destruct (step_closed g e p pl Hp Hc) as (pl1 & Hp1 & Hc1 & Hs1).
    destruct (IH (step g e) pl1) as (pl' & H1 & H2 & H3 & H4);
      [exact Hp1|exact Hc1|by apply (step_not_queued g e p pl)|].
    exists pl'. repeat split; auto.
    destruct H3 as [->|]; [|by right]. exact Hs1.
Qed.

(** ** What the client is told *)

Lemma last_notice_notice l n : last_notice (l ++ [PNotice n]) = Some n.
Proof.
  induction l as [|x l IH]; simpl; [reflexivity|]. by rewrite IH.
Qed.

Lemma last_notice_relay l msg : last_notice (l ++ [PRelay msg]) = last_notice l.
Proof.
  induction l as [|x l IH]; simpl; [reflexivity|]. by rewrite IH.
Qed.

Lemma told_sendNotice d pl :
  (∃ extra, sent (ws pl) = PNotice waiting_notice :: extra) →
  told (sendNotice d pl).
Proof.
  intros [extra He]. split.
  - exists (extra ++ [PNotice (notice pl d)]). simpl. by rewrite He.
  - exists (notice pl d). simpl. rewrite last_notice_notice.
    repeat split. by destruct (stream pl).
Qed.

Lemma told_same (f : VirtualPlayer → VirtualPlayer) pl :
  sent (ws (f pl)) = sent (ws pl) → stream (f pl) = stream pl →
  told pl → told (f pl).
Proof. intros Hs Hst. unfold told. by rewrite Hs, Hst. Qed.

Lemma told_assigned g server pl :
  is_Some (workers g !! server) → told pl → told (assigned g server pl).
Proof.
  intros [rec Hrec] [Hhead _]. unfold assigned.
  rewrite list_lookup_alter_eq, Hrec. simpl.
  by apply told_sendNotice.
Qed.

Lemma Told_alter g g' p f :
  players g' = alter f p (players g) →
  (∀ pl, told pl → told (f pl)) → Told g → Told g'.
Proof.
  intros Hp Hf HT q pl' Hq. rewrite Hp, list_lookup_alter in Hq.
  destruct (decide (p = q)) as [->|]; [|eauto].
  destruct (players g !! q) as [pl|] eqn:Hpl; [|discriminate].
  injection Hq as <-. eauto.
Qed.

Lemma assignPlayer_Told p server g :
  is_Some (workers g !! server) → Told g → Told (assignPlayer p server g).
Proof.
  intros Hs HT. assign_cases p server g Ho Ht.
  - apply (Told_alter g _ p (registered server)); [reflexivity| |exact HT].
    intros pl. by apply told_same.
  - apply (Told_alter g _ p (assigned g server)); [reflexivity| |exact HT].
    intros pl. by apply told_assigned.
  - exact HT.
Qed.

Lemma dequeue_Told clk waiting : ∀ i g, Told g → Told (dequeue clk i waiting g).
Proof.
  induction waiting as [|p rest IH]; intros i g HT; simpl; [exact HT|].
  destruct (nextAvailable (clk i) g) as [server|] eqn:Hn; [|exact HT].
  assert (Told (assignPlayer p server g)) as HT'.
  { apply assignPlayer_Told; [|exact HT].
    apply scan_Some in Hn as (_ & rec & Hrec & _). by exists rec. }
  destruct (assignPlayer_throws p server g); [exact HT'|by apply IH].
Qed.

Lemma connectWaitingPlayers_Told clk g : Told g → Told (connectWaitingPlayers clk g).
Proof.
  intros HT. unfold connectWaitingPlayers.
  destruct (length (queue g)); [exact HT|]. by apply dequeue_Told.
Qed.

Lemma step_Told g e : Told g → Told (step g e).
Proof.
  intros HT. by_event e.
  - apply connectWaitingPlayers_Told. intros q pl Hq. simpl in Hq.
    apply lookup_app_Some in Hq as [Hq|[_ Hq]]; [eauto|].
    apply list_lookup_singleton_Some in Hq as [_ <-].
    split; [by exists []|]. exists waiting_notice. by repeat split.
  - by apply connectWaitingPlayers_Told.
  - destruct (client_live g p); [|exact HT].
    apply (Told_alter g _ p onPong); [reflexivity| |exact HT].
    intros pl. by apply told_same.
  - destruct (client_live g p); [|exact HT].
    apply (Told_alter g _ p _clientHeartbeat); [reflexivity| |exact HT].
    intros pl. apply told_same; unfold _clientHeartbeat;
      by destruct (negb (alive (ws pl))).
  - destruct (client_live g p); [|exact HT]. unfold onClientMessage.
    destruct (players g !! p) as [pl|]; [|exact HT].
    destruct (stream_open g (stream pl)); [|exact HT].
    by destruct (stream pl).
  - destruct (client_open g p); [|exact HT].
    eapply (Told_alter g _ p); [reflexivity| |exact HT].
    intros pl. by apply told_same.
  - destruct (client_live g p) eqn:Hl; [|exact HT].
    apply client_live_Some in Hl as (pl & Hp & _).
    apply (Told_alter g _ p closed_ws); [by rewrite (onClientClose_eq p pl)| |exact HT].
    intros pl0. by apply told_same.
  - destruct (stream_live g s) as [ss|]; [|exact HT].
    by destruct (streamState ss).
  - destruct (stream_live g s) as [ss|]; [|exact HT]. unfold onStreamerMessage.
    destruct (client_open g (owner ss)); [|exact HT].
    eapply (Told_alter g _ (owner ss)); [reflexivity| |exact HT].
    intros pl [[extra He] (n & Hn & Hrest)]. split; simpl.
    + exists (extra ++ [PRelay msg]). by rewrite He.
    + exists n. by rewrite last_notice_relay.
  - by destruct (stream_live g s).
  - destruct (stream_live g s) as [ss|]; [|exact HT]. unfold onStreamClose.
    apply (Told_alter g _ (owner ss) dropped); [by rewrite handleStreamerClose_eq| |exact HT].
    intros pl [Hhead _]. unfold dropped. by apply told_sendNotice.
  - exact HT.
  - exact HT.
  - exact HT.
Qed.

(** X9. The client is always told where it stands: in every reachable
    state the first payload handed to a session's client socket is the
    waiting notice, and the last notice handed to it has the tag
    "matchmaker" and says matched exactly when the session has a worker leg
    now, queued exactly when it has none. *)
Theorem last_notice_tells g p pl :
  reachable g → players g !! p = Some pl →
  (∃ extra, sent (ws pl) = PNotice waiting_notice :: extra) ∧
  ∃ n, last_notice (sent (ws pl)) = Some n ∧
       type n = "matchmaker"%string ∧
       queued n = negb (truthy (stream pl)) ∧
       matched n = truthy (stream pl).
Proof.
  intros Hr. revert p pl. change (Told g).
  induction Hr as [dbg|g e _ IH _]; [|by apply step_Told].
  intros p pl Hp. discriminate.
Qed.

(** ** Relay *)

Lemma run_fixed g es : Forall (λ e, step g e = g) es → run g es = g.
Proof.
  induction 1 as [|e es He _ IH]; [reflexivity|].
  unfold run in *. simpl. by rewrite He.
Qed.

(** X10. Messages of the worker leg are handed to the client socket unchanged
    and in order while that socket is open, and nothing else changes; when
    the client socket is not open they are dropped. *)
Theorem relay_to_client msgs : ∀ g s ss pl,
  streams g !! s = Some ss → streamState ss ≠ CLOSED →
  players g !! owner ss = Some pl →
  (readyState (ws pl) = OPEN →
     (∃ pl', players (run g (StreamMessage s <$> msgs)) !! owner ss = Some pl' ∧
             sent (ws pl') = sent (ws pl) ++ (PRelay <$> msgs) ∧
             stream pl' = stream pl ∧ readyState (ws pl') = OPEN) ∧
     (∀ q, q ≠ owner ss →
        players (run g (StreamMessage s <$> msgs)) !! q = players g !! q) ∧
     queue (run g (StreamMessage s <$> msgs)) = queue g ∧
     workers (run g (StreamMessage s <$> msgs)) = workers g ∧
     streams (run g (StreamMessage s <$> msgs)) = streams g) ∧
  (readyState (ws pl) ≠ OPEN → run g (StreamMessage s <$> msgs) = g).
Proof.
  induction msgs as [|m msgs IH]; intros g s ss pl Hs Hlive Hp.
  - split; [|reflexivity]. intros Ho. simpl.
    split; [exists pl; by rewrite app_nil_r|]. auto.
  - assert (stream_live g s = Some ss) as Hsl by (by apply stream_live_Some).
    split.
    + intros Ho.
      assert (client_open g (owner ss) = true) as Hco
        by (apply client_open_Some; eauto).
      change (run g (StreamMessage s <$> m :: msgs))
        with (run (step g (StreamMessage s m)) (StreamMessage s <$> msgs)).
      assert (step g (StreamMessage s m) =
              update_player (owner ss) (λ pl, set_ws (send (PRelay m) (ws pl)) pl) g)
        as Hstep.
      { simpl. rewrite Hsl. unfold onStreamerMessage. by rewrite Hco. }
      rewrite Hstep.
      destruct (IH (update_player (owner ss)
                      (λ pl, set_ws (send (PRelay m) (ws pl)) pl) g)
                   s ss (set_ws (send (PRelay m) (ws pl)) pl))
        as [Hopen _]; [exact Hs|exact Hlive| |].
      { simpl. by rewrite list_lookup_alter_eq, Hp. }
      destruct (Hopen Ho) as ((pl' & H1 & H2 & H3 & H4) & K1 & K2 & K3 & K4).
      split; [|split; [|auto]].
      * exists pl'. split; [exact H1|]. split; [|auto].
        rewrite H2. simpl. by rewrite <- app_assoc.
      * intros q Hq. rewrite K1 by done. simpl. by rewrite list_lookup_alter_ne.
    + intros Hno. apply run_fixed. apply Forall_fmap, Forall_forall.
      intros m' _. simpl. rewrite Hsl. unfold onStreamerMessage.
      unfold client_open. rewrite Hp. by destruct (readyState (ws pl)).
Qed.

(** X11. Messages of the client are handed to the session's worker leg unchanged
    and in order while that leg is open, and nothing else changes; while
    the leg is connecting or closing, or when there is none, they are
    dropped: nothing is kept for later. *)
Theorem relay_to_streamer msgs : ∀ g p pl,
  players g !! p = Some pl → readyState (ws pl) ≠ CLOSED →
  (∀ s ss, stream pl = Some s → streams g !! s = Some ss → streamState ss = OPEN →
     (∃ ss', streams (run g (ClientMessage p <$> msgs)) !! s = Some ss' ∧
             forwarded ss' = forwarded ss ++ msgs ∧
             streamState ss' = OPEN ∧ owner ss' = owner ss ∧
             backend ss' = backend ss) ∧
     (∀ s', s' ≠ s →
        streams (run g (ClientMessage p <$> msgs)) !! s' = streams g !! s') ∧
     players (run g (ClientMessage p <$> msgs)) = players g ∧
     queue (run g (ClientMessage p <$> msgs)) = queue g ∧
     workers (run g (ClientMessage p <$> msgs)) = workers g) ∧
  (stream_open g (stream pl) = false → run g (ClientMessage p <$> msgs) = g).
Proof.
  induction msgs as [|m msgs IH]; intros g p pl Hp Hlive.
  - split; [|reflexivity]. intros s ss Hst Hs Ho. simpl.
    split; [exists ss; by rewrite app_nil_r|]. auto.
  - assert (client_live g p = true) as Hcl by (apply client_live_Some; eauto).
    split.
    + intros s ss Hst Hs Ho.
      change (run g (ClientMessage p <$> m :: msgs))
        with (run (step g (ClientMessage p m)) (ClientMessage p <$> msgs)).
      assert (step g (ClientMessage p m) = update_stream s (forward m) g) as Hstep.
      { simpl. rewrite Hcl. unfold onClientMessage. rewrite Hp.
        unfold stream_open. by rewrite Hst, Hs, Ho. }
      rewrite Hstep.
      destruct (IH (update_stream s (forward m) g) p pl Hp Hlive) as [Hopen _].
      destruct (Hopen s (forward m ss) Hst) as ((ss' & H1 & H2 & H3 & H4 & H5) & K1 & K2 & K3 & K4).
      { simpl. by rewrite list_lookup_alter_eq, Hs. }
      { exact Ho. }
      split; [|split; [|auto]].
      * exists ss'. split; [exact H1|]. split; [|auto].
        rewrite H2. simpl. by rewrite <- app_assoc.
      * intros s' Hne. rewrite K1 by done. simpl. by rewrite list_lookup_alter_ne.
    + intros Hno. apply run_fixed. apply Forall_fmap, Forall_forall.
      intros m' _. simpl. rewrite Hcl. unfold onClientMessage. by rewrite Hp, Hno.
Qed.

(** ** The other gauges *)

Lemma filter_andb_length {A} (f h : A → bool) l :
  length (List.filter (λ x, f x && h x) l) ≤ length (List.filter h l).
Proof.
  induction l as [|x l IH]; simpl; [lia|].
  destruct (f x), (h x); simpl; lia.
Qed.

(** X13. The gauge of available streamers counts the ready streamers of the pool
    that have no client, whatever their allocation and last ping. So it
    never exceeds the number of ready streamers, and with the debug flag off
    it is at least 1 whenever the scan finds a streamer. *)
Theorem available_gauge g :
  (streamer_available_count g <= readyWorkers g)%Z ∧
  (∀ now r, debug g = false → nextAvailable now g = Some r →
     (1 <= streamer_available_count g)%Z).
Proof.
  split.
  - unfold streamer_available_count, readyWorkers. apply inj_le.
    apply (filter_andb_length (λ s, (numConnectedClients s =? 0)%Z) ready).
  - intros now r Hd Hn. unfold nextAvailable in Hn.
    apply scan_Some in Hn as (Hin & rec & Hrec & Ha).
    apply available_true in Ha as (Hz & _ & _ & [Hr|Hr]); [|congruence].
    unfold streamer_available_count.
    assert (In rec (List.filter
              (λ s, (numConnectedClients s =? 0)%Z && ready s) (pool_values g)))
      as Hin'.
    { apply filter_In. split.
      - apply list_elem_of_In, list_elem_of_omap. eauto.
      - by rewrite Hz, Hr. }
    destruct (List.filter _ (pool_values g)); [destruct Hin'|simpl; lia].
Qed.

(** ** The worker leg closes *)

(** X12. A session whose worker leg closes goes to the end of the queue if its
    client socket is open, behind every session already waiting, and is not
    queued if its client socket is not open; either way the leg is closed,
    the session has no stream, and the waiting sessions keep their order. *)
Theorem drop_requeues_last g s ss pl :
  reachable g →
  streams g !! s = Some ss → streamState ss ≠ CLOSED →
  players g !! owner ss = Some pl →
  stream pl = Some s ∧
  ¬ owner ss ∈ queue g ∧
  queue (step g (StreamClose s)) =
    (if isOpen (readyState (ws pl)) then queue g ++ [owner ss] else queue g) ∧
  (streamState <$> streams (step g (StreamClose s)) !! s) = Some CLOSED ∧
  (stream <$> players (step g (StreamClose s)) !! owner ss) = Some None.
Proof.
  intros Hr Hs Hlive Hp. apply reachable_Inv in Hr as HI.
  destruct (legs_single g (reachable_Legs g Hr) s ss Hs Hlive) as (pl' & Hp' & Hst).
  rewrite Hp in Hp'. injection Hp' as <-.
  assert (¬ owner ss ∈ queue g) as Hnq.
  { intros Hin. destruct (inv_player g HI _ pl Hp) as [K _ _].
    destruct (K Hin) as [Hnone _]. congruence. }
  split; [exact Hst|]. split; [exact Hnq|].
  simpl. rewrite (proj2 (stream_live_Some g s ss) (conj Hs Hlive)).
  unfold onStreamClose. rewrite handleStreamerClose_eq. simpl.
  rewrite !list_lookup_alter_eq, Hs, Hp. simpl.
  split; [|by split].
  unfold requeued. simpl. rewrite Hp.
  destruct (inv_stream g HI s ss Hs) as (pl0 & Hp0 & Hd).
  rewrite Hp in Hp0. injection Hp0 as <-.
  apply Nat.ltb_lt in Hd. rewrite Hd, andb_true_r.
  destruct (isOpen (readyState (ws pl))); [|reflexivity].
  unfold queue_add. by rewrite decide_False.
Qed.

(** ** The ping deadline of the worker leg *)

Lemma last_default {A} (x : A) rest d d' :
  List.last (x :: rest) d = List.last (x :: rest) d'.
Proof.
  revert x. induction rest as [|y rest IH]; intros x; [reflexivity|].
  change (List.last (y :: rest) d = List.last (y :: rest) d'). apply IH.
Qed.

Lemma last_cons_default {A} (t : A) rest d :
  List.last (t :: rest) d = List.last rest t.
Proof.
  destruct rest as [|x rest]; [reflexivity|].
  change (List.last (x :: rest) d = List.last (x :: rest) t). apply last_default.
Qed.

Lemma leg_pings_keep_open pings : ∀ last l,
  WorkerLeg.state l = OPEN →
  WorkerLeg.pingTimeout l = Some (last + WorkerLeg.grace)%Z →
  WorkerLeg.timely last pings →
  WorkerLeg.run l ((λ t, (t, WorkerLeg.Ping)) <$> pings) =
  {| WorkerLeg.state := OPEN;
     WorkerLeg.pingTimeout := Some (List.last pings last + WorkerLeg.grace)%Z |}.
Proof.
  induction pings as [|t rest IH]; intros last l Hs Hp Ht.
  - simpl. destruct l. simpl in *. by subst.
  - destruct Ht as [Hrange Ht]. unfold WorkerLeg.run in *. simpl fold_left.
    assert (WorkerLeg.handle l (t, WorkerLeg.Ping) =
            {| WorkerLeg.state := OPEN;
               WorkerLeg.pingTimeout := Some (t + WorkerLeg.grace)%Z |}) as ->.
    { unfold WorkerLeg.handle, WorkerLeg.elapse. simpl. rewrite Hp.
      destruct (Z.leb_spec (last + WorkerLeg.grace) t) as [|_]; [lia|].
      rewrite Hs. simpl. unfold WorkerLeg.pong. by rewrite Hs. }
    rewrite (IH t) by done.
    f_equal. f_equal. f_equal. symmetry. apply last_cons_default.
Qed.

(** X14. A worker leg that opens at [t0] and then gets its pings in time, each
    less than 31000 ms after the open or ping before it, is open at any
    moment less than 31000 ms after the last of them: the deadline has been
    pushed back every time and has not fired. *)
Theorem worker_leg_kept_open t0 pings now :
  WorkerLeg.timely t0 pings →
  (List.last pings t0 <= now < List.last pings t0 + 31000)%Z →
  WorkerLeg.elapse now
    (WorkerLeg.run WorkerLeg.connecting
       ((t0, WorkerLeg.Open) :: ((λ t, (t, WorkerLeg.Ping)) <$> pings))) =
  {| WorkerLeg.state := OPEN;
     WorkerLeg.pingTimeout := Some (List.last pings t0 + 31000)%Z |}.
Proof.
  intros Ht Hnow. unfold WorkerLeg.run. simpl fold_left.
  change (fold_left WorkerLeg.handle ?es ?l) with (WorkerLeg.run l es).
  rewrite (leg_pings_keep_open pings t0); [|reflexivity|reflexivity|exact Ht].
  unfold WorkerLeg.elapse, WorkerLeg.grace. simpl.
  change (30000 + 1000)%Z with 31000%Z.
  destruct (Z.leb_spec (List.last pings t0 + 31000) now) as [|_]; [lia|].
  reflexivity.
Qed.

Lemma leg_never_reopens es : ∀ l,
  WorkerLeg.state l ≠ OPEN → WorkerLeg.state l ≠ CONNECTING →
  WorkerLeg.state (WorkerLeg.run l es) ≠ OPEN ∧
  WorkerLeg.state (WorkerLeg.run l es) ≠ CONNECTING.
Proof.
  induction es as [|[t e] es IH]; intros l Ho Hc; [by split|].
  unfold WorkerLeg.run in *. simpl fold_left.
  destruct l as [st [due|]]; simpl in *;
    apply IH; unfold WorkerLeg.handle, WorkerLeg.elapse; simpl;
    try destruct (due <=? t)%Z; destruct e, st; simpl; congruence.
Qed.

(** X15. A worker leg whose deadline passes without a ping is terminated: once
    31000 ms have gone by since the open or ping that set the deadline, the
    leg is closing, and no later event opens it again. And the ['close'] of
    a leg clears its deadline: after it the leg is closed and has no timer
    pending, whatever time passes. *)
Theorem worker_leg_deadline last now l es :
  WorkerLeg.state l = OPEN →
  WorkerLeg.pingTimeout l = Some (last + 31000)%Z →
  (last + 31000 <= now)%Z →
  WorkerLeg.elapse now l =
    {| WorkerLeg.state := CLOSING; WorkerLeg.pingTimeout := None |} ∧
  WorkerLeg.state (WorkerLeg.run (WorkerLeg.elapse now l) es) ≠ OPEN ∧
  ∀ t t', WorkerLeg.elapse t' (WorkerLeg.handle l (t, WorkerLeg.Close)) =
          {| WorkerLeg.state := CLOSED; WorkerLeg.pingTimeout := None |}.
Proof.
  intros Hs Hp Hnow.
  assert (WorkerLeg.elapse now l =
          {| WorkerLeg.state := CLOSING; WorkerLeg.pingTimeout := None |}) as He.
  { unfold WorkerLeg.elapse. rewrite Hp.
    destruct (Z.leb_spec (last + 31000) now) as [_|]; [|lia]. by rewrite Hs. }
  split; [exact He|]. split.
  - rewrite He. by apply leg_never_reopens.
  - intros t t'. unfold WorkerLeg.handle, WorkerLeg.elapse. simpl.
    rewrite Hp. by destruct (last + 31000 <=? t)%Z.
Qed.

(** ** Construction, continued *)

(** X16. The constructor returns only when it was given options with a server that
    is an [Http.Server] and a matchmaker that is a [Net.Server]; the
    instance then starts with an empty queue and holds the pool it was
    given as it is. Called with no options at all it throws the error of
    the server test. *)
Theorem constructor_returns DEBUG :
  Constructor.constructor DEBUG None =
    Constructor.Throw
      (Constructor.Error "Http server is required for PlayerConnectionGateway") ∧
  ∀ options inst,
    Constructor.constructor DEBUG options = Constructor.Return inst →
    ∃ o, options = Some o ∧
      Constructor.instanceof (Constructor.server o) Constructor.HttpServer = true ∧
      Constructor.instanceof (Constructor.matchmaker o) Constructor.NetServer = true ∧
      Constructor.this_pool inst = Constructor.pool o ∧
      Constructor.queue_size inst = 0.
Proof.
  split; [reflexivity|]. intros [o|] inst; [|discriminate].
  unfold Constructor.constructor. simpl.
  destruct (Constructor.instanceof (Constructor.server o) _) eqn:Hs;
    simpl; [|discriminate].
  destruct (Constructor.instanceof (Constructor.matchmaker o) _) eqn:Hm;
    simpl; [|discriminate].
  destruct (Constructor.instrument (Constructor.metrics o)); [|discriminate].
  intros [= <-]. exists o. by repeat split.
Qed.

(** ** The peer configuration service *)

Lemma ok_true rtc :
  PeerConfig.ok rtc = true ↔
  ∃ s, In s (PeerConfig.iceServers rtc) ∧ PeerConfig.urls s ≠ [].
Proof.
  unfold PeerConfig.ok. rewrite existsb_exists. split.
  - intros (s & Hin & Hs). exists s. split; [exact Hin|].
    intros He. by rewrite He in Hs.
  - intros (s & Hin & Hs). exists s. split; [exact Hin|].
    by destruct (PeerConfig.urls s).
Qed.

(** X17. The handler of the peer configuration service. A path that is neither
    "/" nor begins with "/health" is answered 404 with no body and without
    the configuration being read. The main route never throws: it answers
    200 with the configuration, or 500 when reading it threw. The health
    route, any path beginning with "/health", answers 200 "true" exactly
    when some ICE server of the configuration has a URL and 404 "false"
    otherwise; it is the one route that throws when reading the
    configuration does. *)
Theorem peer_config_routes peerConfig url :
  (String.eqb url "/" = false → String.prefix "/health" url = false →
     PeerConfig.handler peerConfig url =
     PeerConfig.Returned
       {| PeerConfig.status := 404; PeerConfig.contentType := None;
          PeerConfig.body := PeerConfig.Empty |}) ∧
  (∃ r, PeerConfig.handler peerConfig "/" = PeerConfig.Returned r ∧
        (PeerConfig.status r = 200%Z ∨ PeerConfig.status r = 500%Z) ∧
        (PeerConfig.status r = 200%Z ↔ peerConfig ≠ PeerConfig.Thrown)) ∧
  (String.prefix "/health" url = true →
     (peerConfig = PeerConfig.Thrown →
        PeerConfig.handler peerConfig url = PeerConfig.Thrown) ∧
     ∀ rtc, peerConfig = PeerConfig.Returned rtc →
       ∃ r, PeerConfig.handler peerConfig url = PeerConfig.Returned r ∧
         (PeerConfig.status r = 200%Z ∨ PeerConfig.status r = 404%Z) ∧
         (PeerConfig.status r = 200%Z ↔
            ∃ s, In s (PeerConfig.iceServers rtc) ∧ PeerConfig.urls s ≠ []) ∧
         PeerConfig.body r =
           PeerConfig.Text (if PeerConfig.ok rtc then "true" else "false")).
Proof.
  split; [|split].
  - intros H1 H2. unfold PeerConfig.handler. by rewrite H1, H2.
  - unfold PeerConfig.handler. simpl. destruct peerConfig as [c|]; eexists;
      (split; [reflexivity|]); simpl.
    + split; [by left|]. split; [intros _; discriminate|intros _; reflexivity].
    + split; [by right|]. split; [intros H; discriminate H|intros H; by destruct H].
  - intros Hpre.
    assert (String.eqb url "/" = false) as Hne.
    { destruct (String.eqb_spec url "/") as [->|]; [discriminate|reflexivity]. }
    unfold PeerConfig.handler. rewrite Hne, Hpre. split.
    + by intros ->.
    + intros rtc ->. eexists. split; [reflexivity|]. simpl.
      rewrite <- ok_true. destruct (PeerConfig.ok rtc); repeat split; auto;
        discriminate.
Qed.

(** ** Drains and the eligible streamers *)

Lemma allocated_since_eligible now g0 g r :
  allocated_since g0 g → r ∈ eligible now g → r ∈ eligible now g0.
Proof.
  intros (Hd & Hp & Hw). unfold eligible. rewrite Hd, Hp.
  rewrite !list_elem_of_In, !filter_In. intros [Hin Ha]. split; [exact Hin|].
  unfold available_ref in *. destruct (Hw r) as [<-|(rec & Hr & Hr')]; [exact Ha|].
  rewrite Hr' in Ha. by rewrite available_allocated in Ha.
Qed.

Lemma allocated_since_assign g0 g p server :
  allocated_since g0 g → allocated_since g0 (assignPlayer p server g).
Proof.
  intros (Hd & Hp & Hw). destruct (client_open g p) eqn:Ho.
  2:{ rewrite assignPlayer_closed by done. by split. }
  destruct (assignPlayer_open_pool p server g Ho) as (E1 & E2 & E3).
  unfold allocated_since. rewrite E1, E2, E3.
  split; [exact Hd|]. split; [exact Hp|].
  intros r. rewrite list_lookup_alter.
  destruct (decide (server = r)) as [->|]; [|apply Hw].
  destruct (Hw r) as [Heq|(rec & Hr & Hr')].
  - rewrite Heq. destruct (workers g0 !! r) as [rec|]; [right|by left].
    exists rec. auto.
  - right. exists rec. by rewrite Hr'.
Qed.

Lemma dequeue_eligible t waiting g0 : ∀ i g,
  allocated_since g0 g →
  ∃ news, streams (dequeue (at_time t) i waiting g) = streams g ++ news ∧
          NoDup (backend <$> news) ∧
          ∀ r, r ∈ backend <$> news → r ∈ eligible t g0.
Proof.
  induction waiting as [|p rest IH]; intros i g HA.
  - exists []. simpl. rewrite app_nil_r. split; [done|]. split; [constructor|].
    intros r Hr. inversion Hr.
  - destruct (dequeue_distinct (at_time t) (p :: rest) i g) as (news & Hs & Hnd & _).
    exists news. split; [exact Hs|]. split; [exact Hnd|].
    simpl in Hs |- *. unfold at_time in Hs at 1.
    destruct (nextAvailable t g) as [server|] eqn:Hn.
    2:{ assert (news = []) as -> by (apply (app_inv_head (streams g)); by rewrite app_nil_r).
        intros r Hr. inversion Hr. }
    destruct (assignPlayer_throws p server g) eqn:Ht.
    { rewrite streams_assignPlayer in Hs.
      rewrite assignPlayer_throws_eq in Ht. apply andb_true_iff in Ht as [Ho Hcs].
      rewrite Ho, Hcs in Hs. simpl in Hs.
      assert (news = []) as ->
        by (apply (app_inv_head (streams g)); by rewrite <- Hs, !app_nil_r).
      intros r Hr. inversion Hr. }
    destruct (IH (S i) (assignPlayer p server g)) as (news1 & Hs1 & _ & Hel1);
      [by apply allocated_since_assign|].
    rewrite Hs1, streams_assignPlayer_returns, <- app_assoc in Hs by done.
    apply app_inv_head in Hs. subst news.
    intros r Hr. rewrite fmap_app in Hr. apply elem_of_app in Hr as [Hr|Hr]; [|auto].
    destruct (client_open g p); [|inversion Hr].
    apply list_elem_of_singleton in Hr. simpl in Hr. subst r.
    apply (allocated_since_eligible t g0 g); [exact HA|].
    rewrite nextAvailable_head in Hn. destruct (eligible t g) as [|x l]; [discriminate|].
    injection Hn as ->. left.
Qed.

(** X3. A drain opens worker legs only to streamers that were eligible when it
    started, to each of them at most once; so it never connects more
    sessions than there were eligible streamers. (The clock is taken not to
    advance during the drain.) *)
Theorem drain_within_eligible t g :
  NoDup (eligible t g) →
  ∃ news, streams (connectWaitingPlayers (at_time t) g) = streams g ++ news ∧
          (∀ ss, ss ∈ news → backend ss ∈ eligible t g) ∧
          length news ≤ length (eligible t g).
Proof.
  intros Hnd.
  assert (allocated_since g g) as HA by (split; [done|split; [done|by left]]).
  assert (∃ news, streams (connectWaitingPlayers (at_time t) g) = streams g ++ news ∧
            NoDup (backend <$> news) ∧
            ∀ r, r ∈ backend <$> news → r ∈ eligible t g) as (news & Hs & Hn & He).
  { unfold connectWaitingPlayers. destruct (length (queue g)).
    - exists []. rewrite app_nil_r. split; [done|]. split; [constructor|].
      intros r Hr. inversion Hr.
    - by apply dequeue_eligible. }
  exists news. split; [exact Hs|]. split.
  - intros ss Hss. apply He, list_elem_of_fmap. eauto.
  - rewrite <- (length_fmap backend news).
    apply NoDup_incl_length; [by apply NoDup_ListNoDup|].
    intros r Hr. apply list_elem_of_In, He. by apply list_elem_of_In.
Qed.

(** ** A client that answers *)

(** X18. A client that answers every probe is never terminated by the
    heartbeat: after any number of ticks, each followed by the client's
    pong, its socket is still open, its flag is set, and it has been sent
    one probe per tick. *)
Theorem answered_heartbeats n : ∀ g p pl,
  players g !! p = Some pl → readyState (ws pl) = OPEN → alive (ws pl) = true →
  ∃ pl', players (run g (answered p n)) !! p = Some pl' ∧
         readyState (ws pl') = OPEN ∧ alive (ws pl') = true ∧
         pings (ws pl') = pings (ws pl) + n ∧
         sent (ws pl') = sent (ws pl) ∧ stream pl' = stream pl.
Proof.
  induction n as [|n IH]; intros g p pl Hp Ho Ha.
  - exists pl. simpl. rewrite Nat.add_0_r. repeat split; auto.
  - change (run g (answered p (S n)))
      with (run (step (step g (ClientHeartbeat p)) (ClientPong p)) (answered p n)).
    assert (client_live g p = true) as Hl.
    { apply client_live_Some. exists pl. split; [done|]. by rewrite Ho. }
    assert (step g (ClientHeartbeat p) = update_player p _clientHeartbeat g) as ->
      by (simpl; by rewrite Hl).
    assert (client_live (update_player p _clientHeartbeat g) p = true) as Hl'
      by (by apply client_live_heartbeat).
    assert (step (update_player p _clientHeartbeat g) (ClientPong p) =
            update_player p onPong (update_player p _clientHeartbeat g)) as ->
      by (simpl; by rewrite Hl').
    destruct (IH (update_player p onPong (update_player p _clientHeartbeat g)) p
                (onPong (_clientHeartbeat pl)))
      as (pl' & H1 & H2 & H3 & H4 & H5 & H6).
    + simpl. by rewrite !list_lookup_alter_eq, Hp.
    + unfold _clientHeartbeat. rewrite Ha. simpl. exact Ho.
    + reflexivity.
    + exists pl'. split; [exact H1|]. split; [exact H2|]. split; [exact H3|].
      unfold _clientHeartbeat in H4, H5, H6. rewrite Ha in H4, H5, H6.
      simpl in H4, H5, H6. repeat split; auto. lia.
Qed.

End Properties.

(** * The example runs *)

(** ** Reachability of the example states *)

(** No handler of the example runs throws. *)
Lemma reachable_one_streamer : reachable one_streamer.
Proof. apply reachable_run; [apply reachable_initial|reflexivity]. Qed.

Lemma reachable_three_waiting : reachable three_waiting.
Proof. apply reachable_run; [apply reachable_initial|reflexivity]. Qed.

Lemma reachable_terminated_drained : reachable terminated_drained.
Proof.
  apply reachable_run; [|reflexivity].
  apply reachable_run; [apply reachable_initial|reflexivity].
Qed.

Lemma reachable_one_matched : reachable one_matched.
Proof. apply reachable_run; [apply reachable_one_streamer|reflexivity]. Qed.

Lemma reachable_one_disconnected : reachable one_disconnected.
Proof. apply reachable_run; [apply reachable_one_matched|reflexivity]. Qed.

(** ** The statements on the example runs *)

Lemma nextAvailable_eligibility_witness :
  0 ∈ pool one_streamer ∧
  ∃ server, workers one_streamer !! 0 = Some server ∧
    numConnectedClients server = 0%Z ∧
    allocated server = false ∧
    (60000 - lastPingReceived server <= livenessWindow)%Z ∧
    (ready server = true ∨ debug one_streamer = true).
Proof. apply (nextAvailable_eligibility 60000 one_streamer 0). reflexivity. Defined.

(** C2 as stated fails on the bound: a streamer whose last ping is exactly
    60000 ms old is returned, and [now - lastPingReceived < 60000] is false
    for it. *)
Lemma nextAvailable_boundary :
  nextAvailable 60000 one_streamer = Some 0 ∧
  ∃ server, workers one_streamer !! 0 = Some server ∧
            ¬ (60000 - lastPingReceived server < livenessWindow)%Z.
Proof.
  split; [reflexivity|]. eexists. split; [reflexivity|].
  unfold livenessWindow. simpl. lia.
Qed.

Lemma drain_fifo_witness :
  connectWaitingPlayers_throws (at_time 0) three_waiting = false ∧
  queue (connectWaitingPlayers (at_time 0) three_waiting) = [1; 2].
Proof.
  destruct (drain_fifo (at_time 0) three_waiting) as (_ & H & _).
  - apply (bool_decide_unpack _). vm_compute. reflexivity.
  - destruct (H 0 1 2 0
                {| address := "10.0.0.5"; port := 9000; ready := true;
                   allocated := false; numConnectedClients := 0;
                   lastPingReceived := 0 |})
      as (Hret & Hq & _).
    + reflexivity.
    + reflexivity.
    + intros i. reflexivity.
    + reflexivity.
    + reflexivity.
    + split; [exact Hret|exact Hq].
Defined.

(** C3 as stated fails when the first player's client socket is not open:
    with three players queued and one eligible streamer, the drain returns
    having removed the first player without connecting it and connected the
    second, and only the third stays queued. *)
Lemma drain_skips_terminated_head :
  queue first_terminated = [0; 1; 2] ∧
  eligible 0 first_terminated = [0] ∧
  connectWaitingPlayers_throws (at_time 0) first_terminated = false ∧
  queue (connectWaitingPlayers (at_time 0) first_terminated) = [2] ∧
  (stream <$> players (connectWaitingPlayers (at_time 0) first_terminated) !! 0)
    = Some None ∧
  (worker_of (connectWaitingPlayers (at_time 0) first_terminated) <$>
     players (connectWaitingPlayers (at_time 0) first_terminated) !! 1)
    = Some (Some 0).
Proof. repeat split; vm_compute; reflexivity. Qed.

Lemma queue_membership_witness :
  ∃ pl, players three_waiting !! 1 = Some pl ∧ stream pl = None ∧
        readyState (ws pl) ≠ CLOSED.
Proof.
  apply (proj1 (queue_membership three_waiting reachable_three_waiting) 1).
  apply (bool_decide_unpack _). vm_compute. reflexivity.
Defined.

(** C5 as stated fails for a player whose socket was terminated while it
    was queued: after the next drain it is not in the queue although it has
    no worker leg and has not disconnected (its ['close'] event is still to
    come). *)
Lemma terminated_player_not_queued :
  reachable terminated_drained ∧
  ¬ (0 ∈ queue terminated_drained) ∧
  ∃ pl, players terminated_drained !! 0 = Some pl ∧
        stream pl = None ∧ readyState (ws pl) = CLOSING.
Proof.
  split; [apply reachable_terminated_drained|].
  split.
  - apply (bool_decide_unpack _). vm_compute. reflexivity.
  - eexists. split; [vm_compute; reflexivity|]. split; reflexivity.
Qed.



(** C1 fails on the code. The scan never returns an allocated streamer
    ([nextAvailable_unallocated]), a drain opens no socket to one
    ([connectWaitingPlayers_skips_allocated]) and only [freeServer] clears
    the flag ([allocation_kept]); but the [freeServer] listeners that
    [assignPlayer] puts on a player stay on it when the player is queued
    again and assigned to another streamer. After the run [swapped] player 1
    is connected to streamer 0 while player 0, once connected to it, still
    carries its [freeServer]. When player 0 disconnects, streamer 0 is freed
    under player 1, and the next drain gives it to player 2: two players
    hold streamer 0, allocated, and both worker legs open. *)
Theorem stale_freeServer_double_allocation :
  reachable (run (initial false) double_allocation) ∧
  holders (run (initial false) swapped) 0 = [1] ∧
  (allocated <$> workers (run (initial false) swapped) !! 0) = Some true ∧
  (onDisconnect <$> players (run (initial false) swapped) !! 0)
    = Some [QueueDelete; FreeServer 0; FreeServer 1] ∧
  holders (run (initial false) (swapped ++ [ClientClose 0])) 0 = [1] ∧
  (allocated <$> workers (run (initial false) (swapped ++ [ClientClose 0])) !! 0)
    = Some false ∧
  holders (run (initial false) double_allocation) 0 = [1; 2] ∧
  (allocated <$> workers (run (initial false) double_allocation) !! 0) = Some true ∧
  (streamState <$> streams (run (initial false) double_allocation) !! 2) = Some OPEN ∧
  (streamState <$> streams (run (initial false) double_allocation) !! 4) = Some OPEN.
Proof.
  split; [apply reachable_run; [apply reachable_initial|vm_compute; reflexivity]|].
  repeat split; vm_compute; reflexivity.
Qed.

(** C9 as stated fails on the type tag: the notice of a new session has the
    tag "matchmaker", not "matchmaker-notice". *)
Lemma creation_notice_tag :
  (sent ∘ ws <$> players (run (initial false) [ClientConnection (at_time 0)]) !! 0)
    = Some [PNotice waiting_notice] ∧
  type waiting_notice = "matchmaker"%string ∧
  type waiting_notice ≠ "matchmaker-notice"%string.
Proof. split; [reflexivity|]. split; [reflexivity|discriminate]. Qed.

Lemma notices_consistent_witness :
  matched waiting_notice = negb (queued waiting_notice).
Proof.
  eapply (proj2 notices_consistent one_matched 0).
  - apply reachable_one_matched.
  - reflexivity.
  - left.
Defined.

Lemma client_heartbeat_witness :
  ∃ pl', players (run (step (initial false) (ClientConnection (at_time 0)))
                    ([ClientHeartbeat 0] ++ [ClientHeartbeat 0])) !! 0 = Some pl' ∧
         alive (ws pl') = false ∧
         readyState (ws pl') = CLOSING ∧ pings (ws pl') = 1.
Proof.
  edestruct (proj1 (proj2 (proj2 (proj2 (proj2 (proj2 (proj2 client_heartbeat))))))
               (initial false) (at_time 0) [ClientHeartbeat 0])
    as [_ (pl' & H1 & H2 & H3 & H4)].
  - reflexivity.
  - simpl. discriminate.
  - exists pl'. split; [exact H1|]. split; [exact H2|]. split; [exact H3|exact H4].
Defined.

Lemma demand_ratio_witness :
  streamer_demand_ratio one_matched =
  (inject_Z (connectedClients one_matched) / inject_Z (readyWorkers one_matched))%Q.
Proof. apply (proj1 (demand_ratio one_matched)). reflexivity. Defined.

(** C7 as stated fails when a client is connected to a streamer: with one
    ready streamer, nobody waiting and one client connected to the streamer
    the gauge is 1, not 0 / 1. *)
Lemma demand_ratio_counts_matched :
  waitingClients one_matched = 0%Z ∧
  readyWorkers one_matched = 1%Z ∧
  connectedClients one_matched = 1%Z ∧
  streamer_demand_ratio one_matched = 1%Q ∧
  ¬ (streamer_demand_ratio one_matched ==
     inject_Z (waitingClients one_matched) / inject_Z (readyWorkers one_matched))%Q.
Proof.
  split; [reflexivity|]. split; [reflexivity|]. split; [reflexivity|].
  split; [reflexivity|]. vm_compute. discriminate.
Qed.

Lemma drain_idempotent_witness :
  connectWaitingPlayers (at_time 0) (connectWaitingPlayers (at_time 0) three_waiting) =
  connectWaitingPlayers (at_time 0) three_waiting.
Proof.
  apply (drain_idempotent 0 three_waiting).
  - apply (bool_decide_unpack _). vm_compute. reflexivity.
  - reflexivity.
Defined.

Lemma connect_with_streamer_witness :
  throws one_streamer (ClientConnection (at_time 0)) = false ∧
  queue (step one_streamer (ClientConnection (at_time 0))) = [].
Proof.
  destruct (connect_with_streamer (at_time 0) one_streamer 0
              {| address := "10.0.0.5"; port := 9000; ready := true;
                 allocated := false; numConnectedClients := 0;
                 lastPingReceived := 0 |})
    as (Hret & Hq & _); [reflexivity..|].
  split; [exact Hret|exact Hq].
Defined.

Lemma connect_throws_witness :
  throws unreachable_streamer (ClientConnection (at_time 0)) = true ∧
  queue (step unreachable_streamer (ClientConnection (at_time 0))) = [] ∧
  streams (step unreachable_streamer (ClientConnection (at_time 0))) = [].
Proof.
  destruct (connect_throws (at_time 0) unreachable_streamer 0
              {| address := ""; port := 65536; ready := true;
                 allocated := false; numConnectedClients := 0;
                 lastPingReceived := 0 |})
    as (Hthrows & Hq & Hs & _); [reflexivity..|].
  split; [exact Hthrows|]. split; [exact Hq|exact Hs].
Defined.

Lemma connect_without_streamer_witness :
  queue (step (initial false) (ClientConnection (at_time 0))) = [] ++ [0].
Proof.
  apply (connect_without_streamer (at_time 0) (initial false)).
  - apply reachable_initial.
  - reflexivity.
Defined.

Lemma single_worker_leg_witness :
  0 = 0 ∧ ∃ pl, players one_matched !! 0 = Some pl ∧ stream pl = Some 0.
Proof.
  apply (single_worker_leg one_matched 0 0
           (set_streamState OPEN (new_stream 0 0))
           (set_streamState OPEN (new_stream 0 0))).
  - apply reachable_one_matched.
  - reflexivity.
  - simpl. discriminate.
  - reflexivity.
  - simpl. discriminate.
  - reflexivity.
Defined.

Lemma client_close_witness :
  queue (step one_matched (ClientClose 0)) = queue_delete 0 (queue one_matched).
Proof.
  eapply (client_close one_matched 0).
  - apply reachable_one_matched.
  - reflexivity.
  - simpl. discriminate.
Defined.

Lemma disconnected_is_final_witness :
  ¬ 0 ∈ queue (run one_disconnected [ClientConnection (at_time 0)]).
Proof.
  edestruct (disconnected_is_final one_disconnected 0)
    with (es := [ClientConnection (at_time 0)]) as (pl' & _ & _ & _ & H).
  - apply reachable_one_disconnected.
  - reflexivity.
  - reflexivity.
  - exact H.
Defined.

Lemma last_notice_tells_witness :
  ∃ n, last_notice [PNotice waiting_notice;
                    PNotice (matched_notice
                      {| address := "10.0.0.5"; port := 9000; ready := true;
                         allocated := true; numConnectedClients := 0;
                         lastPingReceived := 0 |})] = Some n ∧
       type n = "matchmaker"%string ∧
       queued n = negb (truthy (Some 0)) ∧
       matched n = truthy (Some 0).
Proof.
  apply (proj2 (last_notice_tells one_matched 0
    {| ws := {| readyState := OPEN; alive := true;
                sent := [PNotice waiting_notice;
                         PNotice (matched_notice
                           {| address := "10.0.0.5"; port := 9000; ready := true;
                              allocated := true; numConnectedClients := 0;
                              lastPingReceived := 0 |})];
                pings := 0 |};
       stream := Some 0; onDrop := 1;
       onDisconnect := [QueueDelete; FreeServer 0] |}
    reachable_one_matched
    eq_refl)).
Defined.

Lemma relay_to_client_witness :
  ∃ pl', players (run one_matched (StreamMessage 0 <$> ["offer"; "answer"]%string))
           !! 0 = Some pl' ∧
         sent (ws pl') =
           [PNotice waiting_notice;
            PNotice (matched_notice
              {| address := "10.0.0.5"; port := 9000; ready := true;
                 allocated := true; numConnectedClients := 0;
                 lastPingReceived := 0 |})] ++
           (PRelay <$> ["offer"; "answer"]%string) ∧
         stream pl' = Some 0 ∧ readyState (ws pl') = OPEN.
Proof.
  apply (proj1 (proj1 (relay_to_client ["offer"; "answer"]%string one_matched 0
    (set_streamState OPEN (new_stream 0 0))
    {| ws := {| readyState := OPEN; alive := true;
                sent := [PNotice waiting_notice;
                         PNotice (matched_notice
                           {| address := "10.0.0.5"; port := 9000; ready := true;
                              allocated := true; numConnectedClients := 0;
                              lastPingReceived := 0 |})];
                pings := 0 |};
       stream := Some 0; onDrop := 1;
       onDisconnect := [QueueDelete; FreeServer 0] |}
    eq_refl ltac:(simpl; discriminate) eq_refl) eq_refl)).
Defined.

Lemma relay_to_streamer_witness :
  ∃ ss', streams (run one_matched (ClientMessage 0 <$> ["offer"; "ice"]%string))
           !! 0 = Some ss' ∧
         forwarded ss' = [] ++ ["offer"; "ice"]%string ∧
         streamState ss' = OPEN ∧ owner ss' = 0 ∧ backend ss' = 0.
Proof.
  apply (proj1 (proj1 (relay_to_streamer ["offer"; "ice"]%string one_matched 0
    {| ws := {| readyState := OPEN; alive := true;
                sent := [PNotice waiting_notice;
                         PNotice (matched_notice
                           {| address := "10.0.0.5"; port := 9000; ready := true;
                              allocated := true; numConnectedClients := 0;
                              lastPingReceived := 0 |})];
                pings := 0 |};
       stream := Some 0; onDrop := 1;
       onDisconnect := [QueueDelete; FreeServer 0] |}
    eq_refl ltac:(simpl; discriminate)) 0 (set_streamState OPEN (new_stream 0 0))
    eq_refl eq_refl eq_refl)).
Defined.

Lemma available_gauge_witness : (1 <= streamer_available_count one_streamer)%Z.
Proof. apply (proj2 (available_gauge one_streamer) 0%Z 0); reflexivity. Defined.

Lemma drop_requeues_last_witness :
  queue (step one_matched (StreamClose 0)) = [] ++ [0].
Proof.
  edestruct (drop_requeues_last one_matched 0) as (_ & _ & H & _).
  - apply reachable_one_matched.
  - reflexivity.
  - simpl. discriminate.
  - reflexivity.
  - exact H.
Defined.

Lemma worker_leg_kept_open_witness :
  WorkerLeg.elapse 70000
    (WorkerLeg.run WorkerLeg.connecting
       ((0%Z, WorkerLeg.Open) ::
        ((λ t, (t, WorkerLeg.Ping)) <$> [30000%Z; 60000%Z]))) =
  {| WorkerLeg.state := OPEN;
     WorkerLeg.pingTimeout := Some (List.last [30000%Z; 60000%Z] 0%Z + 31000)%Z |}.
Proof.
  apply (worker_leg_kept_open 0 [30000%Z; 60000%Z] 70000).
  - simpl. unfold WorkerLeg.grace. lia.
  - simpl. lia.
Defined.

Lemma worker_leg_deadline_witness :
  WorkerLeg.elapse 31000
    (WorkerLeg.run WorkerLeg.connecting [(0%Z, WorkerLeg.Open)]) =
  {| WorkerLeg.state := CLOSING; WorkerLeg.pingTimeout := None |}.
Proof.
  apply (worker_leg_deadline 0 31000
           (WorkerLeg.run WorkerLeg.connecting [(0%Z, WorkerLeg.Open)]) []);
    [reflexivity|reflexivity|lia].
Defined.

Lemma constructor_returns_witness :
  ∃ o, Some Constructor.without_pool = Some o ∧
    Constructor.instanceof (Constructor.server o) Constructor.HttpServer = true ∧
    Constructor.instanceof (Constructor.matchmaker o) Constructor.NetServer = true ∧
    Constructor.Undefined = Constructor.pool o ∧
    0 = 0.
Proof.
  apply (proj2 (constructor_returns None) (Some Constructor.without_pool)
           {| Constructor._debug := false;
              Constructor.this_pool := Constructor.Undefined;
              Constructor.queue_size := 0;
              Constructor.gauges :=
                ["player_queue_count"; "streamer_available_count";
                 "streamer_demand_ratio"]%string |}).
  reflexivity.
Defined.

Lemma peer_config_routes_witness :
  PeerConfig.handler PeerConfig.Thrown "/metrics" =
  PeerConfig.Returned
    {| PeerConfig.status := 404; PeerConfig.contentType := None;
       PeerConfig.body := PeerConfig.Empty |}.
Proof.
  apply (proj1 (peer_config_routes PeerConfig.Thrown "/metrics")); reflexivity.
Defined.

Lemma drain_within_eligible_witness :
  ∃ news, streams (connectWaitingPlayers (at_time 0) three_waiting) =
            streams three_waiting ++ news ∧
          (∀ ss, ss ∈ news → backend ss ∈ eligible 0 three_waiting) ∧
          length news ≤ length (eligible 0 three_waiting).
Proof.
  apply (drain_within_eligible 0 three_waiting).
  apply (bool_decide_unpack _). vm_compute. reflexivity.
Defined.

Lemma answered_heartbeats_witness :
  ∃ pl', players (run one_matched (answered 0 3)) !! 0 = Some pl' ∧
         readyState (ws pl') = OPEN ∧ alive (ws pl') = true ∧
         pings (ws pl') = 0 + 3 ∧
         sent (ws pl') =
           [PNotice waiting_notice;
            PNotice (matched_notice
              {| address := "10.0.0.5"; port := 9000; ready := true;
                 allocated := true; numConnectedClients := 0;
                 lastPingReceived := 0 |})] ∧
         stream pl' = Some 0.
Proof.
  apply (answered_heartbeats 3 one_matched 0
    {| ws := {| readyState := OPEN; alive := true;
                sent := [PNotice waiting_notice;
                         PNotice (matched_notice
                           {| address := "10.0.0.5"; port := 9000; ready := true;
                              allocated := true; numConnectedClients := 0;
                              lastPingReceived := 0 |})];
                pings := 0 |};
       stream := Some 0; onDrop := 1;
       onDisconnect := [QueueDelete; FreeServer 0] |});
    reflexivity.
Defined.

